(** * TeamSpeak ServerQuery plugin: the query function of [plugin.py]

    A shallow embedding of [_perform_teamspeak_query], of the three
    helpers of its raw TCP fallback ([_unescape], [_parse_entry],
    [_send_and_recv]) and of the [execute] methods of the two commands and of
    the action, followed by the properties of the query that the
    specification states and by further properties of the code.

    - [Py] models the Python built-ins the code calls ([str.replace],
      [str.strip], [str.split], [str.splitlines], [bytes.decode], [int], ...).
    - The functions after it follow [plugin.py] statement by statement; the
      socket, the [ts3] library and the interpreter are an explicit [world]
      threaded through a state-and-exception monad. *)

From Stdlib Require Import ZArith Lia.
From Stdlib Require DecimalN DecimalPos.
From Stdlib Require Import Strings.String Strings.Ascii Strings.Byte.
From stdpp Require Import gmap list.

#[local] Open Scope N_scope.

(** ** Python built-ins *)

Module Py.

(** A Python [str] is a sequence of Unicode code points, a [bytes] object a
    sequence of byte values; both are lists of numbers here. *)
Abbreviation str := (list N).
Abbreviation bytes := (list N).

(** *** UTF-8 *)

Definition is_continuation (b : N) : bool := (0x80 <=? b) && (b <=? 0xBF).

Definition in_range (lo hi b : N) : bool := (lo <=? b) && (b <=? hi).

(** The well-formed UTF-8 sequence at the head of [data], if there is one:
    its code point and its length in bytes (overlong forms, surrogates and
    values above U+10FFFF are not well formed). *)
Definition utf8_sequence (data : bytes) : option (N * nat) :=
  match data with
  | b0 :: rest =>
      if b0 <? 0x80 then Some (b0, 1%nat)
      else match rest with
      | b1 :: rest1 =>
          if in_range 0xC2 0xDF b0 && is_continuation b1
          then Some ((b0 - 0xC0) * 64 + (b1 - 0x80), 2%nat)
          else match rest1 with
          | b2 :: rest2 =>
              if ((N.eqb b0 0xE0 && in_range 0xA0 0xBF b1)
                  || (in_range 0xE1 0xEC b0 && is_continuation b1)
                  || (N.eqb b0 0xED && in_range 0x80 0x9F b1)
                  || (in_range 0xEE 0xEF b0 && is_continuation b1))
                 && is_continuation b2
              then Some ((b0 - 0xE0) * 4096 + (b1 - 0x80) * 64 + (b2 - 0x80), 3%nat)
              else match rest2 with
              | b3 :: _ =>
                  if ((N.eqb b0 0xF0 && in_range 0x90 0xBF b1)
                      || (in_range 0xF1 0xF3 b0 && is_continuation b1)
                      || (N.eqb b0 0xF4 && in_range 0x80 0x8F b1))
                     && is_continuation b2 && is_continuation b3
                  then Some ((b0 - 0xF0) * 262144 + (b1 - 0x80) * 4096
                             + (b2 - 0x80) * 64 + (b3 - 0x80), 4%nat)
                  else None
              | [] => None
              end
          | [] => None
          end
      | [] => None
      end
  | [] => None
  end.

(** [skip] counts the bytes of the current sequence still to pass over. *)
Fixpoint decode_from (skip : nat) (data : bytes) : str :=
  match data with
  | [] => []
  | _ :: rest =>
      match skip with
      | S k => decode_from k rest
      | O =>
          match utf8_sequence data with
          | Some (cp, len) => cp :: decode_from (Nat.pred len) rest
          | None => decode_from 0 rest
          end
      end
  end.

(** [data.decode(errors="ignore")]: a byte that starts no well-formed
    sequence is dropped and decoding resumes at the next byte. *)
Definition decode_ignore (data : bytes) : str := decode_from 0 data.

(** [s.encode()]: [None] stands for [UnicodeEncodeError] (a surrogate, or a
    number that is no code point). *)
Definition encode_char (c : N) : option bytes :=
  if c <? 0x80 then Some [c]
  else if c <? 0x800 then Some [0xC0 + c / 64; 0x80 + c mod 64]
  else if in_range 0xD800 0xDFFF c then None
  else if c <? 0x10000 then
    Some [0xE0 + c / 4096; 0x80 + (c / 64) mod 64; 0x80 + c mod 64]
  else if c <? 0x110000 then
    Some [0xF0 + c / 262144; 0x80 + (c / 4096) mod 64;
          0x80 + (c / 64) mod 64; 0x80 + c mod 64]
  else None.

Fixpoint encode (s : str) : option bytes :=
  match s with
  | [] => Some []
  | c :: s' =>
      match encode_char c, encode s' with
      | Some b, Some bs => Some (b ++ bs)
      | _, _ => None
      end
  end.

(** A literal of the source: the code points of the text between the quotes
    (this file is UTF-8, like [plugin.py]). *)
Definition lit (s : String.string) : str :=
  decode_ignore (map Byte.to_N (String.list_byte_of_string s)).

(** A [bytes] literal [b"..."] of ASCII text. *)
Definition blit (s : String.string) : bytes :=
  map Byte.to_N (String.list_byte_of_string s).

Arguments lit s%_string.
Arguments blit s%_string.

(** *** Character classes *)

(** [str.isspace] for one character: the Unicode white space. *)
Definition isspace (c : N) : bool :=
  in_range 0x09 0x0D c || in_range 0x1C 0x20 c || N.eqb c 0x85 || N.eqb c 0xA0
  || N.eqb c 0x1680 || in_range 0x2000 0x200A c || N.eqb c 0x2028
  || N.eqb c 0x2029 || N.eqb c 0x202F || N.eqb c 0x205F || N.eqb c 0x3000.

(** The line boundaries of [str.splitlines]. *)
Definition is_linebreak (c : N) : bool :=
  in_range 0x0A 0x0D c || in_range 0x1C 0x1E c || N.eqb c 0x85
  || N.eqb c 0x2028 || N.eqb c 0x2029.

(** *** [str] methods *)

(** [s.startswith(p)] *)
Fixpoint startswith (p s : str) : bool :=
  match p, s with
  | [], _ => true
  | a :: p', b :: s' => N.eqb a b && startswith p' s'
  | _ :: _, [] => false
  end.

(** [sub in s] *)
Fixpoint contains (sub s : str) : bool :=
  startswith sub s || match s with [] => false | _ :: s' => contains sub s' end.

(** [s.replace(old, new)] for a non-empty [old]: the occurrences of [old]
    are found from the left and do not overlap. [skip] counts the
    characters of a found occurrence still to pass over. *)
Fixpoint replace_from (old new : str) (skip : nat) (s : str) : str :=
  match s with
  | [] => []
  | c :: s' =>
      match skip with
      | S k => replace_from old new k s'
      | O =>
          if startswith old s
          then new ++ replace_from old new (Nat.pred (length old)) s'
          else c :: replace_from old new 0 s'
      end
  end.

Definition replace (old new s : str) : str := replace_from old new 0 s.

Fixpoint lstrip (s : str) : str :=
  match s with
  | c :: s' => if isspace c then lstrip s' else s
  | [] => []
  end.

(** [s.strip()] *)
Definition strip (s : str) : str := rev (lstrip (rev (lstrip s))).

(** [s.split(sep)] for a separator of one character: the pieces between the
    separators, empty ones included; never an empty list. [cur] is the piece
    read so far. *)
Fixpoint split_from (sep : N) (cur : str) (s : str) : list str :=
  match s with
  | [] => [cur]
  | c :: s' =>
      if N.eqb c sep then cur :: split_from sep [] s'
      else split_from sep (cur ++ [c]) s'
  end.

Definition split (sep : N) (s : str) : list str := split_from sep [] s.

(** [s.split(sep, 1)] when [sep] occurs in [s]: the text before the first
    separator and the text after it. *)
Fixpoint split_once (sep : N) (s : str) : str * str :=
  match s with
  | [] => ([], [])
  | c :: s' =>
      if N.eqb c sep then ([], s')
      else let '(k, v) := split_once sep s' in (c :: k, v)
  end.

(** [s.splitlines()]: a line ends at a line boundary, with "\r\n" as one
    boundary; the text after the last boundary is a line when it is not
    empty. *)
Fixpoint splitlines_from (cur : str) (s : str) : list str :=
  match s with
  | [] => match cur with [] => [] | _ => [cur] end
  | c :: s' =>
      if is_linebreak c then
        cur :: match s' with
               | c' :: s'' =>
                   if N.eqb c 0x0D && N.eqb c' 0x0A
                   then splitlines_from [] s''
                   else splitlines_from [] s'
               | [] => []
               end
      else splitlines_from (cur ++ [c]) s'
  end.

Definition splitlines (s : str) : list str := splitlines_from [] s.

(** A value in a condition: a [str] is true when it is not empty. *)
Definition truthy (s : str) : bool :=
  match s with [] => false | _ :: _ => true end.

(** [a or b] for an optional text [a] ([None] when a key is missing): [a]
    when it is a non-empty text, [b] otherwise. *)
Definition or_else (a : option str) (b : str) : str :=
  match a with
  | Some (c :: s) => c :: s
  | _ => b
  end.

(** [str(x)] for the result of [dict.get]: [None] prints as "None". *)
Definition str_of_get (x : option str) : str :=
  match x with
  | Some s => s
  | None => lit "None"
  end.

(** *** Integers and text *)

(** What the running interpreter fixes: [todecimal] gives the digit value of
    the decimal digits outside ASCII (it comes from the interpreter's Unicode
    database), [max_str_digits] is [sys.get_int_max_str_digits()], with [0]
    for no limit (and for the interpreters that have none). *)
Record interpreter := {
  todecimal : N -> option N;
  max_str_digits : N;
}.

(** The limit is only checked on numbers of more than 640 digits. *)
Definition exceeds_digit_limit (ip : interpreter) (digits : nat) : bool :=
  (640 <? N.of_nat digits) && (0 <? max_str_digits ip)
  && (max_str_digits ip <? N.of_nat digits).

(** [int] first rewrites its argument to ASCII: a character below 127 is
    kept, other white space becomes a space, another decimal digit its ASCII
    digit, and anything else ends the text with a question mark. *)
Fixpoint to_ascii_decimal (ip : interpreter) (s : str) : str :=
  match s with
  | [] => []
  | c :: s' =>
      if c <? 127 then c :: to_ascii_decimal ip s'
      else if isspace c then 0x20 :: to_ascii_decimal ip s'
      else match todecimal ip c with
           | Some d => (0x30 + d) :: to_ascii_decimal ip s'
           | None => [0x3F]
           end
  end.

(** White space of the C locale. *)
Definition c_isspace (c : N) : bool := in_range 0x09 0x0D c || N.eqb c 0x20.

Definition is_digit (c : N) : bool := in_range 0x30 0x39 c.

Fixpoint skip_spaces (s : str) : str :=
  match s with
  | c :: s' => if c_isspace c then skip_spaces s' else s
  | [] => []
  end.

(** The digits at the head of [s], single underscores allowed between them:
    the value read so far, the number of digits, and the text that follows.
    [None] when two underscores meet or an underscore ends the digits. *)
Fixpoint scan_digits (after_underscore : bool) (value : N) (digits : nat)
    (s : str) : option (N * nat * str) :=
  match s with
  | c :: s' =>
      if is_digit c then scan_digits false (value * 10 + (c - 0x30)) (S digits) s'
      else if N.eqb c 0x5F then
        if after_underscore then None else scan_digits true value digits s'
      else if after_underscore then None else Some (value, digits, s)
  | [] => if after_underscore then None else Some (value, digits, [])
  end.

(** [int(s)] for a text [s]; [None] stands for [ValueError]. The text is
    optional white space, an optional sign, digits, optional white space. *)
Definition int_of_str (ip : interpreter) (s : str) : option Z :=
  let s := skip_spaces (to_ascii_decimal ip s) in
  let '(negative, s) :=
    match s with
    | 0x2B :: s' => (false, s')
    | 0x2D :: s' => (true, s')
    | _ => (false, s)
    end in
  match s with
  | 0x5F :: _ => None
  | _ =>
      match scan_digits false 0 0 s with
      | Some (value, digits, rest) =>
          if exceeds_digit_limit ip digits then None
          else match digits, skip_spaces rest with
               | S _, [] => Some (if negative then (- Z.of_N value)%Z else Z.of_N value)
               | _, _ => None
               end
      | None => None
      end
  end.

Fixpoint digits_of_uint (u : Decimal.uint) : str :=
  match u with
  | Decimal.Nil => []
  | Decimal.D0 u => 0x30 :: digits_of_uint u
  | Decimal.D1 u => 0x31 :: digits_of_uint u
  | Decimal.D2 u => 0x32 :: digits_of_uint u
  | Decimal.D3 u => 0x33 :: digits_of_uint u
  | Decimal.D4 u => 0x34 :: digits_of_uint u
  | Decimal.D5 u => 0x35 :: digits_of_uint u
  | Decimal.D6 u => 0x36 :: digits_of_uint u
  | Decimal.D7 u => 0x37 :: digits_of_uint u
  | Decimal.D8 u => 0x38 :: digits_of_uint u
  | Decimal.D9 u => 0x39 :: digits_of_uint u
  end.

(** [str(n)] for an integer [n]; [None] stands for the [ValueError] of a
    number with more digits than the interpreter's limit. *)
Definition str_of_int (ip : interpreter) (n : Z) : option str :=
  let digits := digits_of_uint (N.to_uint (Z.abs_N n)) in
  if exceeds_digit_limit ip (length digits) then None
  else Some (if (n <? 0)%Z then 0x2D :: digits else digits).

End Py.

Import Py.

(** ** The world outside the function *)

(** The exceptions that can reach the function's handlers. *)
Inductive exn :=
| ImportError                 (* [import ts3] without the package *)
| LibraryError (msg : str)    (* raised inside the [ts3] library *)
| OSError (msg : str)         (* a socket operation failed *)
| SocketTimeout               (* [socket.timeout] *)
| IndexError                  (* [conn.serverinfo()[0]] on an empty response *)
| ValueError (arg : str)      (* [int] or [str] refused its argument *)
| UnicodeEncodeError.         (* [str.encode] *)

(** What a call gives back: a value, or an exception. *)
Inductive outcome (A : Type) :=
| Returns (a : A)
| Raises (e : exn).
Arguments Returns {A} a.
Arguments Raises {A} e.

(** A record of a response: the dictionary [_parse_entry] builds. *)
Abbreviation entry := (gmap str str).

(** The [ts3] package, when it is installed: what each method of a
    connection does when the function calls it. The package is not part of
    the repository; its records are taken to be dictionaries from field
    names to text, like those of the raw codec. *)
Record ts3_package := {
  ts3_connection : option exn;  (* [ts3.query.TS3Connection(host, port)] *)
  ts3_login : option exn;
  ts3_use : option exn;
  ts3_serverinfo : outcome (list entry);
  ts3_clientlist : outcome (list entry);
  ts3_channellist : outcome (list entry);
}.

(** What the function does to the outside: the connections it opens and
    closes and the commands it sends. *)
Inductive event :=
| Ts3Connect (host : str) (port : Z)
| Ts3Login (name password : str)
| Ts3Use (sid : Z)
| Ts3Serverinfo
| Ts3Clientlist
| Ts3Channellist
| Ts3Close
| SockConnect (host : str) (port : Z)
| SockSend (data : bytes)
| SockClose.

(** - [ts3]: the package, [None] when [import ts3] fails.
    - [ts3_closes]: what the successive calls of [conn.close()] do; a call
      past the end of the list succeeds.
    - [connecting]: what [socket.create_connection] does.
    - [sends]: what the successive calls of [sock.sendall] do; a call past
      the end of the list succeeds.
    - [recvs]: what the successive calls of [sock.recv] give (a chunk of at
      most 4096 bytes on a real socket; nothing here needs the bound); past
      the end of the list the peer is silent and [recv] times out.
    - [ts3_open], [sock_open]: a connection has been opened and its
      [close()] has not been called since.
    - [trace]: the events so far, the latest first. *)
Record world := {
  interp : interpreter;
  ts3 : option ts3_package;
  ts3_closes : list (option exn);
  connecting : option exn;
  sends : list (option exn);
  recvs : list (outcome bytes);
  ts3_open : bool;
  sock_open : bool;
  trace : list event;
}.

Definition set_ts3_closes (l : list (option exn)) (w : world) : world :=
  {| interp := interp w; ts3 := ts3 w; ts3_closes := l;
     connecting := connecting w; sends := sends w; recvs := recvs w;
     ts3_open := ts3_open w; sock_open := sock_open w; trace := trace w |}.

Definition set_sends (l : list (option exn)) (w : world) : world :=
  {| interp := interp w; ts3 := ts3 w; ts3_closes := ts3_closes w;
     connecting := connecting w; sends := l; recvs := recvs w;
     ts3_open := ts3_open w; sock_open := sock_open w; trace := trace w |}.

Definition set_recvs (l : list (outcome bytes)) (w : world) : world :=
  {| interp := interp w; ts3 := ts3 w; ts3_closes := ts3_closes w;
     connecting := connecting w; sends := sends w; recvs := l;
     ts3_open := ts3_open w; sock_open := sock_open w; trace := trace w |}.

Definition set_ts3_open (b : bool) (w : world) : world :=
  {| interp := interp w; ts3 := ts3 w; ts3_closes := ts3_closes w;
     connecting := connecting w; sends := sends w; recvs := recvs w;
     ts3_open := b; sock_open := sock_open w; trace := trace w |}.

Definition set_sock_open (b : bool) (w : world) : world :=
  {| interp := interp w; ts3 := ts3 w; ts3_closes := ts3_closes w;
     connecting := connecting w; sends := sends w; recvs := recvs w;
     ts3_open := ts3_open w; sock_open := b; trace := trace w |}.

Definition record_event (e : event) (w : world) : world :=
  {| interp := interp w; ts3 := ts3 w; ts3_closes := ts3_closes w;
     connecting := connecting w; sends := sends w; recvs := recvs w;
     ts3_open := ts3_open w; sock_open := sock_open w; trace := e :: trace w |}.

(** ** Computations: a state of the world and exceptions *)

Definition M (A : Type) : Type := world -> outcome A * world.

#[global] Instance M_ret : MRet M := fun A a w => (Returns a, w).

#[global] Instance M_bind : MBind M := fun A B f m w =>
  match m w with
  | (Returns a, w') => f a w'
  | (Raises e, w') => (Raises e, w')
  end.

Definition raise {A} (e : exn) : M A := fun w => (Raises e, w).

(** [try: body except Exception as e: handler(e)] *)
Definition try_except {A} (body : M A) (handler : exn -> M A) : M A := fun w =>
  match body w with
  | (Returns a, w') => (Returns a, w')
  | (Raises e, w') => handler e w'
  end.

(** [try: body finally: cleanup], for a [cleanup] that raises nothing. *)
Definition try_finally {A} (body : M A) (cleanup : M unit) : M A := fun w =>
  match body w with
  | (r, w') => (r, snd (cleanup w'))
  end.

(** [try: body except Exception: pass] *)
Definition ignoring_errors (body : M unit) : M unit :=
  try_except body (fun _ => mret tt).

Definition get_interp : M interpreter := fun w => (Returns (interp w), w).

Definition modify (f : world -> world) : M unit := fun w => (Returns tt, f w).

(** [None] is the exception [e]. *)
Definition or_raise {A} (e : exn) (x : option A) : M A :=
  match x with
  | Some a => mret a
  | None => raise e
  end.

(** [int(s)] and [str(n)] in the running interpreter. *)
Definition py_int (s : str) : M Z :=
  ip ← get_interp; or_raise (ValueError s) (int_of_str ip s).

Definition py_str (n : Z) : M str :=
  ip ← get_interp; or_raise (ValueError []) (str_of_int ip n).

(** *** The socket *)

(** [socket.create_connection((host, port), timeout=5)] *)
Definition sock_connect (host : str) (port : Z) : M unit := fun w =>
  let w := record_event (SockConnect host port) w in
  match connecting w with
  | Some e => (Raises e, w)
  | None => (Returns tt, set_sock_open true w)
  end.

(** [sock.sendall(data)] *)
Definition sock_sendall (data : bytes) : M unit := fun w =>
  let w := record_event (SockSend data) w in
  match sends w with
  | Some e :: rest => (Raises e, set_sends rest w)
  | None :: rest => (Returns tt, set_sends rest w)
  | [] => (Returns tt, w)
  end.

(** [sock.recv(4096)] *)
Definition sock_recv : M bytes := fun w =>
  match recvs w with
  | r :: rest => (r, set_recvs rest w)
  | [] => (Raises SocketTimeout, w)
  end.

(** [sock.close()] *)
Definition sock_close : M unit := fun w =>
  (Returns tt, set_sock_open false (record_event SockClose w)).

(** *** The [ts3] connection *)

Definition ts3_call {A} (e : event) (f : ts3_package -> outcome A) : M A := fun w =>
  match ts3 w with
  | Some pkg => (f pkg, record_event e w)
  | None => (Raises ImportError, w)
  end.

Definition of_option (x : option exn) : outcome unit :=
  match x with
  | Some e => Raises e
  | None => Returns tt
  end.

(** [conn = ts3.query.TS3Connection(host, port)] *)
Definition ts3_connect (host : str) (port : Z) : M unit :=
  ts3_call (Ts3Connect host port) (fun pkg => of_option (ts3_connection pkg));;
  modify (set_ts3_open true).

(** [conn.close()]: once it is called the connection counts as closed,
    whether or not the call raises. *)
Definition ts3_close : M unit := fun w =>
  let w := set_ts3_open false (record_event Ts3Close w) in
  match ts3_closes w with
  | Some e :: rest => (Raises e, set_ts3_closes rest w)
  | None :: rest => (Returns tt, set_ts3_closes rest w)
  | [] => (Returns tt, w)
  end.

(** [conn.login(...)], [conn.use(...)] and the three queries. *)
Definition ts3_conn_login (name password : str) : M unit :=
  ts3_call (Ts3Login name password) (fun pkg => of_option (ts3_login pkg)).

Definition ts3_conn_use (sid : Z) : M unit :=
  ts3_call (Ts3Use sid) (fun pkg => of_option (ts3_use pkg)).

Definition ts3_conn_serverinfo : M (list entry) :=
  ts3_call Ts3Serverinfo ts3_serverinfo.

Definition ts3_conn_clientlist : M (list entry) :=
  ts3_call Ts3Clientlist ts3_clientlist.

Definition ts3_conn_channellist : M (list entry) :=
  ts3_call Ts3Channellist ts3_channellist.

(** ** [plugin.py] *)

(** *** Configuration and result *)

(** An element of [exclude_channels]: a text or an integer (the comment on
    the default configuration: a channel id such as "5" or 5, or a channel
    name). *)
Inductive token :=
| TokStr (s : str)
| TokInt (n : Z).

(** What [get_config_func] answers for the keys the function reads, with
    the types of [config_schema]; a key that is not configured has the value
    of [DEFAULT_PLUGIN_CONFIG] (an empty text for the password and the
    api-key). *)
Record config := {
  ts_host : str;
  ts_port : Z;
  ts_server_id : Z;
  ts_username : str;
  ts_password : str;
  ts_api_key : str;
  show_details : bool;
  exclude_channels : list token;
}.

(** The keys a status query adds to the result. *)
Record status_fields := {
  uptime_days : Z;
  uptime_hours : Z;
  version : str;
  platform : str;
  channel_count : Z;
}.

(** The result dictionary; a field that is [None] is a key that is absent. *)
Record query_result := {
  server_name : str;
  online_count : Z;
  max_clients : Z;
  status : option status_fields;
  online_users : option (list str);
  more_users : option Z;
}.

(** The error dictionaries, by the message they hold:
    - [NoCredentials]: "TeamSpeak 凭证未配置（...）"
    - [LoginFailed msg]: "ServerQuery 登录失败: " followed by [msg]
    - [UseFailed msg]: "use sid 失败: " followed by [msg]
    - [ServerinfoFailed msg]: "serverinfo 失败: " followed by [msg]
    - [FallbackFailed e]: "TCP 回退查询失败: " followed by the text of [e] *)
Inductive query_error :=
| NoCredentials
| LoginFailed (msg : str)
| UseFailed (msg : str)
| ServerinfoFailed (msg : str)
| FallbackFailed (e : exn).

(** The pair the function returns: [(True, result)] or
    [(False, {"error": ...})]. *)
Inductive answer :=
| Success (result : query_result)
| Failure (error : query_error).

(** *** The raw codec *)

Definition LF : N := 0x0A.
Definition CR : N := 0x0D.

(** [val.replace("\\s", " ").replace("\\/", "/").replace("\\p", "|")
        .replace("\\\\", "\\")] *)
Definition _unescape (val : str) : str :=
  replace (lit "\\") (lit "\")
    (replace (lit "\p") (lit "|")
       (replace (lit "\/") (lit "/")
          (replace (lit "\s") (lit " ") val))).

(** The body of the loop of [_parse_entry] for one part [p]. *)
Definition parse_token (d : entry) (p : str) : entry :=
  if contains (lit "=") p then
    let '(k, v) := split_once 0x3D p in
    <[k := _unescape v]> d
  else d.

Definition _parse_entry (line : str) : entry :=
  let parts := if truthy line then split 0x20 (strip line) else [] in
  foldl parse_token ∅ parts.

(** The two statuses [_send_and_recv] makes up. *)
Definition no_response : entry :=
  <[lit "msg" := lit "no response"]> (<[lit "id" := lit "-1"]> ∅).

Definition no_error_line : entry :=
  <[lit "msg" := lit "no error line"]> (<[lit "id" := lit "-1"]> ∅).

(** [x.strip()] as a condition: [x] has a character that is no white
    space. *)
Definition nonblank (x : str) : bool := truthy (strip x).

(** The loop that fills [parsed]: the records of every data line, a line
    holding several records separated by "|". *)
Definition records_of (entries : list str) : list entry :=
  flat_map (fun entry => map _parse_entry (List.filter nonblank (split 0x7C entry)))
    entries.

(** The second half of [_send_and_recv]: from the bytes received to the
    parsed records and the status. *)
Definition parse_response (data : bytes) : list entry * entry :=
  let text := decode_ignore data in
  let lines := List.filter nonblank (splitlines text) in
  match lines with
  | [] => ([], no_response)
  | _ :: _ =>
      let '(err, entries) :=
        if startswith (lit "error id=") (List.last lines [])
        then (_parse_entry (List.last lines []), removelast lines)
        else (no_error_line, lines) in
      (records_of entries, err)
  end.

(** [b"\nerror id=" in data or b"\nerror id=" in data.replace(b"\r", b"")] *)
Definition status_seen (data : bytes) : bool :=
  contains (LF :: blit "error id=") data
  || contains (LF :: blit "error id=") (replace [CR] [] data).

(** The receiving loop of [_send_and_recv], one call of [sock.recv] for each
    pass, on the calls' scripted outcomes: what the loop leaves in [data] (or
    the exception that ends it) and the outcomes left. *)
Fixpoint recv_loop (data : bytes) (script : list (outcome bytes))
    : outcome bytes * list (outcome bytes) :=
  match script with
  | [] => (Returns data, [])
  | Raises SocketTimeout :: rest => (Returns data, rest)
  | Raises e :: rest => (Raises e, rest)
  | Returns chunk :: rest =>
      if negb (truthy chunk) then (Returns data, rest)
      else
        let data := data ++ chunk in
        if status_seen data then (Returns data, rest)
        else recv_loop data rest
  end.

Definition recv_until_status : M bytes := fun w =>
  let '(r, rest) := recv_loop [] (recvs w) in (r, set_recvs rest w).

Definition _send_and_recv (cmd : str) : M (list entry * entry) :=
  payload ← or_raise UnicodeEncodeError (encode (cmd ++ [LF]));
  sock_sendall payload;;
  data ← recv_until_status;
  mret (parse_response data).

(** *** The steps the two paths share *)

(** [[str(x) for x in exclude_channels]], and the empty list when a
    conversion raises. *)
Definition str_of_token (x : token) : M str :=
  match x with
  | TokStr s => mret s
  | TokInt n => py_str n
  end.

Fixpoint str_of_tokens (l : list token) : M (list str) :=
  match l with
  | [] => mret []
  | x :: l' => s ← str_of_token x; ss ← str_of_tokens l'; mret (s :: ss)
  end.

Definition normalized_tokens (l : list token) : M (list str) :=
  try_except (str_of_tokens l) (fun _ => mret []).

(** [ch.get("channel_name") or ch.get("name") or ""] *)
Definition name_of_channel (ch : entry) : str :=
  or_else (ch !! lit "channel_name") (or_else (ch !! lit "name") []).

(** [{ch.get("cid"): (...) for ch in channels}]: a later record with the
    same [cid] replaces the name of an earlier one; the key of a record
    without [cid] is [None]. *)
Definition cid_to_name_of (channels : list entry) : gmap (option str) str :=
  foldl (fun m ch => <[ch !! lit "cid" := name_of_channel ch]> m) ∅ channels.

(** The inner loop over [cid_to_name.items()] for one token [ex]. *)
Definition add_matching (ex : str) (excluded : gset str)
    (items : list (option str * str)) : gset str :=
  foldl (fun acc kv => if bool_decide (kv.2 = ex)
                       then acc ∪ {[str_of_get kv.1]} else acc)
    excluded items.

(** The body of the loop over [exclude_channels] for one token [ex]. *)
Definition exclude_token (cid_to_name : gmap (option str) str)
    (excluded : gset str) (ex : str) : gset str :=
  if bool_decide (ex ∈ (map_to_list cid_to_name).*2)
  then add_matching ex excluded (map_to_list cid_to_name)
  else excluded ∪ {[ex]}.

Definition excluded_cids_of (exclude_channels : list str)
    (channels : list entry) : gset str :=
  foldl (exclude_token (cid_to_name_of channels)) ∅ exclude_channels.

(** [[c for c in clients if c.get("client_type") == "0"
        and str(c.get("cid")) not in excluded_cids]] *)
Definition online_users_of (clients : list entry) (excluded_cids : gset str)
    : list entry :=
  List.filter
    (fun c => bool_decide (c !! lit "client_type" = Some (lit "0"))
              && negb (bool_decide (str_of_get (c !! lit "cid") ∈ excluded_cids)))
    clients.

(** [[ch for ch in channels if str(ch.get("cid")) not in excluded_cids]] *)
Definition channels_kept (channels : list entry) (excluded_cids : gset str)
    : list entry :=
  List.filter
    (fun ch => negb (bool_decide (str_of_get (ch !! lit "cid") ∈ excluded_cids)))
    channels.

(** [len(l)] *)
Definition len {A} (l : list A) : Z := Z.of_nat (length l).

(** The result as first built: the three keys every result has. *)
Definition basic_result (name : str) (users : list entry) (max : Z)
    : query_result :=
  {| server_name := name; online_count := len users; max_clients := max;
     status := None; online_users := None; more_users := None |}.

(** [result.update({...})] of a status query. *)
Definition with_status (uptime : Z) (server_info : entry) (channels : Z)
    (r : query_result) : query_result :=
  {| server_name := server_name r; online_count := online_count r;
     max_clients := max_clients r;
     status := Some {| uptime_days := uptime / 86400;
                       uptime_hours := (uptime mod 86400) / 3600;
                       version := default (lit "未知")
                                    (server_info !! lit "virtualserver_version");
                       platform := default (lit "未知")
                                     (server_info !! lit "virtualserver_platform");
                       channel_count := channels |};
     online_users := online_users r; more_users := more_users r |}%Z.

(** The user list: the nicknames of [online_users[:10]], and [more_users]
    when there are more than ten. *)
Definition with_user_list (users : list entry) (r : query_result)
    : query_result :=
  let user_names :=
    map (fun u => default (lit "未知") (u !! lit "client_nickname"))
      (take 10 users) in
  {| server_name := server_name r; online_count := online_count r;
     max_clients := max_clients r; status := status r;
     online_users := Some user_names;
     more_users := if (10 <? len users)%Z then Some (len users - 10)%Z
                   else more_users r |}.

(** [err.get("id") != "0"] *)
Definition failed (err : entry) : bool :=
  negb (bool_decide (err !! lit "id" = Some (lit "0"))).

(** [err.get('msg', '')] *)
Definition message_of (err : entry) : str := default [] (err !! lit "msg").

(** [ts_api_key if ts_api_key else ts_password] *)
Definition login_password (cfg : config) : str :=
  if truthy (ts_api_key cfg) then ts_api_key cfg else ts_password cfg.

(** [server_info.get("virtualserver_name", "未知服务器")] and the argument
    of [int] for [max_clients]. *)
Definition server_name_of (server_info : entry) : str :=
  default (lit "未知服务器") (server_info !! lit "virtualserver_name").

Definition maxclients_text (server_info : entry) : str :=
  default (lit "0") (server_info !! lit "virtualserver_maxclients").

(** *** The path through the [ts3] package *)

(** [import ts3] *)
Definition import_ts3 : M unit := fun w =>
  match ts3 w with
  | Some _ => (Returns tt, w)
  | None => (Raises ImportError, w)
  end.

(** The body of the inner [try] (its [finally] is in [ts3_query]). *)
Definition ts3_session (cfg : config) (exclude : list str) (query_type : str)
    (show_user_list : bool) : M answer :=
  ts3_conn_login (ts_username cfg) (login_password cfg);;
  ts3_conn_use (ts_server_id cfg);;
  infos ← ts3_conn_serverinfo;
  server_info ← or_raise IndexError (head infos);
  let server_name := server_name_of server_info in
  max_clients ← py_int (maxclients_text server_info);
  clients ← ts3_conn_clientlist;
  channels ← ts3_conn_channellist;
  let excluded_cids := excluded_cids_of exclude channels in
  let users := online_users_of clients excluded_cids in
  let result := basic_result server_name users max_clients in
  result ←
    (if bool_decide (query_type = lit "server_status") then
       uptime ← match server_info !! lit "virtualserver_uptime" with
                | Some s => py_int s
                | None => mret 0%Z
                end;
       mret (with_status uptime server_info
               (len (channels_kept channels excluded_cids)) result)
     else mret result);
  let result :=
    if show_user_list || show_details cfg then with_user_list users result
    else result in
  ts3_close;;
  mret (Success result).

Definition ts3_query (cfg : config) (exclude : list str) (query_type : str)
    (show_user_list : bool) : M answer :=
  import_ts3;;
  ts3_connect (ts_host cfg) (ts_port cfg);;
  try_finally (ts3_session cfg exclude query_type show_user_list)
    (ignoring_errors ts3_close).

(** *** The fallback on a TCP socket *)

(** [sock.close()] and the return of a failed step. *)
Definition close_and_fail (error : query_error) : M answer :=
  sock_close;; mret (Failure error).

(** The body of the [try] of the fallback, cut after the statements that
    can end it early; each part ends with the part that follows it in the
    source. *)

Definition login_line (cfg : config) : str :=
  lit "login " ++ ts_username cfg ++ lit " " ++ login_password cfg.

(** From the exclusion set to the end. *)
Definition tcp_result (cfg : config) (exclude : list str) (query_type : str)
    (show_user_list : bool) (server_info : entry) (server_name : str)
    (max_clients : Z) (parsed_clients parsed_channels : list entry) : M answer :=
  let excluded_cids := excluded_cids_of exclude parsed_channels in
  let users := online_users_of parsed_clients excluded_cids in
  let result := basic_result server_name users max_clients in
  result ←
    (if bool_decide (query_type = lit "server_status") then
       uptime ← (if truthy (default [] (server_info !! lit "virtualserver_uptime"))
                 then py_int (default [] (server_info !! lit "virtualserver_uptime"))
                 else mret 0%Z);
       '(parsed_channels, _) ← _send_and_recv (lit "channellist");
       mret (with_status uptime server_info
               (len (channels_kept parsed_channels excluded_cids)) result)
     else mret result);
  let result :=
    if show_user_list || show_details cfg then with_user_list users result
    else result in
  ignoring_errors (_ ← _send_and_recv (lit "quit"); mret tt);;
  sock_close;;
  mret (Success result).

(** From [clientlist]. *)
Definition tcp_lists (cfg : config) (exclude : list str) (query_type : str)
    (show_user_list : bool) (server_info : entry) (server_name : str)
    (max_clients : Z) : M answer :=
  '(parsed_clients, err) ← _send_and_recv (lit "clientlist");
  '(parsed_channels, _) ← _send_and_recv (lit "channellist");
  tcp_result cfg exclude query_type show_user_list server_info server_name
    max_clients parsed_clients parsed_channels.

(** From [serverinfo]. *)
Definition tcp_serverinfo (cfg : config) (exclude : list str) (query_type : str)
    (show_user_list : bool) : M answer :=
  '(parsed, err) ← _send_and_recv (lit "serverinfo");
  if failed err then close_and_fail (ServerinfoFailed (message_of err)) else
  let server_info := match parsed with e :: _ => e | [] => ∅ end in
  let server_name := server_name_of server_info in
  max_clients ← py_int (maxclients_text server_info);
  tcp_lists cfg exclude query_type show_user_list server_info server_name max_clients.

(** From [use sid=...]. *)
Definition tcp_use (cfg : config) (exclude : list str) (query_type : str)
    (show_user_list : bool) : M answer :=
  sid ← py_str (ts_server_id cfg);
  '(parsed, err) ← _send_and_recv (lit "use sid=" ++ sid);
  if failed err then close_and_fail (UseFailed (message_of err)) else
  tcp_serverinfo cfg exclude query_type show_user_list.

(** From [login]. *)
Definition tcp_login (cfg : config) (exclude : list str) (query_type : str)
    (show_user_list : bool) : M answer :=
  '(parsed, err) ← _send_and_recv (login_line cfg);
  if failed err then close_and_fail (LoginFailed (message_of err)) else
  tcp_use cfg exclude query_type show_user_list.

(** The connection and the server's greeting, read and thrown away. *)
Definition tcp_session (cfg : config) (exclude : list str) (query_type : str)
    (show_user_list : bool) : M answer :=
  sock_connect (ts_host cfg) (ts_port cfg);;
  ignoring_errors (_ ← sock_recv; mret tt);;
  tcp_login cfg exclude query_type show_user_list.

Definition tcp_query (cfg : config) (exclude : list str) (query_type : str)
    (show_user_list : bool) : M answer :=
  try_except (tcp_session cfg exclude query_type show_user_list)
    (fun e => mret (Failure (FallbackFailed e))).

(** *** The query *)

Definition _perform_teamspeak_query (cfg : config) (query_type : str)
    (show_user_list : bool) : M answer :=
  exclude ← normalized_tokens (exclude_channels cfg);
  if negb (truthy (ts_api_key cfg)) && negb (truthy (ts_password cfg))
  then mret (Failure NoCredentials)
  else
    try_except (ts3_query cfg exclude query_type show_user_list)
      (fun _ => tcp_query cfg exclude query_type show_user_list).

(** ** The commands and the action *)

(** The three [execute] methods run the query and turn its answer into a
    text for the chat. [send_text] and [get_config] are the framework's:
    [get_config] is the configuration [cfg], as for the query, and
    [send_text] is taken to return; what a method does is then the texts it
    passes to [send_text], in order, and the triple it returns. *)
Record reply := {
  sent : list str;
  returned : bool * str * bool;
}.

(** The loop [for i, user in enumerate(result["online_users"], 1)], from
    the index [i]: the lines [f"{i}. {user}\n"]. *)
Fixpoint user_lines (i : Z) (users : list str) : M str :=
  match users with
  | [] => mret []
  | user :: users' =>
      n ← py_str i;
      lines ← user_lines (i + 1) users';
      mret (n ++ lit ". " ++ user ++ [LF] ++ lines)
  end.

(** The message of [TeamSpeakQueryCommand] and of [TeamSpeakAction] for a
    result. *)
Definition online_message (result : query_result) : M str :=
  let message := lit "🎮 TeamSpeak 服务器状态" ++ [LF] in
  let message := message ++ lit "📡 服务器: " ++ server_name result ++ [LF] in
  online_count ← py_str (online_count result);
  max_clients ← py_str (max_clients result);
  let message :=
    message ++ lit "👥 在线: " ++ online_count ++ lit "/" ++ max_clients ++ [LF] in
  match online_users result with
  | Some users =>
      let message := message ++ [LF] ++ lit "在线用户:" ++ [LF] in
      lines ← user_lines 1 users;
      let message := message ++ lines in
      match more_users result with
      | Some n =>
          more ← py_str n;
          mret (message ++ lit "... 还有 " ++ more ++ lit " 人" ++ [LF])
      | None => mret message
      end
  | None => mret message
  end.

(** The message of [TeamSpeakStatusCommand]; a key of the status that the
    result does not have reads as 0. *)
Definition status_message (result : query_result) : M str :=
  let message := lit "🎮 TeamSpeak 服务器详细状态" ++ [LF; LF] in
  let message := message ++ lit "📡 服务器: " ++ server_name result ++ [LF] in
  days ← py_str (from_option uptime_days 0%Z (status result));
  hours ← py_str (from_option uptime_hours 0%Z (status result));
  let message :=
    message ++ lit "⏱️ 运行时间: " ++ days ++ lit "天 " ++ hours ++ lit "小时" ++ [LF] in
  channels ← py_str (from_option channel_count 0%Z (status result));
  let message := message ++ lit "📁 频道: " ++ channels ++ lit "个" ++ [LF] in
  online_count ← py_str (online_count result);
  max_clients ← py_str (max_clients result);
  mret (message ++ lit "👥 在线: " ++ online_count ++ lit "/" ++ max_clients ++ [LF]).

Section Commands.

(** [str(e)] for an exception [e], as the fallback's handler formats it: the
    text is the runtime's. *)
Variable exn_text : exn -> str.

(** The value of the key "error" of an error dictionary (every error
    dictionary of the query has the key: the default of
    [result.get("error", "查询失败")] is not used). *)
Definition error_text (error : query_error) : str :=
  match error with
  | NoCredentials =>
      lit "TeamSpeak 凭证未配置（请在插件配置中设置 password 或 api_key）"
  | LoginFailed msg => lit "ServerQuery 登录失败: " ++ msg
  | UseFailed msg => lit "use sid 失败: " ++ msg
  | ServerinfoFailed msg => lit "serverinfo 失败: " ++ msg
  | FallbackFailed e => lit "TCP 回退查询失败: " ++ exn_text e
  end.

(** The branch [if not success] of the three methods. *)
Definition report_failure (error : query_error) : reply :=
  let error_msg := error_text error in
  {| sent := [lit "❌ " ++ error_msg]; returned := (false, error_msg, false) |}.

Definition report_success (message : str) : reply :=
  {| sent := [message]; returned := (true, lit "查询成功", true) |}.

(** [TeamSpeakQueryCommand.execute] *)
Definition TeamSpeakQueryCommand_execute (cfg : config) : M reply :=
  answer ← _perform_teamspeak_query cfg (lit "online_count") true;
  match answer with
  | Failure error => mret (report_failure error)
  | Success result => message ← online_message result; mret (report_success message)
  end.

(** [TeamSpeakStatusCommand.execute] *)
Definition TeamSpeakStatusCommand_execute (cfg : config) : M reply :=
  answer ← _perform_teamspeak_query cfg (lit "server_status") false;
  match answer with
  | Failure error => mret (report_failure error)
  | Success result => message ← status_message result; mret (report_success message)
  end.

(** [TeamSpeakAction.execute] *)
Definition TeamSpeakAction_execute (cfg : config) : M reply :=
  answer ← _perform_teamspeak_query cfg (lit "online_count") true;
  match answer with
  | Failure error => mret (report_failure error)
  | Success result => message ← online_message result; mret (report_success message)
  end.

End Commands.

(** ** Vocabulary of the properties *)

(** Bytes of ASCII text. *)
Definition ascii_bytes (t : bytes) : Prop := Forall (fun b => b < 0x80) t.

Definition one_line (l : str) : Prop := Forall (fun c => is_linebreak c = false) l.

(** What a successful run of the last part of the fallback returns: the
    records of the two lists it fetched decide the result. *)
Definition shaped (cfg : config) (show_user_list : bool) (users : list entry)
    (r : query_result) : Prop :=
  ∃ r0, online_count r0 = len users ∧ online_users r0 = None ∧ more_users r0 = None
        ∧ r = if show_user_list || show_details cfg
              then with_user_list users r0 else r0.

(** The world after [sock.close()]. *)
Definition closed (w : world) : world :=
  set_sock_open false (record_event SockClose w).

(** The world once the socket is connected and the server's greeting has
    been read (or the wait for it has timed out). *)
Definition greeted (cfg : config) (w : world) : world :=
  let w := set_sock_open true
             (record_event (SockConnect (ts_host cfg) (ts_port cfg)) w) in
  match recvs w with
  | _ :: rest => set_recvs rest w
  | [] => w
  end.

(** How far a call of the query in the world [w0] has come. The fallback
    starts, with the tokens [exclude], when credentials are configured and
    the path through the package has raised; [w1] is the world in which
    [login] is sent. *)
Definition reaches_login (cfg : config) (exclude : list str) (query_type : str)
    (show_user_list : bool) (w0 w1 : world) : Prop :=
  truthy (ts_api_key cfg) || truthy (ts_password cfg) = true
  ∧ normalized_tokens (exclude_channels cfg) w0 = (Returns exclude, w0)
  ∧ ∃ e w, ts3_query cfg exclude query_type show_user_list w0 = (Raises e, w)
           ∧ connecting w = None ∧ w1 = greeted cfg w.

(** [login] was answered with the status "0"; [w2] is the world in which
    [use] is sent. *)
Definition reaches_use (cfg : config) (exclude : list str) (query_type : str)
    (show_user_list : bool) (w0 w2 : world) : Prop :=
  ∃ w1 parsed err,
    reaches_login cfg exclude query_type show_user_list w0 w1
    ∧ _send_and_recv (login_line cfg) w1 = (Returns (parsed, err), w2)
    ∧ failed err = false.

(** [use] was answered with the status "0"; [w3] is the world in which
    [serverinfo] is sent. *)
Definition reaches_serverinfo (cfg : config) (exclude : list str)
    (query_type : str) (show_user_list : bool) (w0 w3 : world) : Prop :=
  ∃ w2 sid parsed err,
    reaches_use cfg exclude query_type show_user_list w0 w2
    ∧ str_of_int (interp w2) (ts_server_id cfg) = Some sid
    ∧ _send_and_recv (lit "use sid=" ++ sid) w2 = (Returns (parsed, err), w3)
    ∧ failed err = false.

(** The two lists the query fetched in the world [w0], with the tokens
    [exclude]. When the path through the package has returned, they are what
    the package of this world answers to [clientlist] and to [channellist].
    Otherwise they are the records of the answers to the lines [clientlist]
    and [channellist], sent on the socket in the world that the fallback is
    in once [serverinfo] has been answered with the status "0". *)
Definition fetched (cfg : config) (exclude : list str) (query_type : str)
    (show_user_list : bool) (w0 : world) (clients channels : list entry) : Prop :=
  (∃ pkg a w',
     ts3 w0 = Some pkg
     ∧ ts3_query cfg exclude query_type show_user_list w0 = (Returns a, w')
     ∧ ts3_clientlist pkg = Returns clients
     ∧ ts3_channellist pkg = Returns channels)
  ∨ (∃ w3 parsed err w4 e1 w5 e2 w6,
       reaches_serverinfo cfg exclude query_type show_user_list w0 w3
       ∧ _send_and_recv (lit "serverinfo") w3 = (Returns (parsed, err), w4)
       ∧ failed err = false
       ∧ _send_and_recv (lit "clientlist") w4 = (Returns (clients, e1), w5)
       ∧ _send_and_recv (lit "channellist") w5 = (Returns (channels, e2), w6)).

(** The handler of the fallback's [try]. *)
Definition fallback_failed (e : exn) : M answer := mret (Failure (FallbackFailed e)).

(** The key of a part that holds "=": the text before the first "=". *)
Definition key_of (p : str) : str := (split_once 0x3D p).1.

(** *** Worlds of the examples *)

(** The interpreter of the examples: the default limit on the digits of an
    integer. No text of the examples holds a digit outside ASCII: the table
    of those digits is never consulted, and is left empty. *)
Definition example_interpreter : interpreter :=
  {| todecimal := fun _ => None; max_str_digits := 4300 |}.

(** A world without the [ts3] package, whose server accepts the connection
    and the commands, and answers the calls of [recv] with [script]. *)
Definition scripted (script : list (outcome bytes)) : world :=
  {| interp := example_interpreter; ts3 := None; ts3_closes := [];
     connecting := None; sends := []; recvs := script;
     ts3_open := false; sock_open := false; trace := [] |}.

(** A line as the server ends it, and the status of a command that
    succeeded. *)
Definition line (text : bytes) : bytes := text ++ [LF; CR].

Definition ok : bytes := line (blit "error id=0 msg=ok").

Definition example_config : config :=
  {| ts_host := lit "localhost"; ts_port := 10011; ts_server_id := 1;
     ts_username := lit "serveradmin"; ts_password := lit "secret";
     ts_api_key := []; show_details := false; exclude_channels := [] |}.

(** A configuration without credentials. *)
Definition unconfigured : config :=
  {| ts_host := lit "localhost"; ts_port := 10011; ts_server_id := 1;
     ts_username := lit "serveradmin"; ts_password := [];
     ts_api_key := []; show_details := true; exclude_channels := [] |}.

(** The channel of the specification's example. *)
Definition lobby : entry := _parse_entry (lit "cid=5 channel_name=Lobby").

(** What the server sends on connection. *)
Definition greeting : outcome bytes :=
  Returns (line (blit "TS3")
           ++ line (blit "Welcome to the TeamSpeak 3 ServerQuery interface")).

(** The answers of a server that accepts [login] and [use], then [rest]. An
    answer that is a status line alone is followed by the time-out that ends
    the wait for more of it. *)
Definition after_use (rest : list (outcome bytes)) : list (outcome bytes) :=
  greeting :: Returns ok :: Raises SocketTimeout
  :: Returns ok :: Raises SocketTimeout :: rest.

Definition serverinfo_answer (maxclients : bytes) : bytes :=
  line (blit "virtualserver_name=Test virtualserver_maxclients=" ++ maxclients
        ++ blit " virtualserver_uptime=90000") ++ ok.

(** Three clients, the last one a query client. *)
Definition three_clients : bytes :=
  line (blit "clid=1 cid=5 client_nickname=Ann client_type=0|clid=2 cid=6 client_nickname=Bob client_type=0|clid=3 cid=6 client_nickname=serveradmin client_type=1")
  ++ ok.

(** Eleven regular clients and a query client. *)
Definition twelve_clients : bytes :=
  line (blit "clid=1 cid=1 client_nickname=u1 client_type=0|clid=2 cid=1 client_nickname=u2 client_type=0|clid=3 cid=1 client_nickname=u3 client_type=0|clid=4 cid=1 client_nickname=u4 client_type=0|clid=5 cid=1 client_nickname=u5 client_type=0|clid=6 cid=1 client_nickname=u6 client_type=0|clid=7 cid=1 client_nickname=u7 client_type=0|clid=8 cid=1 client_nickname=u8 client_type=0|clid=9 cid=1 client_nickname=u9 client_type=0|clid=10 cid=1 client_nickname=u10 client_type=0|clid=11 cid=1 client_nickname=u11 client_type=0|clid=12 cid=1 client_nickname=serveradmin client_type=1")
  ++ ok.

Definition two_channels : bytes :=
  line (blit "cid=5 channel_name=Lobby|cid=6 channel_name=Music\sRoom") ++ ok.

(** A server with eleven regular clients. *)
Definition crowded : list (outcome bytes) :=
  after_use [Returns (serverinfo_answer (blit "32")); Returns twelve_clients;
             Returns two_channels; Returns ok].

Definition crowded_result : query_result :=
  {| server_name := lit "Test"; online_count := 11; max_clients := 32;
     status := None;
     online_users := Some [lit "u1"; lit "u2"; lit "u3"; lit "u4"; lit "u5";
                           lit "u6"; lit "u7"; lit "u8"; lit "u9"; lit "u10"];
     more_users := Some 1%Z |}.

(** A server that refuses the login. *)
Definition refusing_login : list (outcome bytes) :=
  [greeting;
   Returns (line (blit "error id=520 msg=invalid\sloginname\sor\spassword"));
   Raises SocketTimeout].

(** A server that refuses [channellist]. *)
Definition refused_channellist : bytes :=
  line (blit "error id=2568 msg=insufficient\sclient\spermissions").

Definition refusing_channellist : list (outcome bytes) :=
  after_use [Returns (serverinfo_answer (blit "32")); Returns three_clients;
             Returns refused_channellist; Raises SocketTimeout; Returns ok].

(** A server that refuses [clientlist]. *)
Definition refused_clientlist : bytes :=
  line (blit "error id=2568 msg=insufficient\sclient\spermissions").

Definition refusing_clientlist : list (outcome bytes) :=
  after_use [Returns (serverinfo_answer (blit "32")); Returns refused_clientlist;
             Raises SocketTimeout; Returns two_channels; Returns ok].

(** Servers whose [virtualserver_maxclients] is negative, and is no
    number. *)
Definition negative_maxclients : list (outcome bytes) :=
  after_use [Returns (serverinfo_answer (blit "-5")); Returns three_clients;
             Returns two_channels; Returns ok].

Definition unreadable_maxclients : list (outcome bytes) :=
  after_use [Returns (serverinfo_answer (blit "abc")); Returns three_clients;
             Returns two_channels; Returns ok].

(** The world of [scripted (after_use rest)] when [serverinfo] is sent. *)
Definition at_serverinfo (rest : list (outcome bytes)) : world :=
  {| interp := example_interpreter; ts3 := None; ts3_closes := [];
     connecting := None; sends := []; recvs := rest;
     ts3_open := false; sock_open := true;
     trace := [SockSend (blit "use sid=1" ++ [LF]);
               SockSend (blit "login serveradmin secret" ++ [LF]);
               SockConnect (lit "localhost") 10011] |}.

(** *** Events of a run *)

(** The events of a run of the fallback that succeeds, the latest first:
    the connection, the lines [login] and [use] (as the bytes sent), the three
    queries, [channellist] once more for a status query, [quit], and the
    close. *)
Definition conversation (cfg : config) (login use : bytes) (query_type : str)
    : list event :=
  [SockClose; SockSend (blit "quit" ++ [LF])]
  ++ (if bool_decide (query_type = lit "server_status")
      then [SockSend (blit "channellist" ++ [LF])] else [])
  ++ [SockSend (blit "channellist" ++ [LF]); SockSend (blit "clientlist" ++ [LF]);
      SockSend (blit "serverinfo" ++ [LF]); SockSend use; SockSend login;
      SockConnect (ts_host cfg) (ts_port cfg)].

(** The kinds of events: a line sent on the socket, a call of the
    package. *)
Definition is_send (e : event) : bool :=
  match e with SockSend _ => true | _ => false end.

Definition is_ts3_event (e : event) : bool :=
  match e with
  | SockConnect _ _ | SockSend _ | SockClose => false
  | _ => true
  end.

(** What the package path leaves of the world for the fallback: the socket
    and its script are untouched. *)
Definition same_socket (w w' : world) : Prop :=
  interp w' = interp w ∧ connecting w' = connecting w ∧ sends w' = sends w
  ∧ recvs w' = recvs w ∧ sock_open w' = sock_open w.

(** The events of a run of the package path that succeeds, the latest
    first: [conn.close()] is called at the end of the [try] and again in its
    [finally]. *)
Definition package_conversation (cfg : config) : list event :=
  [Ts3Close; Ts3Close; Ts3Channellist; Ts3Clientlist; Ts3Serverinfo;
   Ts3Use (ts_server_id cfg); Ts3Login (ts_username cfg) (login_password cfg);
   Ts3Connect (ts_host cfg) (ts_port cfg)].

(** The events of one use of the socket, the latest first: the connection,
    at most seven lines sent on it, and at most one close, which comes
    last. *)
Definition socket_session (cfg : config) (evs : list event) : Prop :=
  ∃ closes sends,
    evs = closes ++ sends ++ [SockConnect (ts_host cfg) (ts_port cfg)]
    ∧ (closes = [] ∨ closes = [SockClose])
    ∧ Forall (λ e, is_send e = true) sends ∧ (length sends ≤ 7)%nat.

(** The bytes of the chunks among the outcomes of calls of [recv]. *)
Definition received (script : list (outcome bytes)) : bytes :=
  concat (omap (λ o, match o with Returns c => Some c | Raises _ => None end)
            script).

(** An integer that [str] can write in the interpreter [ip]. *)
Definition printable (ip : interpreter) (z : Z) : Prop := is_Some (str_of_int ip z).

(** The numbers of a result that come from the server's text can be
    written. *)
Definition read_numbers (ip : interpreter) (r : query_result) : Prop :=
  printable ip (max_clients r)
  ∧ ∀ st, status r = Some st →
          printable ip (uptime_days st) ∧ printable ip (uptime_hours st).

(** * Properties *)

(** ** The built-ins *)

Lemma startswith_app (p s : str) : startswith p (p ++ s) = true.
Proof. induction p as [|a p IH]; simpl; [done|]. by rewrite N.eqb_refl. Qed.

Lemma startswith_prefix (p s : str) : startswith p s = true ↔ ∃ t, s = p ++ t.
Proof.
  split.
  - revert s. induction p as [|a p IH]; intros s H; simpl in *; [by exists s|].
    destruct s as [|b s]; [done|].
    apply andb_true_iff in H as [Hab H]. apply N.eqb_eq in Hab as ->.
    destruct (IH _ H) as [t ->]. by exists t.
  - intros [t ->]. apply startswith_app.
Qed.

(** A text without the first character of [old] is left alone. *)
Lemma replace_from_absent (old new s : str) (c : N) :
  head old = Some c → c ∉ s → replace_from old new 0 s = s.
Proof.
  intros Hc. induction s as [|x s IH]; intros Hs; simpl; [done|].
  destruct old as [|a old]; [done|]. simpl in Hc. injection Hc as ->.
  simpl. destruct (N.eqb_spec c x) as [->|Hne].
  - exfalso. apply Hs. left.
  - simpl. f_equal. apply IH. intros Hin. apply Hs. by right.
Qed.

Lemma unescape_plain (s : str) : 0x5C ∉ s → _unescape s = s.
Proof.
  intros H. unfold _unescape, replace.
  rewrite (replace_from_absent _ _ s 0x5C) by done.
  rewrite (replace_from_absent _ _ s 0x5C) by done.
  rewrite (replace_from_absent _ _ s 0x5C) by done.
  by rewrite (replace_from_absent _ _ s 0x5C).
Qed.

Lemma split_from_app (sep : N) (cur a b : str) :
  split_from sep cur (a ++ sep :: b) = split_from sep cur a ++ split_from sep [] b.
Proof.
  revert cur. induction a as [|c a IH]; intros cur; simpl.
  - by rewrite N.eqb_refl.
  - destruct (N.eqb c sep); [by rewrite IH|apply IH].
Qed.

Lemma split_app (sep : N) (a b : str) :
  split sep (a ++ sep :: b) = split sep a ++ split sep b.
Proof. apply split_from_app. Qed.

Lemma contains_char (c : N) (s : str) : contains [c] s = true ↔ c ∈ s.
Proof.
  induction s as [|x s IH]; simpl.
  - split; [done|]. intros H. by apply elem_of_nil in H.
  - rewrite orb_true_iff, andb_true_r, IH, elem_of_cons, N.eqb_eq. naive_solver.
Qed.

Lemma split_once_first (sep : N) (k v : str) :
  sep ∉ k → split_once sep (k ++ sep :: v) = (k, v).
Proof.
  induction k as [|c k IH]; intros Hk; simpl.
  - by rewrite N.eqb_refl.
  - destruct (N.eqb_spec c sep) as [->|_].
    + exfalso. apply Hk. left.
    + rewrite IH; [done|]. intros Hin. apply Hk. by right.
Qed.

Lemma parse_token_skip (d : entry) (p : str) : 0x3D ∉ p → parse_token d p = d.
Proof.
  intros Hp. unfold parse_token.
  destruct (contains (lit "=") p) eqn:Hc; [|done].
  by apply (contains_char 0x3D) in Hc.
Qed.

Lemma parse_token_first_equals (d : entry) (k v : str) :
  0x3D ∉ k → parse_token d (k ++ 0x3D :: v) = <[k := _unescape v]> d.
Proof.
  intros Hk. unfold parse_token.
  assert (contains (lit "=") (k ++ 0x3D :: v) = true) as ->.
  { apply (contains_char 0x3D). set_solver. }
  by rewrite split_once_first.
Qed.

Lemma parse_entry_parts (line : str) :
  _parse_entry line = foldl parse_token ∅ (split 0x20 (strip line)).
Proof. unfold _parse_entry. by destruct line. Qed.

Lemma parse_parts_last (d : entry) (parts : list str) (k v : str) :
  0x3D ∉ k →
  foldl parse_token d (parts ++ [k ++ 0x3D :: v]) !! k = Some (_unescape v).
Proof.
  intros Hk. rewrite foldl_app. simpl. rewrite parse_token_first_equals by done.
  apply lookup_insert_eq.
Qed.

Lemma records_of_app (l1 l2 : list str) :
  records_of (l1 ++ l2) = records_of l1 ++ records_of l2.
Proof. unfold records_of. apply flat_map_app. Qed.

Lemma records_of_empty_segment (a b : str) :
  records_of [a ++ 0x7C :: 0x7C :: b] = records_of [a ++ 0x7C :: b].
Proof.
  unfold records_of. simpl. rewrite !app_nil_r. f_equal.
  rewrite !split_app, !List.filter_app.
  change (split 0x7C (0x7C :: b)) with ([] :: split 0x7C b). done.
Qed.

Lemma in_range_low (lo hi x : N) : x < 0x80 → 0x80 ≤ lo → in_range lo hi x = false.
Proof.
  intros Hx Hlo. unfold in_range. apply andb_false_iff. left.
  apply N.leb_gt. lia.
Qed.

Lemma is_continuation_low (x : N) : x < 0x80 → is_continuation x = false.
Proof. intros Hx. by apply (in_range_low 0x80 0xBF). Qed.

Lemma utf8_sequence_ascii (x : N) (t : bytes) :
  x < 0x80 → utf8_sequence (x :: t) = Some (x, 1%nat).
Proof. intros Hx. simpl. by apply N.ltb_lt in Hx as ->. Qed.

Lemma decode_ascii (t : bytes) : ascii_bytes t → decode_from 0 t = t.
Proof.
  induction 1 as [|x t Hx _ IH]; [done|].
  cbn [decode_from]. rewrite utf8_sequence_ascii by done. simpl. by rewrite IH.
Qed.

Ltac low_bytes :=
  repeat match goal with
  | H : ?x < 0x80 |- context [is_continuation ?x] =>
      rewrite (is_continuation_low x H)
  | H : ?x < 0x80 |- context [in_range ?lo ?hi ?x] =>
      rewrite (in_range_low lo hi x H) by lia
  end;
  rewrite ?andb_false_r, ?orb_false_r; simpl.

(** Appending ASCII bytes changes nothing to the sequence found at the head
    of [d], and completes no sequence that [d] leaves unfinished. *)
Lemma utf8_sequence_ascii_suffix (b : N) (d t : bytes) :
  ascii_bytes t →
  match utf8_sequence (b :: d) with
  | Some (cp, n) =>
      utf8_sequence (b :: d ++ t) = Some (cp, n) ∧ (Nat.pred n ≤ length d)%nat
  | None => utf8_sequence (b :: d ++ t) = None
  end.
Proof.
  intros Ht.
  assert (∀ x t', t = x :: t' → x < 0x80) as Hhd.
  { intros x t' ->. by inversion Ht. }
  assert (∀ x y t', t = x :: y :: t' → y < 0x80) as Hhd2.
  { intros x y t' ->. inversion Ht as [|? ? _ Ht']. by inversion Ht'. }
  cbn [utf8_sequence app]. destruct (b <? 0x80); [split; [done|simpl; lia]|].
  destruct d as [|b1 d]; cbn [app].
  { destruct t as [|x [|y t']]; [done| |].
    - specialize (Hhd x [] eq_refl). by low_bytes.
    - specialize (Hhd x _ eq_refl). low_bytes. by destruct t'. }
  destruct (in_range 0xC2 0xDF b && is_continuation b1); [split; [done|simpl; lia]|].
  destruct d as [|b2 d]; cbn [app].
  { destruct t as [|x [|y t']]; [done| |].
    - specialize (Hhd x [] eq_refl). by low_bytes.
    - specialize (Hhd x _ eq_refl). specialize (Hhd2 x y _ eq_refl). by low_bytes. }
  match goal with |- context [if ?c then Some (?v, 3%nat) else _] => destruct c end;
    [split; [done|simpl; lia]|].
  destruct d as [|b3 d]; cbn [app].
  { destruct t as [|x t']; [done|]. specialize (Hhd x _ eq_refl). by low_bytes. }
  match goal with |- context [if ?c then Some (?v, 4%nat) else _] => destruct c end;
    [split; [done|simpl; lia]|done].
Qed.

Lemma decode_from_ascii_suffix (d t : bytes) (k : nat) :
  ascii_bytes t → (k ≤ length d)%nat →
  decode_from k (d ++ t) = decode_from k d ++ t.
Proof.
  intros Ht. revert k. induction d as [|b d IH]; intros k Hk.
  - simpl in Hk. assert (k = 0%nat) as -> by lia. simpl. by apply decode_ascii.
  - cbn [app decode_from]. destruct k as [|k]; [|apply IH; simpl in Hk; lia].
    pose proof (utf8_sequence_ascii_suffix b d t Ht) as Hseq.
    destruct (utf8_sequence (b :: d)) as [[cp n]|].
    + destruct Hseq as [-> Hn]. cbn [app]. by rewrite IH.
    + rewrite Hseq. apply IH. lia.
Qed.

Lemma decode_ignore_ascii_suffix (d t : bytes) :
  ascii_bytes t → decode_ignore (d ++ t) = decode_ignore d ++ t.
Proof. intros Ht. apply decode_from_ascii_suffix; [done|lia]. Qed.

(** A byte that starts no sequence is dropped. *)
Lemma decode_ignore_drops (a : bytes) (b : N) (d : bytes) :
  ascii_bytes a → in_range 0x80 0xC1 b || (0xF5 <=? b) = true →
  decode_ignore (a ++ b :: d) = a ++ decode_ignore d.
Proof.
  intros Ha Hb. unfold decode_ignore.
  induction Ha as [|x a Hx _ IH]; cbn [app decode_from].
  - assert (utf8_sequence (b :: d) = None) as ->; [|done].
    unfold in_range in Hb. cbn [utf8_sequence]. unfold in_range.
    destruct (N.ltb_spec b 0x80), (N.leb_spec 0x80 b), (N.leb_spec b 0xC1),
      (N.leb_spec 0xF5 b); simpl in Hb; try done; try lia.
    all: repeat match goal with
         | |- context [N.leb ?x ?y] => destruct (N.leb_spec x y); try lia
         | |- context [N.eqb ?x ?y] => destruct (N.eqb_spec x y); try lia
         end; simpl; repeat case_match; done.
  - rewrite utf8_sequence_ascii by done. simpl. by rewrite IH.
Qed.

(** *** Lines *)

Lemma splitlines_from_one_line (cur l : str) :
  one_line l → cur ++ l ≠ [] → splitlines_from cur l = [cur ++ l].
Proof.
  intros Hl. revert cur. induction Hl as [|c l Hc _ IH]; intros cur Hne; simpl.
  - rewrite app_nil_r in *. by destruct cur.
  - rewrite Hc. rewrite IH; [by rewrite <- app_assoc|].
    rewrite <- app_assoc. done.
Qed.

(** The text after the last line feed is the last line. *)
Lemma splitlines_from_last_line (cur s l : str) :
  one_line l → l ≠ [] → ∃ ls, splitlines_from cur (s ++ LF :: l) = ls ++ [l].
Proof.
  intros Hl Hne. remember (length s) as n eqn:Hn. revert cur s Hn.
  induction n as [n IH] using lt_wf_ind. intros cur s Hn.
  assert (∀ cur', splitlines_from cur' (LF :: l) = [cur'; l]) as Hlf.
  { intros cur'. cbn [splitlines_from]. change (is_linebreak LF) with true.
    cbn match. destruct l as [|c l']; [done|].
    change (N.eqb LF 13) with false. cbn [andb].
    rewrite (splitlines_from_one_line [] (c :: l')); [reflexivity|done|discriminate]. }
  destruct s as [|c s]; cbn [app].
  { exists [cur]. apply Hlf. }
  cbn [splitlines_from]. destruct (is_linebreak c).
  - destruct s as [|c' s]; cbn [app].
    + match goal with |- context [if ?b then _ else _] => destruct b end.
      * exists [cur]. simpl. rewrite (splitlines_from_one_line [] l); [reflexivity|done|done].
      * exists [cur; []]. by rewrite Hlf.
    + match goal with |- context [if ?b then _ else _] => destruct b end.
      * destruct (IH (length s) ltac:(simpl in Hn; lia) [] s eq_refl) as [ls Hls].
        exists (cur :: ls). by rewrite Hls.
      * destruct (IH (length (c' :: s)) ltac:(simpl in Hn |- *; lia) [] (c' :: s) eq_refl)
          as [ls Hls].
        exists (cur :: ls). cbn [app] in Hls. by rewrite Hls.
  - destruct (IH (length s) ltac:(simpl in Hn; lia) (cur ++ [c]) s eq_refl) as [ls Hls].
    exists ls. done.
Qed.

Lemma last_line_of_response (data : bytes) (l : str) :
  ascii_bytes l → one_line l → nonblank l = true →
  ∃ ls, List.filter nonblank (splitlines (decode_ignore (data ++ LF :: l))) = ls ++ [l].
Proof.
  intros Hascii Hl Hnb.
  rewrite decode_ignore_ascii_suffix.
  2:{ constructor; [done|apply Hascii]. }
  assert (l ≠ []) as Hne by (by intros ->).
  destruct (splitlines_from_last_line [] (decode_ignore data) l Hl Hne) as [ls Hls].
  unfold splitlines. rewrite Hls, List.filter_app. simpl. rewrite Hnb.
  by eexists.
Qed.

(** The three cases of [parse_response], by the lines of the response that
    are not blank. *)
Lemma parse_response_cases (data : bytes) :
  let lines := List.filter nonblank (splitlines (decode_ignore data)) in
  (lines = [] → parse_response data = ([], no_response))
  ∧ (∀ entries l, lines = entries ++ [l] →
       parse_response data
       = if startswith (lit "error id=") l
         then (records_of entries, _parse_entry l)
         else (records_of (entries ++ [l]), no_error_line)).
Proof.
  cbv zeta. unfold parse_response. split.
  - by intros ->.
  - intros entries l ->. rewrite last_last, removelast_last.
    destruct (entries ++ [l]) eqn:E; [by destruct entries|].
    by destruct (startswith _ l).
Qed.

Lemma response_status (data : bytes) (l : str) :
  ascii_bytes l → one_line l → nonblank l = true →
  (parse_response (data ++ LF :: l)).2
  = if startswith (lit "error id=") l then _parse_entry l else no_error_line.
Proof.
  intros Hascii Hl Hnb.
  destruct (last_line_of_response data l Hascii Hl Hnb) as [ls Hls].
  destruct (parse_response_cases (data ++ LF :: l)) as [_ H].
  rewrite (H ls l Hls). by destruct (startswith _ l).
Qed.

Lemma failed_iff (err : entry) : failed err = false ↔ err !! lit "id" = Some (lit "0").
Proof.
  unfold failed. rewrite negb_false_iff. apply bool_decide_eq_true.
Qed.

Lemma parse_token_other (d : entry) (p k : str) :
  (0x3D ∈ p → key_of p ≠ k) → parse_token d p !! k = d !! k.
Proof.
  intros Hp. unfold parse_token.
  destruct (contains (lit "=") p) eqn:Hc; [|done].
  apply (contains_char 0x3D) in Hc. specialize (Hp Hc). unfold key_of in Hp.
  destruct (split_once 0x3D p) as [k' v]. simpl in Hp.
  by rewrite lookup_insert_ne.
Qed.

Lemma parse_parts_other (d : entry) (parts : list str) (k : str) :
  (∀ p, p ∈ parts → 0x3D ∈ p → key_of p ≠ k) →
  foldl parse_token d parts !! k = d !! k.
Proof.
  revert d. induction parts as [|p parts IH]; intros d Hparts; [done|].
  simpl. rewrite IH.
  - apply parse_token_other, Hparts. left.
  - intros p' Hin. apply Hparts. by right.
Qed.

(** The value of a key is that of the last part with this key. *)
Lemma parse_parts_last_wins (d : entry) (before after : list str) (k v : str) :
  0x3D ∉ k →
  (∀ p, p ∈ after → 0x3D ∈ p → key_of p ≠ k) →
  foldl parse_token d (before ++ (k ++ 0x3D :: v) :: after) !! k
  = Some (_unescape v).
Proof.
  intros Hk Hafter. rewrite foldl_app. simpl.
  rewrite parse_parts_other by done.
  rewrite parse_token_first_equals by done. apply lookup_insert_eq.
Qed.

(** ** The exclusion set *)

Lemma cid_to_name_of_snoc (channels : list entry) (ch : entry) :
  cid_to_name_of (channels ++ [ch])
  = <[ch !! lit "cid" := name_of_channel ch]> (cid_to_name_of channels).
Proof. unfold cid_to_name_of. by rewrite foldl_app. Qed.

(** The name recorded for a channel id is the name of the last record of
    the list with that id. *)
Lemma cid_to_name_of_lookup (channels : list entry) (k : option str) (n : str) :
  cid_to_name_of channels !! k = Some n
  ↔ ∃ before ch after,
      channels = before ++ ch :: after
      ∧ ch !! lit "cid" = k ∧ name_of_channel ch = n
      ∧ ∀ ch', ch' ∈ after → ch' !! lit "cid" ≠ k.
Proof.
  induction channels as [|ch channels IH] using rev_ind.
  - split; [done|]. intros (before & ch & after & H & _). by destruct before.
  - rewrite cid_to_name_of_snoc.
    destruct (decide (ch !! lit "cid" = k)) as [Hk|Hk].
    + rewrite Hk, lookup_insert_eq. split.
      * intros [= <-]. exists channels, ch, []. repeat split; [done|].
        intros ch' Hin. by apply elem_of_nil in Hin.
      * intros (before & ch0 & after & Heq & Hk0 & Hn & Hafter).
        destruct after as [|x after _] using rev_ind.
        -- apply app_inj_tail in Heq as [_ <-]. by rewrite Hn.
        -- rewrite app_comm_cons, app_assoc in Heq.
           apply app_inj_tail in Heq as [_ <-].
           exfalso. apply (Hafter ch); [|done]. set_solver.
    + rewrite lookup_insert_ne by done. rewrite IH. split.
      * intros (before & ch0 & after & -> & Hk0 & Hn & Hafter).
        exists before, ch0, (after ++ [ch]). rewrite <- app_assoc.
        repeat split; [done..|].
        intros ch' [Hin|Hin%list_elem_of_singleton]%elem_of_app; [by apply Hafter|].
        by subst.
      * intros (before & ch0 & after & Heq & Hk0 & Hn & Hafter).
        destruct after as [|x after _] using rev_ind.
        -- apply app_inj_tail in Heq as [_ <-]. done.
        -- rewrite app_comm_cons, app_assoc in Heq.
           apply app_inj_tail in Heq as [-> <-].
           exists before, ch0, after. repeat split; [done..|].
           intros ch' Hin. apply Hafter. set_solver.
Qed.

Lemma add_matching_elem (ex : str) (items : list (option str * str))
    (excluded : gset str) (x : str) :
  x ∈ add_matching ex excluded items
  ↔ x ∈ excluded ∨ ∃ k, (k, ex) ∈ items ∧ x = str_of_get k.
Proof.
  unfold add_matching. revert excluded.
  induction items as [|[k v] items IH]; intros excluded; simpl.
  - split; [by left|]. intros [? | (k & Hin & _)]; [done|]. by apply elem_of_nil in Hin.
  - rewrite IH. case_bool_decide as Hv; simpl in Hv.
    + subst v. rewrite elem_of_union, elem_of_singleton. split.
      * intros [[? | ->]|(k' & Hin & ->)]; [by left| |].
        -- right. exists k. split; [left|done].
        -- right. exists k'. split; [by right|done].
      * intros [? | (k' & Hin & ->)]; [by left; left|].
        apply elem_of_cons in Hin as [[= -> ]|Hin]; [left; by right|].
        right. by exists k'.
    + split.
      * intros [? | (k' & Hin & ->)]; [by left|]. right. exists k'. split; [by right|done].
      * intros [? | (k' & Hin & ->)]; [by left|].
        apply elem_of_cons in Hin as [[= -> <-]|Hin]; [done|].
        right. by exists k'.
Qed.

Lemma exclude_token_elem (m : gmap (option str) str) (excluded : gset str)
    (ex x : str) :
  x ∈ exclude_token m excluded ex
  ↔ x ∈ excluded
    ∨ (∃ k, m !! k = Some ex ∧ x = str_of_get k)
    ∨ ((∀ k, m !! k ≠ Some ex) ∧ x = ex).
Proof.
  unfold exclude_token. case_bool_decide as Hin.
  - rewrite add_matching_elem.
    apply list_elem_of_fmap in Hin as ([k v] & -> & Hkv%elem_of_map_to_list).
    simpl in *. split.
    + intros [? | (k' & Hk'%elem_of_map_to_list & ->)]; [by left|].
      right; left. by exists k'.
    + intros [? | [(k' & Hk' & ->)|[Hno _]]]; [by left| |by destruct (Hno k)].
      right. exists k'. by rewrite elem_of_map_to_list.
  - rewrite elem_of_union, elem_of_singleton.
    assert (∀ k, m !! k ≠ Some ex) as Hno.
    { intros k Hk. apply Hin, list_elem_of_fmap. exists (k, ex).
      split; [done|]. by apply elem_of_map_to_list. }
    split.
    + intros [? | ->]; [by left|]. by right; right.
    + intros [? | [(k & Hk & _)|[_ ->]]]; [by left|by destruct (Hno k)|by right].
Qed.

Lemma excluded_from_elem (m : gmap (option str) str) (tokens : list str)
    (excluded : gset str) (x : str) :
  x ∈ foldl (exclude_token m) excluded tokens
  ↔ x ∈ excluded
    ∨ ∃ ex, ex ∈ tokens
        ∧ ((∃ k, m !! k = Some ex ∧ x = str_of_get k)
           ∨ ((∀ k, m !! k ≠ Some ex) ∧ x = ex)).
Proof.
  revert excluded. induction tokens as [|ex tokens IH]; intros excluded; simpl.
  - split; [by left|]. intros [? | (ex & Hin & _)]; [done|]. by apply elem_of_nil in Hin.
  - rewrite IH, exclude_token_elem. split.
    + intros [[? | H]|(ex' & Hin & H)]; [by left| |].
      * right. exists ex. split; [left|done].
      * right. exists ex'. split; [by right|done].
    + intros [? | (ex' & Hin & H)]; [by left; left|].
      apply elem_of_cons in Hin as [->|Hin]; [left; by right|].
      right. by exists ex'.
Qed.

Lemma excluded_cids_of_elem (tokens : list str) (channels : list entry) (x : str) :
  x ∈ excluded_cids_of tokens channels
  ↔ ∃ ex, ex ∈ tokens
      ∧ ((∃ k, cid_to_name_of channels !! k = Some ex ∧ x = str_of_get k)
         ∨ ((∀ k, cid_to_name_of channels !! k ≠ Some ex) ∧ x = ex)).
Proof.
  unfold excluded_cids_of. rewrite excluded_from_elem. set_solver.
Qed.

(** A token that is the name of a record whose id no later record has is
    resolved to this id. *)
Lemma named_channel_excluded (tokens : list str) (channels : list entry)
    (ch : entry) :
  NoDup (map (λ c : entry, c !! lit "cid") channels) →
  ch ∈ channels → name_of_channel ch ∈ tokens →
  str_of_get (ch !! lit "cid") ∈ excluded_cids_of tokens channels.
Proof.
  intros Hnodup Hch Htok. apply excluded_cids_of_elem.
  exists (name_of_channel ch). split; [done|]. left.
  exists (ch !! lit "cid"). split; [|done].
  apply cid_to_name_of_lookup.
  apply list_elem_of_split in Hch as (before & after & ->).
  exists before, ch, after. repeat split; [done..|].
  intros ch' Hin Heq.
  rewrite map_app in Hnodup. apply NoDup_app in Hnodup as (_ & _ & Hnodup).
  simpl in Hnodup. apply NoDup_cons in Hnodup as [Hnot _].
  apply Hnot. rewrite <- Heq. apply list_elem_of_fmap. by exists ch'.
Qed.

(** A token that is the name of no record is excluded itself, and resolves
    to nothing else. *)
Lemma unnamed_token_excluded (channels : list entry) (ex x : str) :
  (∀ ch, ch ∈ channels → name_of_channel ch ≠ ex) →
  x ∈ excluded_cids_of [ex] channels ↔ x = ex.
Proof.
  intros Hno. rewrite excluded_cids_of_elem.
  assert (∀ k, cid_to_name_of channels !! k ≠ Some ex) as Hnone.
  { intros k (before & ch & after & -> & _ & Hn & _)%cid_to_name_of_lookup.
    apply (Hno ch); [|done]. apply elem_of_app. right. left. }
  split.
  - intros (ex' & ->%list_elem_of_singleton & [(k & Hk & _)|[_ ->]]); [|done].
    by destruct (Hnone k).
  - intros ->. exists ex. split; [by apply list_elem_of_singleton|]. by right.
Qed.

(** ** Runs *)

Lemma bind_run {A B} (m : M A) (f : A → M B) (w : world) :
  (m ≫= f) w = match m w with
               | (Returns a, w') => f a w'
               | (Raises e, w') => (Raises e, w')
               end.
Proof. reflexivity. Qed.

Lemma ret_run {A} (a : A) (w : world) : (mret a : M A) w = (Returns a, w).
Proof. reflexivity. Qed.

Lemma bind_assoc_run {A B C} (m : M A) (f : A → M B) (g : B → M C) (w : world) :
  ((m ≫= f) ≫= g) w = (m ≫= (λ a, f a ≫= g)) w.
Proof. rewrite !bind_run. by destruct (m w) as [[a|e] w1]. Qed.

Lemma ret_bind_run {A B} (a : A) (f : A → M B) (w : world) :
  (mret a ≫= f) w = f a w.
Proof. reflexivity. Qed.

(** One statement of a run [H : (m ≫= f) w = ...]: the cases of what [m]
    does. *)
Ltac run_step H :=
  first
  [ rewrite bind_assoc_run in H
  | rewrite ret_bind_run in H
  | match type of H with
    | ((if ?b then _ else _) ≫= _) _ = _ =>
        let E := fresh "Hif" in destruct b eqn:E
    | (let '(_, _) := ?p in _) _ = _ => destruct p
    | (if ?b then _ else _) _ = _ =>
        let E := fresh "Hif" in destruct b eqn:E
    end
  | rewrite bind_run in H;
    match type of H with
    | match ?m ?w with _ => _ end = _ =>
        let E := fresh "Hrun" in
        destruct (m w) as [[?|?] ?] eqn:E; [|try discriminate H]
    end ];
  cbv beta iota in H.

Lemma ret_inv {A} (a b : A) (w w' : world) :
  (mret a : M A) w = (Returns b, w') → b = a ∧ w' = w.
Proof. intros H. injection H as <- <-. done. Qed.

Ltac run_done :=
  repeat match goal with
  | H : (let '(_, _) := ?p in _) _ = _ |- _ => destruct p; cbv beta iota in H
  | H : mret _ _ = (Returns _, _) |- _ => apply ret_inv in H as [? ?]
  end; simplify_eq.

Lemma tcp_lists_success cfg exclude query_type show_user_list info name max w r w' :
  tcp_lists cfg exclude query_type show_user_list info name max w
    = (Returns (Success r), w') →
  ∃ clients channels e1 e2 w1 w2,
    _send_and_recv (lit "clientlist") w = (Returns (clients, e1), w1)
    ∧ _send_and_recv (lit "channellist") w1 = (Returns (channels, e2), w2)
    ∧ server_name r = name ∧ max_clients r = max
    ∧ shaped cfg show_user_list
        (online_users_of clients (excluded_cids_of exclude channels)) r.
Proof.
  intros H. unfold tcp_lists, tcp_result in H.
  do 4 run_step H.
  run_step H; repeat run_step H; run_done.
  all: do 6 eexists; (split; [reflexivity|]); (split; [eassumption|]).
  all: split; [by destruct (show_user_list || show_details cfg)|].
  all: split; [by destruct (show_user_list || show_details cfg)|].
  all: eexists; repeat split; reflexivity.
Qed.

Lemma try_except_run {A} (body : M A) (handler : exn → M A) (w : world) :
  try_except body handler w = match body w with
                              | (Returns a, w') => (Returns a, w')
                              | (Raises e, w') => handler e w'
                              end.
Proof. reflexivity. Qed.

Lemma py_str_run (n : Z) (w : world) :
  py_str n w = match str_of_int (interp w) n with
               | Some s => (Returns s, w)
               | None => (Raises (ValueError []), w)
               end.
Proof. unfold py_str. rewrite bind_run. simpl. by destruct (str_of_int _ _). Qed.

Lemma py_int_run (s : str) (w : world) :
  py_int s w = match int_of_str (interp w) s with
               | Some z => (Returns z, w)
               | None => (Raises (ValueError s), w)
               end.
Proof. unfold py_int. rewrite bind_run. simpl. by destruct (int_of_str _ _). Qed.

Lemma str_of_tokens_world (l : list token) (w : world) :
  ∃ r, str_of_tokens l w = (r, w).
Proof.
  induction l as [|x l [r IH]]; simpl; [by eexists|].
  rewrite bind_run.
  assert (∃ r, str_of_token x w = (r, w)) as [[s|e] ->].
  { destruct x; simpl; [by eexists|]. rewrite py_str_run.
    destruct (str_of_int _ _); by eexists. }
  - rewrite bind_run, IH. destruct r; by eexists.
  - by eexists.
Qed.

(** The tokens are normalized without touching the world, and always. *)
Lemma normalized_tokens_run (l : list token) (w : world) :
  ∃ exclude, normalized_tokens l w = (Returns exclude, w).
Proof.
  unfold normalized_tokens. rewrite try_except_run.
  destruct (str_of_tokens_world l w) as [[ss|e] ->]; by eexists.
Qed.

Lemma tcp_query_run cfg exclude query_type show_user_list w :
  tcp_query cfg exclude query_type show_user_list w
  = try_except (tcp_session cfg exclude query_type show_user_list) fallback_failed w.
Proof. reflexivity. Qed.

Lemma tcp_session_greeted cfg exclude query_type show_user_list w :
  connecting w = None →
  tcp_session cfg exclude query_type show_user_list w
  = tcp_login cfg exclude query_type show_user_list (greeted cfg w).
Proof.
  intros Hc. unfold tcp_session, greeted. rewrite bind_run.
  unfold sock_connect at 1. cbv zeta.
  change (connecting (record_event ?e w)) with (connecting w). rewrite Hc.
  rewrite bind_run. unfold ignoring_errors. rewrite try_except_run, bind_run.
  unfold sock_recv.
  set (w1 := set_sock_open true _).
  by destruct (recvs w1) as [|[chunk|e] rest].
Qed.

Lemma query_reaches_login cfg exclude query_type show_user_list w0 w1 :
  reaches_login cfg exclude query_type show_user_list w0 w1 →
  _perform_teamspeak_query cfg query_type show_user_list w0
  = try_except (tcp_login cfg exclude query_type show_user_list) fallback_failed w1.
Proof.
  intros (Hcred & Hex & e & w & Hts3 & Hconn & ->).
  unfold _perform_teamspeak_query. rewrite bind_run, Hex.
  apply orb_true_iff in Hcred.
  assert (negb (truthy (ts_api_key cfg)) && negb (truthy (ts_password cfg)) = false) as ->.
  { destruct Hcred as [-> | ->]; [done|]. apply andb_false_r. }
  rewrite try_except_run, Hts3, tcp_query_run, !try_except_run.
  by rewrite tcp_session_greeted.
Qed.

Lemma query_reaches_use cfg exclude query_type show_user_list w0 w2 :
  reaches_use cfg exclude query_type show_user_list w0 w2 →
  _perform_teamspeak_query cfg query_type show_user_list w0
  = try_except (tcp_use cfg exclude query_type show_user_list) fallback_failed w2.
Proof.
  intros (w1 & parsed & err & H1 & Hlogin & Hok).
  rewrite (query_reaches_login _ _ _ _ _ _ H1), !try_except_run.
  unfold tcp_login. by rewrite bind_run, Hlogin, Hok.
Qed.

Lemma query_reaches_serverinfo cfg exclude query_type show_user_list w0 w3 :
  reaches_serverinfo cfg exclude query_type show_user_list w0 w3 →
  _perform_teamspeak_query cfg query_type show_user_list w0
  = try_except (tcp_serverinfo cfg exclude query_type show_user_list)
      fallback_failed w3.
Proof.
  intros (w2 & sid & parsed & err & H2 & Hsid & Huse & Hok).
  rewrite (query_reaches_use _ _ _ _ _ _ H2), !try_except_run.
  unfold tcp_use. rewrite bind_run, py_str_run, Hsid.
  by rewrite bind_run, Huse, Hok.
Qed.

Lemma close_and_fail_run (error : query_error) (w : world) :
  close_and_fail error w = (Returns (Failure error), closed w).
Proof. reflexivity. Qed.

(** No exception leaves the query. *)
Lemma query_returns cfg query_type show_user_list w :
  ∃ a w', _perform_teamspeak_query cfg query_type show_user_list w = (Returns a, w').
Proof.
  destruct (normalized_tokens_run (exclude_channels cfg) w) as [exclude Hex].
  unfold _perform_teamspeak_query. rewrite bind_run, Hex.
  destruct (negb _ && negb _); [by eexists _, _|].
  rewrite try_except_run.
  destruct (ts3_query _ _ _ _ w) as [[a|e] w1]; [by eexists _, _|].
  rewrite tcp_query_run, try_except_run.
  destruct (tcp_session _ _ _ _ w1) as [[a|e'] w2]; by eexists _, _.
Qed.

Lemma filter_bool_decide {A} (P : A → Prop) `{!∀ x, Decision (P x)}
    (f : A → bool) (l : list A) :
  (∀ x, f x = bool_decide (P x)) → List.filter f l = filter P l.
Proof.
  intros Hf. induction l as [|x l IH]; [done|].
  simpl. rewrite filter_cons, Hf, IH. by case_bool_decide; case_decide.
Qed.

Lemma online_users_of_filter (clients : list entry) (excluded : gset str) :
  online_users_of clients excluded
  = filter (λ c : entry, c !! lit "client_type" = Some (lit "0")
                         ∧ str_of_get (c !! lit "cid") ∉ excluded) clients.
Proof.
  apply filter_bool_decide. intros c.
  rewrite <- bool_decide_not, <- bool_decide_and. done.
Qed.

Lemma shaped_count cfg show_user_list users r :
  shaped cfg show_user_list users r → online_count r = len users.
Proof. intros (r0 & H & _ & _ & ->). by destruct (_ || _). Qed.

Lemma shaped_user_list cfg show_user_list users r names :
  shaped cfg show_user_list users r → online_users r = Some names →
  names = map (λ u : entry, default (lit "未知") (u !! lit "client_nickname"))
            (take 10 users)
  ∧ more_users r = if (10 <? len users)%Z then Some (len users - 10)%Z else None.
Proof.
  intros (r0 & Hc & Hu & Hm & ->). destruct (_ || _); simpl.
  - intros [= <-]. split; [done|]. by destruct (10 <? len users)%Z.
  - by rewrite Hu.
Qed.

Lemma tcp_login_failed cfg exclude query_type show_user_list w parsed err w' :
  _send_and_recv (login_line cfg) w = (Returns (parsed, err), w') →
  failed err = true →
  tcp_login cfg exclude query_type show_user_list w
  = (Returns (Failure (LoginFailed (message_of err))), closed w').
Proof. intros Hrun Hf. unfold tcp_login. by rewrite bind_run, Hrun, Hf. Qed.

Lemma tcp_use_failed cfg exclude query_type show_user_list w sid parsed err w' :
  str_of_int (interp w) (ts_server_id cfg) = Some sid →
  _send_and_recv (lit "use sid=" ++ sid) w = (Returns (parsed, err), w') →
  failed err = true →
  tcp_use cfg exclude query_type show_user_list w
  = (Returns (Failure (UseFailed (message_of err))), closed w').
Proof.
  intros Hsid Hrun Hf. unfold tcp_use.
  by rewrite bind_run, py_str_run, Hsid, bind_run, Hrun, Hf.
Qed.

Lemma tcp_serverinfo_failed cfg exclude query_type show_user_list w parsed err w' :
  _send_and_recv (lit "serverinfo") w = (Returns (parsed, err), w') →
  failed err = true →
  tcp_serverinfo cfg exclude query_type show_user_list w
  = (Returns (Failure (ServerinfoFailed (message_of err))), closed w').
Proof. intros Hrun Hf. unfold tcp_serverinfo. by rewrite bind_run, Hrun, Hf. Qed.

(** The two lists are fetched whatever their statuses are. *)
Lemma tcp_lists_statuses cfg exclude query_type show_user_list info name max
    w clients e1 w1 channels e2 w2 :
  _send_and_recv (lit "clientlist") w = (Returns (clients, e1), w1) →
  _send_and_recv (lit "channellist") w1 = (Returns (channels, e2), w2) →
  tcp_lists cfg exclude query_type show_user_list info name max w
  = tcp_result cfg exclude query_type show_user_list info name max
      clients channels w2.
Proof. intros H1 H2. unfold tcp_lists. by rewrite bind_run, H1, bind_run, H2. Qed.

Lemma try_except_returns {A} (body : M A) (handler : exn → M A) w a w' :
  body w = (Returns a, w') → try_except body handler w = (Returns a, w').
Proof. intros H. by rewrite try_except_run, H. Qed.

Lemma tcp_serverinfo_ok cfg exclude query_type show_user_list w parsed err w' :
  _send_and_recv (lit "serverinfo") w = (Returns (parsed, err), w') →
  failed err = false →
  let info := match parsed with e :: _ => e | [] => ∅ end in
  tcp_serverinfo cfg exclude query_type show_user_list w
  = match int_of_str (interp w') (maxclients_text info) with
    | Some max =>
        tcp_lists cfg exclude query_type show_user_list info (server_name_of info)
          max w'
    | None => (Raises (ValueError (maxclients_text info)), w')
    end.
Proof.
  intros Hrun Hok. cbv zeta. unfold tcp_serverinfo.
  rewrite bind_run, Hrun, Hok, bind_run, py_int_run.
  by destruct (int_of_str _ _).
Qed.

Lemma try_except_success (body : M answer) w r w' :
  try_except body fallback_failed w = (Returns (Success r), w') →
  body w = (Returns (Success r), w').
Proof.
  rewrite try_except_run. destruct (body w) as [[a|e] w1]; [done|].
  unfold fallback_failed. intros [= ].
Qed.

Lemma int_of_zero (ip : interpreter) : int_of_str ip (lit "0") = Some 0%Z.
Proof. reflexivity. Qed.

(** The package path leaves no connection open. *)
Lemma ts3_query_closes cfg exclude query_type show_user_list w r w' :
  ts3_query cfg exclude query_type show_user_list w = (r, w') →
  ts3_open w = false → ts3_open w' = false.
Proof.
  intros H Hopen. unfold ts3_query in H. rewrite bind_run in H.
  unfold import_ts3 at 1 in H. destruct (ts3 w) as [pkg|] eqn:Hpkg.
  2:{ by injection H as _ <-. }
  rewrite bind_run in H. unfold ts3_connect at 1 in H. rewrite bind_run in H.
  unfold ts3_call at 1 in H. rewrite Hpkg in H.
  destruct (of_option (ts3_connection pkg)) as [[]|e].
  2:{ by injection H as _ <-. }
  cbv beta iota in H. unfold modify at 1 in H. cbv beta iota in H.
  unfold try_finally in H.
  destruct (ts3_session _ _ _ _ _) as [res w1].
  injection H as _ <-.
  unfold ignoring_errors. rewrite try_except_run. unfold ts3_close.
  cbv zeta. by destruct (ts3_closes _) as [|[e|] rest].
Qed.

(** The fallback closes its socket before it returns, when it gets to a
    [return] of its [try]. *)
Lemma tcp_session_returns_closed cfg exclude query_type show_user_list w a w' :
  tcp_session cfg exclude query_type show_user_list w = (Returns a, w') →
  sock_open w' = false.
Proof.
  intros H.
  unfold tcp_session, tcp_login, tcp_use, tcp_serverinfo, tcp_lists, tcp_result,
    close_and_fail in H.
  repeat run_step H; run_done.
  all: match goal with
       | Hc : sock_close _ = (Returns _, ?w) |- sock_open ?w = false =>
           unfold sock_close in Hc; by injection Hc as _ <-
       end.
Qed.

(** ** What a run does to the world *)

Lemma recv_until_status_world (w : world) r w' :
  recv_until_status w = (r, w') →
  trace w' = trace w ∧ sock_open w' = sock_open w ∧ interp w' = interp w
  ∧ sends w' = sends w.
Proof.
  unfold recv_until_status. destruct (recv_loop [] (recvs w)) as [r0 rest].
  by intros [= <- <-].
Qed.

Lemma sock_sendall_world (data : bytes) (w : world) r w' :
  sock_sendall data w = (r, w') →
  trace w' = SockSend data :: trace w ∧ sock_open w' = sock_open w
  ∧ interp w' = interp w ∧ recvs w' = recvs w.
Proof.
  unfold sock_sendall. cbv zeta.
  change (sends (record_event ?e w)) with (sends w).
  destruct (sends w) as [|[e|] rest]; by intros [= <- <-].
Qed.

(** What [_send_and_recv] does to the world: it sends the command line and
    nothing else, and leaves the socket as open as it was. When the command
    has no UTF-8 encoding nothing is sent. *)
Lemma send_and_recv_world (cmd : str) (w : world) r w' :
  _send_and_recv cmd w = (r, w') →
  sock_open w' = sock_open w ∧ interp w' = interp w
  ∧ match encode (cmd ++ [LF]) with
    | Some payload => trace w' = SockSend payload :: trace w
    | None => trace w' = trace w ∧ r = Raises UnicodeEncodeError
    end.
Proof.
  unfold _send_and_recv. rewrite bind_run.
  destruct (encode (cmd ++ [LF])) as [payload|]; simpl.
  2:{ by intros [= <- <-]. }
  rewrite bind_run.
  destruct (sock_sendall payload w) as [[[]|e] w1] eqn:Hsend;
    apply sock_sendall_world in Hsend as (Ht & Ho & Hi & _).
  2:{ by intros [= <- <-]. }
  rewrite bind_run.
  destruct (recv_until_status w1) as [[data|e] w2] eqn:Hrecv;
    apply recv_until_status_world in Hrecv as (Ht2 & Ho2 & Hi2 & _);
    intros [= <- <-]; rewrite Ht2, Ho2, Hi2; done.
Qed.

Lemma greeting_world (w : world) r w' :
  ignoring_errors (_ ← sock_recv; mret tt) w = (r, w') →
  r = Returns tt ∧ trace w' = trace w ∧ sock_open w' = sock_open w
  ∧ interp w' = interp w.
Proof.
  unfold ignoring_errors. rewrite try_except_run, bind_run. unfold sock_recv.
  destruct (recvs w) as [|[chunk|e] rest]; by intros [= <- <-].
Qed.

Lemma quit_world (w : world) r w' :
  ignoring_errors (_ ← _send_and_recv (lit "quit"); mret tt) w = (r, w') →
  r = Returns tt ∧ trace w' = SockSend (blit "quit" ++ [LF]) :: trace w
  ∧ sock_open w' = sock_open w ∧ interp w' = interp w.
Proof.
  unfold ignoring_errors. rewrite try_except_run, bind_run.
  destruct (_send_and_recv (lit "quit") w) as [[a|e] w1] eqn:Hrun;
    apply send_and_recv_world in Hrun as (Ho & Hi & Ht);
    change (encode (lit "quit" ++ [LF])) with (Some (blit "quit" ++ [LF])) in Ht;
    by intros [= <- <-].
Qed.

Lemma sock_connect_world host port (w : world) r w' :
  sock_connect host port w = (r, w') →
  trace w' = SockConnect host port :: trace w ∧ interp w' = interp w
  ∧ sock_open w' = match r with Returns _ => true | Raises _ => sock_open w end.
Proof.
  unfold sock_connect. cbv zeta.
  change (connecting (record_event ?e w)) with (connecting w).
  destruct (connecting w); by intros [= <- <-].
Qed.

Lemma sock_close_world (w : world) r w' :
  sock_close w = (r, w') →
  r = Returns tt ∧ trace w' = SockClose :: trace w ∧ sock_open w' = false
  ∧ interp w' = interp w.
Proof. unfold sock_close. by intros [= <- <-]. Qed.

Lemma py_int_world s (w : world) r w' : py_int s w = (r, w') → w' = w.
Proof. rewrite py_int_run. destruct (int_of_str _ _); by intros [= <- <-]. Qed.

Lemma py_str_world n (w : world) r w' : py_str n w = (r, w') → w' = w.
Proof. rewrite py_str_run. destruct (str_of_int _ _); by intros [= <- <-]. Qed.

Ltac world_facts :=
  repeat match goal with
  | H : _send_and_recv _ _ = _ |- _ =>
      apply send_and_recv_world in H as (? & ? & ?)
  | H : ignoring_errors (_ ← sock_recv; mret tt) _ = _ |- _ =>
      apply greeting_world in H as (? & ? & ? & ?)
  | H : ignoring_errors (_ ← _send_and_recv (lit "quit"); mret tt) _ = _ |- _ =>
      apply quit_world in H as (? & ? & ? & ?)
  | H : sock_connect _ _ _ = _ |- _ => apply sock_connect_world in H as (? & ? & ?)
  | H : sock_close _ = _ |- _ => apply sock_close_world in H as (? & ? & ? & ?)
  | H : py_int _ _ = _ |- _ => apply py_int_world in H; subst
  | H : py_str _ _ = _ |- _ => apply py_str_world in H; subst
  end.

Lemma tcp_session_conversation cfg exclude query_type show_user_list w r w' :
  tcp_session cfg exclude query_type show_user_list w = (Returns (Success r), w') →
  ∃ login sid use,
    encode (login_line cfg ++ [LF]) = Some login
    ∧ str_of_int (interp w) (ts_server_id cfg) = Some sid
    ∧ encode (lit "use sid=" ++ sid ++ [LF]) = Some use
    ∧ trace w' = conversation cfg login use query_type ++ trace w.
Proof.
  intros H.
  unfold tcp_session, tcp_login, tcp_use, tcp_serverinfo, tcp_lists, tcp_result,
    close_and_fail in H.
  repeat run_step H; run_done.
  all: match goal with
       | Hs : py_str _ ?w1 = (Returns ?sid, _) |- _ =>
           pose proof Hs as Hsid; rewrite py_str_run in Hsid;
           destruct (str_of_int (interp w1) (ts_server_id cfg)) as [sid'|] eqn:Hstr;
             [|discriminate Hsid]; injection Hsid as ->
       end.
  all: world_facts.
  all: repeat match goal with
       | H : match encode ?x with _ => _ end |- _ =>
           first [ progress change (encode x) with (Some (blit "serverinfo" ++ [LF])) in H
                 | progress change (encode x) with (Some (blit "clientlist" ++ [LF])) in H
                 | progress change (encode x) with (Some (blit "channellist" ++ [LF])) in H
                 | let E := fresh "Henc" in destruct (encode x) eqn:E;
                     [|destruct H; discriminate] ];
           cbv beta iota in H
       end.
  all: match goal with
       | Hl : encode (login_line _ ++ [LF]) = Some ?login,
         Hu : encode ((lit "use sid=" ++ ?sid) ++ [LF]) = Some ?use |- _ =>
           exists login, sid, use; rewrite <- (assoc_L (++)) in Hu
       end.
  all: split; [reflexivity|]; split; [congruence|]; split; [assumption|].
  all: unfold conversation;
       repeat match goal with Hb : bool_decide _ = _ |- _ => rewrite Hb; clear Hb end.
  all: repeat match goal with
       | Ht : trace ?x = _ |- context [trace ?x] => rewrite Ht; clear Ht
       end.
  all: reflexivity.
Qed.

(** One statement of a run, whatever its outcome. *)
Ltac run_any H :=
  first
  [ rewrite bind_assoc_run in H
  | rewrite ret_bind_run in H
  | match type of H with
    | ((if ?b then _ else _) ≫= _) _ = _ => let E := fresh "Hif" in destruct b eqn:E
    | (let '(_, _) := ?p in _) _ = _ => destruct p
    | (if ?b then _ else _) _ = _ => let E := fresh "Hif" in destruct b eqn:E
    end
  | rewrite bind_run in H;
    match type of H with
    | match ?m ?w with _ => _ end = _ =>
        let E := fresh "Hrun" in
        destruct (m w) as [[?|?] ?] eqn:E
    end ];
  cbv beta iota in H.

Ltac sends_of t :=
  match t with
  | SockClose :: ?t' => sends_of t'
  | SockConnect _ _ :: _ => constr:(@nil event)
  | ?e :: ?t' => let r := sends_of t' in constr:(e :: r)
  end.

Lemma tcp_session_events cfg exclude query_type show_user_list w res w' :
  tcp_session cfg exclude query_type show_user_list w = (res, w') →
  ∃ sends,
    (trace w' = sends ++ SockConnect (ts_host cfg) (ts_port cfg) :: trace w
     ∨ trace w' = SockClose :: sends ++ SockConnect (ts_host cfg) (ts_port cfg) :: trace w
       ∧ sock_open w' = false)
    ∧ Forall (λ e, is_send e = true) sends ∧ (length sends ≤ 7)%nat.
Proof.
  intros H.
  unfold tcp_session, tcp_login, tcp_use, tcp_serverinfo, tcp_lists, tcp_result,
    close_and_fail in H.
  repeat run_any H.
  all: repeat match goal with
       | H : (let '(_, _) := ?p in _) _ = _ |- _ => destruct p; cbv beta iota in H
       | H : mret _ _ = _ |- _ => rewrite ret_run in H
       end.
  all: injection H as <- <-.
  all: repeat match goal with
       | Hr : (_, _) = (_, _) |- _ => injection Hr as ? ?; subst
       end.
  all: world_facts.
  all: repeat match goal with
       | H : match encode ?x with _ => _ end |- _ =>
           destruct (encode x)
       | H : trace _ = _ ∧ _ |- _ => destruct H as [H ?]
       end.
  all: try discriminate.
  all: match goal with
       | |- ∃ _, (trace ?w' = _ ∨ _) ∧ _ =>
           eassert (trace w' = _) as Hfinal
             by (repeat match goal with
                        | Ht : trace ?x = _ |- context [trace ?x] => rewrite Ht; clear Ht
                        end; reflexivity);
           match type of Hfinal with
           | _ = ?t => let s := sends_of t in exists s
           end
       end.
  all: split; [first [by left | by right]|].
  all: split; [by repeat constructor|simpl; lia].
Qed.

Lemma ts3_call_world {A} (e : event) (f : ts3_package → outcome A) w r w' :
  ts3_call e f w = (r, w') →
  same_socket w w' ∧ ts3 w' = ts3 w
  ∧ match ts3 w with
    | Some pkg => r = f pkg ∧ trace w' = e :: trace w
    | None => r = Raises ImportError ∧ trace w' = trace w
    end.
Proof.
  unfold ts3_call. destruct (ts3 w) as [pkg|] eqn:E; intros [= <- <-]; by repeat split.
Qed.

Lemma ts3_close_world w r w' :
  ts3_close w = (r, w') →
  same_socket w w' ∧ ts3 w' = ts3 w ∧ trace w' = Ts3Close :: trace w.
Proof.
  unfold ts3_close. cbv zeta.
  change (ts3_closes (set_ts3_open false (record_event Ts3Close w)))
    with (ts3_closes w).
  destruct (ts3_closes w) as [|[e|] rest]; intros [= <- <-]; by repeat split.
Qed.

Lemma ts3_finally_world w r w' :
  ignoring_errors ts3_close w = (r, w') →
  r = Returns tt ∧ same_socket w w' ∧ ts3 w' = ts3 w
  ∧ trace w' = Ts3Close :: trace w.
Proof.
  unfold ignoring_errors. rewrite try_except_run.
  destruct (ts3_close w) as [[[]|e] w1] eqn:Hc;
    apply ts3_close_world in Hc as (Hs & Hp & Ht); by intros [= <- <-].
Qed.

Lemma same_socket_trans w1 w2 w3 :
  same_socket w1 w2 → same_socket w2 w3 → same_socket w1 w3.
Proof. unfold same_socket. intros (?&?&?&?&?) (?&?&?&?&?). repeat split; congruence. Qed.

Lemma same_socket_refl w : same_socket w w.
Proof. by repeat split. Qed.

Lemma try_finally_inv {A} (body : M A) (cleanup : M unit) w r w' :
  try_finally body cleanup w = (r, w') →
  ∃ w1 rc, body w = (r, w1) ∧ cleanup w1 = (rc, w').
Proof.
  unfold try_finally. destruct (body w) as [r0 w1] eqn:Hb.
  destruct (cleanup w1) as [rc w2] eqn:Hc. intros [= <- <-]. by eexists _, _.
Qed.

Lemma import_ts3_world w r w' :
  import_ts3 w = (r, w') →
  w' = w ∧ match ts3 w with Some _ => r = Returns tt | None => r = Raises ImportError end.
Proof. unfold import_ts3. destruct (ts3 w); by intros [= <- <-]. Qed.

Lemma set_ts3_open_world b w r w' :
  modify (set_ts3_open b) w = (r, w') →
  same_socket w w' ∧ ts3 w' = ts3 w ∧ trace w' = trace w.
Proof. unfold modify. intros [= <- <-]. by repeat split. Qed.

Lemma or_raise_world {A} e (x : option A) w r w' :
  or_raise e x w = (r, w') → w' = w.
Proof. destruct x; by intros [= <- <-]. Qed.

Ltac ts3_facts :=
  repeat match goal with
  | H : ts3_call _ _ _ = _ |- _ => apply ts3_call_world in H as (? & ? & ?)
  | H : ts3_conn_login _ _ _ = _ |- _ => unfold ts3_conn_login in H
  | H : ts3_conn_use _ _ = _ |- _ => unfold ts3_conn_use in H
  | H : ts3_conn_serverinfo _ = _ |- _ => unfold ts3_conn_serverinfo in H
  | H : ts3_conn_clientlist _ = _ |- _ => unfold ts3_conn_clientlist in H
  | H : ts3_conn_channellist _ = _ |- _ => unfold ts3_conn_channellist in H
  | H : ts3_close _ = _ |- _ => apply ts3_close_world in H as (? & ? & ?)
  | H : ignoring_errors ts3_close _ = _ |- _ =>
      apply ts3_finally_world in H as (? & ? & ? & ?)
  | H : modify (set_ts3_open _) _ = _ |- _ =>
      apply set_ts3_open_world in H as (? & ? & ?)
  | H : import_ts3 _ = _ |- _ => apply import_ts3_world in H as (? & ?)
  | H : py_int _ _ = _ |- _ => apply py_int_world in H; subst
  | H : or_raise _ _ _ = _ |- _ => apply or_raise_world in H; subst
  end.

Ltac ts3_events_of t :=
  match t with
  | trace _ => constr:(@nil event)
  | ?e :: ?t' => let r := ts3_events_of t' in constr:(e :: r)
  end.

Lemma ts3_query_events cfg exclude query_type show_user_list w res w' :
  ts3_query cfg exclude query_type show_user_list w = (res, w') →
  ∃ evs, trace w' = evs ++ trace w
         ∧ Forall (λ e, is_ts3_event e = true) evs ∧ same_socket w w'.
Proof.
  intros H. unfold ts3_query, ts3_connect in H.
  repeat run_any H.
  all: try (apply try_finally_inv in H as (wb & rc & H & Hc); unfold ts3_session in H;
            repeat run_any H).
  all: repeat match goal with
       | H : mret _ _ = _ |- _ => rewrite ret_run in H
       end.
  all: injection H as <- <-.
  all: repeat match goal with
       | Hr : (match ?o with Some _ => _ | None => _ end) _ = _ |- _ => destruct o
       | Hr : mret _ _ = _ |- _ => rewrite ret_run in Hr
       | Hr : (_, _) = (_, _) |- _ => inversion Hr; subst; clear Hr
       end.
  all: ts3_facts.
  all: repeat match goal with
       | H : match ts3 ?w with _ => _ end |- _ => destruct (ts3 w)
       | H : _ = _ ∧ trace _ = _ |- _ => destruct H as [? H]
       end.
  all: try discriminate.
  all: subst.
  all: match goal with
       | |- ∃ _, trace ?w' = _ ∧ _ =>
           eassert (trace w' = _) as Hfinal
             by (repeat match goal with
                        | Ht : trace ?x = _ |- context [trace ?x] => rewrite Ht; clear Ht
                        end; reflexivity);
           match type of Hfinal with
           | _ = ?t => let s := ts3_events_of t in exists s
           end
       end.
  all: split; [assumption|].
  all: split; [by repeat constructor|].
  all: repeat match goal with
       | H : same_socket ?a ?b |- same_socket ?a _ =>
           apply (same_socket_trans _ _ _ H); clear H
       end; apply same_socket_refl.
Qed.

Lemma ts3_query_conversation cfg exclude query_type show_user_list w r w' :
  ts3_query cfg exclude query_type show_user_list w = (Returns (Success r), w') →
  trace w' = package_conversation cfg ++ trace w.
Proof.
  intros H. unfold ts3_query, ts3_connect in H.
  repeat run_step H.
  apply try_finally_inv in H as (wb & rc & H & Hc). unfold ts3_session in H.
  repeat run_step H.
  all: repeat match goal with
       | Hr : (match ?o with Some _ => _ | None => _ end) _ = _ |- _ => destruct o
       | Hr : mret _ _ = _ |- _ => rewrite ret_run in Hr
       | Hr : (_, _) = (_, _) |- _ => inversion Hr; subst; clear Hr
       end.
  all: ts3_facts.
  all: repeat match goal with
       | H : match ts3 ?w with _ => _ end |- _ => destruct (ts3 w)
       | H : _ = _ ∧ trace _ = _ |- _ => destruct H as [? H]
       end.
  all: try discriminate.
  all: subst.
  all: repeat match goal with
       | Ht : trace ?x = _ |- context [trace ?x] => rewrite Ht; clear Ht
       end.
  all: reflexivity.
Qed.

Lemma query_events cfg query_type show_user_list w res w' :
  _perform_teamspeak_query cfg query_type show_user_list w = (res, w') →
  ∃ package socket,
    trace w' = socket ++ package ++ trace w
    ∧ Forall (λ e, is_ts3_event e = true) package
    ∧ (socket = [] ∨ socket_session cfg socket).
Proof.
  intros H. unfold _perform_teamspeak_query in H.
  destruct (normalized_tokens_run (exclude_channels cfg) w) as [exclude Hex].
  rewrite bind_run, Hex in H.
  destruct (negb _ && negb _).
  { injection H as <- <-. exists [], []. split; [done|]. split; [constructor|by left]. }
  rewrite try_except_run in H.
  destruct (ts3_query _ _ _ _ w) as [[a|e] w1] eqn:Hts3;
    apply ts3_query_events in Hts3 as (package & Ht & Hp & _).
  { injection H as <- <-. exists package, []. split; [done|]. split; [done|by left]. }
  unfold tcp_query in H. rewrite try_except_run in H.
  destruct (tcp_session _ _ _ _ w1) as [r2 w2] eqn:Htcp.
  apply tcp_session_events in Htcp as (sends & Hs & Hf & Hl).
  assert (w' = w2) as -> by (destruct r2; by injection H as _ <-).
  exists package. destruct Hs as [Hs|[Hs _]]; rewrite Ht in Hs.
  - exists (sends ++ [SockConnect (ts_host cfg) (ts_port cfg)]).
    split; [by rewrite <- (assoc_L (++))|]. split; [done|]. right.
    exists [], sends. by repeat split; [left| |].
  - exists (SockClose :: sends ++ [SockConnect (ts_host cfg) (ts_port cfg)]).
    split; [by rewrite Hs; simpl; rewrite <- (assoc_L (++))|]. split; [done|]. right.
    exists [SockClose], sends. by repeat split; [right| |].
Qed.

Lemma status_of_result (b : bool) users r0 :
  status (if b then with_user_list users r0 else r0) = status r0.
Proof. by destruct b. Qed.

Lemma tcp_session_status cfg exclude query_type show_user_list w r w' :
  tcp_session cfg exclude query_type show_user_list w = (Returns (Success r), w') →
  is_Some (status r) ↔ query_type = lit "server_status".
Proof.
  intros H.
  unfold tcp_session, tcp_login, tcp_use, tcp_serverinfo, tcp_lists, tcp_result,
    close_and_fail in H.
  repeat run_step H; run_done.
  all: rewrite status_of_result; simpl.
  all: match goal with
       | Hb : bool_decide _ = true |- _ => apply bool_decide_eq_true in Hb
       | Hb : bool_decide _ = false |- _ => apply bool_decide_eq_false in Hb
       end.
  all: split; [intros [? ?]|intros ?]; by eauto.
Qed.

Lemma ts3_query_status cfg exclude query_type show_user_list w r w' :
  ts3_query cfg exclude query_type show_user_list w = (Returns (Success r), w') →
  is_Some (status r) ↔ query_type = lit "server_status".
Proof.
  intros H. unfold ts3_query, ts3_connect in H.
  repeat run_step H.
  apply try_finally_inv in H as (wb & rc & H & Hc). unfold ts3_session in H.
  repeat run_step H; run_done.
  all: rewrite status_of_result; simpl.
  all: match goal with
       | Hb : bool_decide _ = true |- _ => apply bool_decide_eq_true in Hb
       | Hb : bool_decide _ = false |- _ => apply bool_decide_eq_false in Hb
       end.
  all: split; [intros [? ?]|intros ?]; by eauto.
Qed.

Lemma query_status cfg query_type show_user_list w r w' :
  _perform_teamspeak_query cfg query_type show_user_list w
    = (Returns (Success r), w') →
  is_Some (status r) ↔ query_type = lit "server_status".
Proof.
  intros H. unfold _perform_teamspeak_query in H.
  destruct (normalized_tokens_run (exclude_channels cfg) w) as [exclude Hex].
  rewrite bind_run, Hex in H.
  destruct (negb _ && negb _); [discriminate H|].
  rewrite try_except_run in H.
  destruct (ts3_query _ _ _ _ w) as [[a|e] w1] eqn:Hts3.
  { injection H as -> ->. by eapply ts3_query_status. }
  apply try_except_success in H. by eapply tcp_session_status.
Qed.

Lemma contains_startswith (sub s : str) :
  startswith sub s = true → contains sub s = true.
Proof. intros H. destruct s; simpl; by rewrite H. Qed.

Lemma contains_infix (sub s : str) :
  contains sub s = true ↔ ∃ a b, s = a ++ sub ++ b.
Proof.
  split.
  - induction s as [|c s IH]; simpl.
    + rewrite orb_false_r. intros H. apply startswith_prefix in H as [t ->].
      by exists [], t.
    + intros [H|H]%orb_true_iff.
      * apply startswith_prefix in H as [t ->]. by exists [], t.
      * destruct (IH H) as (a & b & ->). by exists (c :: a), b.
  - intros (a & b & ->). induction a as [|c a IH].
    + apply contains_startswith. exact (startswith_app sub b).
    + simpl. by rewrite IH, orb_true_r.
Qed.

Lemma replace_char_filter (c : N) (s : str) :
  replace [c] [] s = filter (λ x, x ≠ c) s.
Proof.
  unfold replace. induction s as [|x s IH]; [done|].
  simpl. rewrite filter_cons. destruct (N.eqb_spec c x) as [->|Hne]; simpl.
  - rewrite IH. by case_decide.
  - rewrite IH. case_decide; [done|]. congruence.
Qed.

Lemma filter_marker :
  filter (λ x, x ≠ CR) (LF :: blit "error id=") = LF :: blit "error id=".
Proof. reflexivity. Qed.

Lemma status_seen_stripped (data : bytes) :
  status_seen data = contains (LF :: blit "error id=") (replace [CR] [] data).
Proof.
  unfold status_seen.
  destruct (contains (LF :: blit "error id=") data) eqn:H; [|done].
  simpl. symmetry. apply contains_infix in H as (a & b & ->).
  rewrite replace_char_filter, !filter_app, filter_marker.
  apply contains_infix. by eexists _, _.
Qed.

Lemma status_seen_infix (data : bytes) :
  status_seen data = true
  ↔ ∃ a b, replace [CR] [] data = a ++ (LF :: blit "error id=") ++ b.
Proof. rewrite status_seen_stripped. apply contains_infix. Qed.

Lemma lone_line_not_seen (text : bytes) :
  LF ∉ text → status_seen (text ++ [LF; CR]) = false.
Proof.
  intros Hlf. apply not_true_is_false. intros (a & b & H)%status_seen_infix.
  rewrite replace_char_filter, filter_app in H.
  change (filter (λ x, x ≠ CR) [LF; CR]) with [LF] in H.
  assert (LF ∉ filter (λ x, x ≠ CR) text) as Hft.
  { intros Hin%list_elem_of_filter. by destruct Hin. }
  apply Hft. apply list_elem_of_lookup. exists (length a).
  assert (length a < length (filter (λ x, x ≠ CR) text))%nat as Hlen.
  { apply (f_equal length) in H. rewrite !length_app in H. simpl in H. lia. }
  rewrite <- (lookup_app_l _ [LF]) by done. rewrite H.
  change ((LF :: blit "error id=") ++ b) with (LF :: (blit "error id=" ++ b)).
  by rewrite list_lookup_middle.
Qed.

Lemma received_app (l1 l2 : list (outcome bytes)) :
  received (l1 ++ l2) = received l1 ++ received l2.
Proof. unfold received. by rewrite omap_app, concat_app. Qed.

Lemma recv_loop_received (script : list (outcome bytes)) (data : bytes) r rest :
  recv_loop data script = (r, rest) →
  ∃ used, script = used ++ rest
          ∧ match r with
            | Returns d => d = data ++ received used
            | Raises e => e ≠ SocketTimeout ∧ last used = Some (Raises e)
            end.
Proof.
  revert data. induction script as [|o script IH]; intros data; simpl.
  { intros [= <- <-]. exists []. split; [done|].
    unfold received. simpl. by rewrite app_nil_r. }
  destruct o as [chunk|e].
  - destruct chunk as [|c chunk]; simpl.
    { intros [= <- <-]. exists [Returns []]. split; [done|].
      unfold received. simpl. by rewrite app_nil_r. }
    destruct (status_seen (data ++ c :: chunk)).
    + intros [= <- <-]. exists [Returns (c :: chunk)].
      split; [done|]. unfold received. simpl. by rewrite app_nil_r.
    + intros H. apply IH in H as (used & -> & H).
      exists (Returns (c :: chunk) :: used). split; [done|].
      destruct r as [d|e].
      * rewrite H. unfold received. simpl. by rewrite <- (assoc_L (++)).
      * destruct H as [Hne Hl]. split; [done|]. rewrite last_cons, Hl. done.
  - destruct e; intros [= <- <-];
      first [ exists [Raises SocketTimeout]; split; [done|];
              unfold received; simpl; by rewrite app_nil_r
            | by eexists [Raises _] ].
Qed.

Lemma send_and_recv_received (cmd : str) (w : world) res w' :
  _send_and_recv cmd w = (Returns res, w') →
  ∃ used, recvs w = used ++ recvs w' ∧ res = parse_response (received used).
Proof.
  unfold _send_and_recv. intros H. do 2 run_step H.
  match goal with Ho : or_raise _ _ _ = _ |- _ =>
    apply or_raise_world in Ho as -> end.
  match goal with Hs : sock_sendall _ _ = _ |- _ =>
    apply sock_sendall_world in Hs as (_ & _ & _ & Hr) end.
  rewrite bind_run in H. unfold recv_until_status at 1 in H.
  destruct (recv_loop [] (recvs _)) as [[d|e] rest] eqn:Hloop; [|discriminate H].
  injection H as <- <-. rewrite Hr in Hloop.
  apply recv_loop_received in Hloop as (used & Hu & ->).
  exists used. split; [exact Hu|reflexivity].
Qed.

Lemma recv_loop_first_marker (chunks : list bytes) (rest : list (outcome bytes))
    (data : bytes) :
  Forall (λ c, c ≠ []) chunks → chunks ≠ [] →
  (∀ k, (0 < k < length chunks)%nat →
        status_seen (data ++ concat (take k chunks)) = false) →
  status_seen (data ++ concat chunks) = true →
  recv_loop data (map Returns chunks ++ rest)
  = (Returns (data ++ concat chunks), rest).
Proof.
  revert data. induction chunks as [|c chunks IH]; intros data Hne Hnil Hbefore Hseen;
    [done|].
  apply Forall_cons in Hne as [Hc Hne].
  destruct c as [|x c]; [done|].
  change (recv_loop data (map Returns ((x :: c) :: chunks) ++ rest))
    with (if status_seen (data ++ x :: c)
          then (Returns (data ++ x :: c), map Returns chunks ++ rest)
          else recv_loop (data ++ x :: c) (map Returns chunks ++ rest)).
  rewrite concat_cons in Hseen |- *.
  destruct chunks as [|c' chunks].
  { simpl in Hseen |- *. rewrite app_nil_r in Hseen |- *. by rewrite Hseen. }
  pose proof (Hbefore 1%nat ltac:(simpl; lia)) as H1.
  simpl take in H1. rewrite concat_cons in H1. simpl concat in H1.
  rewrite app_nil_r in H1. rewrite H1.
  rewrite (assoc_L (++)) in Hseen |- *.
  apply IH; [done|done| |done].
  intros k Hk. specialize (Hbefore (S k) ltac:(simpl in *; lia)).
  simpl take in Hbefore. rewrite concat_cons in Hbefore.
  by rewrite (assoc_L (++)) in Hbefore.
Qed.

Lemma split_from_pieces (sep : N) (s cur p : str) :
  p ∈ split_from sep cur s → sep ∉ cur →
  (sep ∉ p) ∧ ∀ c, c ∈ p → c ∈ cur ++ s.
Proof.
  revert cur. induction s as [|x s IH]; intros cur; simpl.
  - intros ->%list_elem_of_singleton Hcur. split; [done|].
    intros c. by rewrite app_nil_r.
  - destruct (N.eqb_spec x sep) as [->|Hne].
    + intros [->|Hin]%elem_of_cons Hcur.
      * split; [done|]. intros c Hc. apply elem_of_app. by left.
      * destruct (IH [] Hin) as [Hp Hsub]; [by apply not_elem_of_nil|].
        split; [done|]. intros c Hc. apply elem_of_app. right.
        apply elem_of_cons. right. by apply Hsub.
    + intros Hin Hcur. destruct (IH (cur ++ [x]) Hin) as [Hp Hsub].
      { rewrite elem_of_app, list_elem_of_singleton. intros [?|?]; congruence. }
      split; [done|]. intros c Hc. specialize (Hsub c Hc).
      by rewrite <- (assoc_L (++)) in Hsub.
Qed.

Lemma split_pieces (sep : N) (s p : str) :
  p ∈ split sep s → (sep ∉ p) ∧ ∀ c, c ∈ p → c ∈ s.
Proof.
  intros H. apply split_from_pieces in H; [done|]. apply not_elem_of_nil.
Qed.

Lemma lstrip_subset (s : str) (c : N) : c ∈ lstrip s → c ∈ s.
Proof.
  induction s as [|x s IH]; [done|]. simpl. destruct (isspace x); [|done].
  intros H. apply elem_of_cons. right. by apply IH.
Qed.

Lemma elem_of_rev {A} (l : list A) (x : A) : x ∈ rev l ↔ x ∈ l.
Proof. rewrite !list_elem_of_In. symmetry. apply in_rev. Qed.

Lemma strip_subset (s : str) (c : N) : c ∈ strip s → c ∈ s.
Proof.
  unfold strip. rewrite elem_of_rev. intros H%lstrip_subset.
  rewrite elem_of_rev in H. by apply lstrip_subset.
Qed.

Lemma split_once_parts (sep : N) (p : str) :
  sep ∈ p → p = (split_once sep p).1 ++ sep :: (split_once sep p).2
            ∧ sep ∉ (split_once sep p).1.
Proof.
  induction p as [|x p IH]; [by intros ?%elem_of_nil|].
  simpl. destruct (N.eqb_spec x sep) as [->|Hne].
  - intros _. split; [done|]. apply not_elem_of_nil.
  - intros [?|Hin]%elem_of_cons; [congruence|].
    destruct (IH Hin) as [Heq Hk]. destruct (split_once sep p) as [k v].
    simpl in *. split; [by f_equal|].
    intros [?|?]%elem_of_cons; [congruence|done].
Qed.

Lemma parse_token_lookup (d : entry) (p k v : str) :
  parse_token d p !! k = Some v →
  d !! k = Some v
  ∨ (0x3D ∈ p ∧ (split_once 0x3D p).1 = k ∧ v = _unescape (split_once 0x3D p).2).
Proof.
  unfold parse_token. destruct (contains (lit "=") p) eqn:Hc; [|by left].
  apply (contains_char 0x3D) in Hc.
  destruct (split_once 0x3D p) as [k' v'] eqn:Hs. simpl.
  destruct (decide (k' = k)) as [->|Hne].
  - rewrite lookup_insert_eq. intros [= <-]. by right.
  - rewrite lookup_insert_ne by done. by left.
Qed.

Lemma parse_parts_lookup (parts : list str) (d : entry) (k v : str) :
  foldl parse_token d parts !! k = Some v →
  d !! k = Some v
  ∨ ∃ p, p ∈ parts ∧ 0x3D ∈ p ∧ (split_once 0x3D p).1 = k
         ∧ v = _unescape (split_once 0x3D p).2.
Proof.
  revert d. induction parts as [|p parts IH]; intros d; simpl; [by left|].
  intros [H|(q & Hq & H)]%IH.
  - apply parse_token_lookup in H as [H|H]; [by left|].
    right. exists p. split; [by left|done].
  - right. exists q. split; [by right|done].
Qed.

Lemma parse_entry_lookup (line k v : str) :
  _parse_entry line !! k = Some v →
  (0x3D ∉ k) ∧ (0x20 ∉ k)
  ∧ ∃ raw, k ++ 0x3D :: raw ∈ split 0x20 (strip line)
           ∧ (0x20 ∉ raw) ∧ v = _unescape raw.
Proof.
  rewrite parse_entry_parts. intros [H|(p & Hp & Heq & <- & ->)]%parse_parts_lookup.
  { by rewrite lookup_empty in H. }
  apply split_once_parts in Heq as [Heq Hk].
  pose proof (split_pieces _ _ _ Hp) as [Hsp _].
  rewrite Heq in Hsp. rewrite not_elem_of_app, not_elem_of_cons in Hsp.
  destruct Hsp as (Hk2 & _ & Hraw).
  split; [done|]. split; [done|].
  exists (split_once 0x3D p).2. by rewrite <- Heq.
Qed.

Lemma parse_entry_no_equals (line : str) : 0x3D ∉ line → _parse_entry line = ∅.
Proof.
  intros Hline. apply map_empty. intros k.
  destruct (_parse_entry line !! k) as [v|] eqn:H; [|done].
  apply parse_entry_lookup in H as (_ & _ & raw & Hp & _).
  apply split_pieces in Hp as [_ Hsub]. destruct Hline.
  apply strip_subset, Hsub. apply elem_of_app. right. by left.
Qed.

Lemma startswith_length (p s : str) :
  startswith p s = true → (length p ≤ length s)%nat.
Proof. intros [t ->]%startswith_prefix. rewrite length_app. lia. Qed.

Lemma replace_from_length (old new : str) (s : str) (k : nat) :
  (length new ≤ length old)%nat → old ≠ [] → (k ≤ length s)%nat →
  (length (replace_from old new k s) + k ≤ length s)%nat.
Proof.
  intros Hnew Hold. revert k. induction s as [|c s IH]; intros k Hk; simpl in *.
  { lia. }
  destruct k as [|k].
  - destruct (startswith old (c :: s)) eqn:Hst.
    + apply startswith_length in Hst. simpl in Hst.
      destruct old as [|o old]; [done|]. simpl in *.
      rewrite length_app. specialize (IH (length old) ltac:(lia)). lia.
    + simpl. specialize (IH 0%nat ltac:(lia)). lia.
  - specialize (IH k ltac:(lia)). lia.
Qed.

Lemma replace_length (old new s : str) :
  (length new ≤ length old)%nat → old ≠ [] →
  (length (replace old new s) ≤ length s)%nat.
Proof.
  intros Hn Ho. pose proof (replace_from_length old new s 0 Hn Ho ltac:(lia)).
  unfold replace. lia.
Qed.

Lemma unescape_length (s : str) : (length (_unescape s) ≤ length s)%nat.
Proof.
  unfold _unescape.
  repeat (etrans; [apply replace_length; [simpl; lia|done]|]).
  done.
Qed.

Lemma in_range_true (lo hi x : N) : lo ≤ x → x ≤ hi → in_range lo hi x = true.
Proof.
  intros H1 H2. unfold in_range.
  apply andb_true_iff. split; by apply N.leb_le.
Qed.

Lemma in_range_false (lo hi x : N) : x < lo ∨ hi < x → in_range lo hi x = false.
Proof.
  intros H. unfold in_range. apply andb_false_iff.
  destruct H; [left|right]; apply N.leb_gt; lia.
Qed.

Lemma is_continuation_true (x : N) : 0x80 ≤ x → x ≤ 0xBF → is_continuation x = true.
Proof. apply (in_range_true 0x80 0xBF). Qed.

Lemma eqb_false (x y : N) : x ≠ y → N.eqb x y = false.
Proof. apply N.eqb_neq. Qed.

(** The quotients and remainders of a code point by 64, 4096 and 262144. *)
Lemma sextets (c : N) :
  ∃ q1 r1 q2 r2 q3 r3,
    c / 64 = q1 ∧ c mod 64 = r1 ∧ c / 4096 = q2 ∧ (c / 64) mod 64 = r2
    ∧ c / 262144 = q3 ∧ (c / 4096) mod 64 = r3
    ∧ c = q1 * 64 + r1 ∧ r1 < 64 ∧ q1 = q2 * 64 + r2 ∧ r2 < 64
    ∧ q2 = q3 * 64 + r3 ∧ r3 < 64.
Proof.
  exists (c / 64), (c mod 64), (c / 4096), ((c / 64) mod 64), (c / 262144),
    ((c / 4096) mod 64).
  assert (c / 4096 = c / 64 / 64) as H2 by (by rewrite N.Div0.div_div).
  assert (c / 262144 = c / 4096 / 64) as H3 by (by rewrite N.Div0.div_div).
  repeat split; try reflexivity.
  - rewrite (N.div_mod c 64) at 1 by lia. lia.
  - apply N.mod_lt. lia.
  - rewrite H2. rewrite (N.div_mod (c / 64) 64) at 1 by lia. lia.
  - apply N.mod_lt. lia.
  - rewrite H3. rewrite (N.div_mod (c / 4096) 64) at 1 by lia. lia.
  - apply N.mod_lt. lia.
Qed.

Ltac decide_atoms :=
  repeat first
  [ progress cbn [andb orb negb]
  | match goal with
    | |- context [N.ltb ?a ?b] =>
        first [ rewrite (proj2 (N.ltb_lt a b)) by lia
              | rewrite (proj2 (N.ltb_ge a b)) by lia ]
    | |- context [N.eqb ?a ?b] =>
        first [ rewrite (proj2 (N.eqb_eq a b)) by lia
              | rewrite (proj2 (N.eqb_neq a b)) by lia ]
    | |- context [in_range ?lo ?hi ?x] =>
        first [ rewrite (in_range_true lo hi x) by lia
              | rewrite (in_range_false lo hi x) by lia ]
    | |- context [is_continuation ?x] =>
        rewrite (is_continuation_true x) by lia
    end ].

Lemma utf8_sequence_encode (c : N) (bs rest : bytes) :
  encode_char c = Some bs → utf8_sequence (bs ++ rest) = Some (c, length bs).
Proof.
  unfold encode_char.
  destruct (sextets c)
    as (q1 & r1 & q2 & r2 & q3 & r3 & E1 & E2 & E3 & E4 & E5 & E6
        & Hc & Hr1 & Hq1 & Hr2 & Hq2 & Hr3).
  rewrite E4, E6, E1, E2, E3, E5. clear E1 E2 E3 E4 E5 E6.
  destruct (N.ltb_spec c 0x80) as [H1|H1].
  { intros [= <-]. by apply utf8_sequence_ascii. }
  destruct (N.ltb_spec c 0x800) as [H2|H2].
  { intros [= <-]. cbn [app length]. unfold utf8_sequence. decide_atoms.
    do 2 f_equal. lia. }
  destruct (in_range 0xD800 0xDFFF c) eqn:H3; [done|].
  assert (c < 0xD800 ∨ 0xDFFF < c) as H3'.
  { unfold in_range in H3. apply andb_false_iff in H3 as [H3|H3];
      apply N.leb_gt in H3; lia. }
  clear H3.
  destruct (N.ltb_spec c 0x10000) as [H4|H4].
  { intros [= <-]. cbn [app length]. unfold utf8_sequence.
    assert (q2 = 0 ∨ (1 ≤ q2 ∧ q2 ≤ 12) ∨ q2 = 13 ∨ (14 ≤ q2 ∧ q2 ≤ 15))
      as [Hq|[Hq|[Hq|Hq]]] by lia;
      decide_atoms; do 2 f_equal; lia. }
  destruct (N.ltb_spec c 0x110000) as [H5|H5]; [|done].
  intros [= <-]. cbn [app length]. unfold utf8_sequence.
  assert (q3 = 0 ∨ (1 ≤ q3 ∧ q3 ≤ 3) ∨ q3 = 4) as [Hq|[Hq|Hq]] by lia;
    decide_atoms; do 2 f_equal; lia.
Qed.

Lemma encode_char_length (c : N) (bs : bytes) :
  encode_char c = Some bs → ∃ b t, bs = b :: t ∧ (length t ≤ 3)%nat.
Proof.
  unfold encode_char.
  repeat match goal with
         | |- context [if ?b then _ else _] => destruct b
         end; intros [= <-]; eexists _, _; (split; [reflexivity|simpl; lia]).
Qed.

Lemma decode_from_skip (t rest : bytes) :
  decode_from (length t) (t ++ rest) = decode_from 0 rest.
Proof. induction t as [|b t IH]; [by destruct rest|done]. Qed.

Lemma decode_encode_char (c : N) (bs rest : bytes) :
  encode_char c = Some bs → decode_from 0 (bs ++ rest) = c :: decode_from 0 rest.
Proof.
  intros H. pose proof (utf8_sequence_encode c bs rest H) as Hseq.
  apply encode_char_length in H as (b & t & -> & _).
  cbn [app decode_from] in *. rewrite Hseq. cbn [length Nat.pred].
  by rewrite decode_from_skip.
Qed.

Lemma decode_encode (s : str) (data : bytes) :
  encode s = Some data → decode_ignore data = s.
Proof.
  unfold decode_ignore. revert data. induction s as [|c s IH]; intros data; simpl.
  { by intros [= <-]. }
  destruct (encode_char c) as [bs|] eqn:Hc; [|done].
  destruct (encode s) as [bs'|]; [|done].
  intros [= <-]. rewrite (decode_encode_char c bs bs' Hc). f_equal. by apply IH.
Qed.

Lemma scan_digits_acc (u : Decimal.uint) (acc : positive) (d : nat) :
  scan_digits false (N.pos acc) d (digits_of_uint u)
  = Some (N.pos (Pos.of_uint_acc u acc), (d + length (digits_of_uint u))%nat, []).
Proof.
  revert acc d. induction u; intros acc d; simpl;
    [by rewrite Nat.add_0_r|..].
  all: match goal with
       | |- scan_digits false ?v _ _ = Some (N.pos (Pos.of_uint_acc _ ?a), _, _) =>
           replace v with (N.pos a) by lia
       end.
  all: rewrite IHu; do 3 f_equal; lia.
Qed.

Lemma scan_digits_value (u : Decimal.uint) (d : nat) :
  scan_digits false 0 d (digits_of_uint u)
  = Some (Pos.of_uint u, (d + length (digits_of_uint u))%nat, []).
Proof.
  revert d. induction u; intros d; simpl; [by rewrite Nat.add_0_r|..].
  { rewrite IHu. do 3 f_equal. lia. }
  all: match goal with
       | |- scan_digits false _ _ _ = Some (N.pos (Pos.of_uint_acc _ ?a), _, _) =>
           rewrite (scan_digits_acc _ a)
       end.
  all: do 3 f_equal; lia.
Qed.

Lemma to_ascii_decimal_low (ip : interpreter) (s : str) :
  Forall (λ c, c < 127) s → to_ascii_decimal ip s = s.
Proof.
  induction 1 as [|c s Hc _ IH]; [done|]. simpl.
  rewrite (proj2 (N.ltb_lt c 127)) by done. by rewrite IH.
Qed.

Lemma digits_low (u : Decimal.uint) : Forall (λ c, c < 127) (digits_of_uint u).
Proof. induction u; simpl; constructor; (lia || done). Qed.

Lemma int_of_digits (ip : interpreter) (u : Decimal.uint) :
  u ≠ Decimal.Nil →
  exceeds_digit_limit ip (length (digits_of_uint u)) = false →
  int_of_str ip (digits_of_uint u) = Some (Z.of_N (Pos.of_uint u))
  ∧ int_of_str ip (0x2D :: digits_of_uint u) = Some (- Z.of_N (Pos.of_uint u))%Z.
Proof.
  intros Hu Hlim. unfold int_of_str.
  rewrite (to_ascii_decimal_low ip (0x2D :: _))
    by (constructor; [lia|apply digits_low]).
  rewrite to_ascii_decimal_low by apply digits_low.
  change (skip_spaces (0x2D :: digits_of_uint u)) with (0x2D :: digits_of_uint u).
  cbv iota beta.
  pose proof (scan_digits_value u 0) as Hscan.
  destruct u; [done|..]; simpl digits_of_uint in *; simpl skip_spaces; cbv iota beta.
  all: rewrite Hscan; simpl Nat.add in *; simpl length in *; rewrite Hlim; done.
Qed.

Lemma to_uint_not_nil (n : N) : N.to_uint n ≠ Decimal.Nil.
Proof.
  intros H. pose proof (DecimalN.Unsigned.of_to n) as Hn. rewrite H in Hn.
  simpl in Hn. subst n. discriminate H.
Qed.

Lemma int_of_str_of_int (ip : interpreter) (n : Z) (s : str) :
  str_of_int ip n = Some s → int_of_str ip s = Some n.
Proof.
  unfold str_of_int.
  destruct (exceeds_digit_limit ip _) eqn:Hlim; [done|]. intros [= <-].
  destruct (int_of_digits ip (N.to_uint (Z.abs_N n)) (to_uint_not_nil _) Hlim)
    as [Hpos Hneg].
  change (Pos.of_uint ?u) with (N.of_uint u) in Hpos, Hneg.
  rewrite DecimalN.Unsigned.of_to in Hpos, Hneg.
  destruct (Z.ltb_spec n 0).
  - rewrite Hneg. f_equal. lia.
  - rewrite Hpos. f_equal. lia.
Qed.

Lemma digits_length (u : Decimal.uint) :
  length (digits_of_uint u) = Decimal.nb_digits u.
Proof. induction u; simpl; by rewrite ?IHu. Qed.

Lemma of_uint_acc_bounds (u : Decimal.uint) (acc : positive) :
  N.pos acc * 10 ^ N.of_nat (Decimal.nb_digits u) ≤ N.pos (Pos.of_uint_acc u acc)
  ∧ N.pos (Pos.of_uint_acc u acc)
    < (N.pos acc + 1) * 10 ^ N.of_nat (Decimal.nb_digits u).
Proof.
  revert acc. induction u as [|u IHu|u IHu|u IHu|u IHu|u IHu|u IHu|u IHu|u IHu|u IHu|u IHu];
    intros acc; simpl Decimal.nb_digits; simpl Pos.of_uint_acc.
  { simpl. lia. }
  all: rewrite Nat2N.inj_succ, N.pow_succ_r'.
  all: match goal with
       | |- context [Pos.of_uint_acc _ ?a] => destruct (IHu a) as [Hlo Hhi]
       end.
  all: match goal with
       | |- context [10 ^ ?n] => set (P := 10 ^ n) in *
       end.
  all: split; nia.
Qed.

Lemma nzhead_head (d u : Decimal.uint) : Decimal.nzhead d ≠ Decimal.D0 u.
Proof. induction d; simpl; try done. Qed.

Lemma to_uint_head (p : positive) (u : Decimal.uint) :
  Pos.to_uint p ≠ Decimal.D0 u.
Proof.
  intros H.
  pose proof (DecimalPos.Unsigned.to_of (Pos.to_uint p)) as Hn.
  rewrite DecimalPos.Unsigned.of_to in Hn. simpl in Hn. rewrite H in Hn.
  unfold Decimal.unorm in Hn. simpl in Hn.
  destruct (Decimal.nzhead u) eqn:Hz; try discriminate Hn.
  - injection Hn as ->. by apply (DecimalPos.Unsigned.to_uint_nonzero p).
  - eapply nzhead_head. eassumption.
Qed.

Lemma to_uint_bounds (v : N) :
  (1 ≤ Decimal.nb_digits (N.to_uint v))%nat
  ∧ v < 10 ^ N.of_nat (Decimal.nb_digits (N.to_uint v))
  ∧ (v ≠ 0 → 10 ^ N.of_nat (Nat.pred (Decimal.nb_digits (N.to_uint v))) ≤ v).
Proof.
  destruct v as [|p]; [simpl; split; [lia|split; [lia|done]]|].
  simpl N.to_uint.
  pose proof (DecimalPos.Unsigned.of_to p) as Hv.
  pose proof (to_uint_head p) as Hh.
  pose proof (DecimalPos.Unsigned.to_uint_nonnil p) as Hnil.
  destruct (Pos.to_uint p) as [|u|u|u|u|u|u|u|u|u|u]; [done|by destruct (Hh u)|..].
  all: simpl in Hv; injection Hv as Hv.
  all: match type of Hv with
       | Pos.of_uint_acc _ ?a = _ => destruct (of_uint_acc_bounds u a) as [Hlo Hhi]
       end.
  all: rewrite Hv in Hlo, Hhi; simpl Decimal.nb_digits; simpl Nat.pred.
  all: rewrite Nat2N.inj_succ, N.pow_succ_r'.
  all: split; [lia|split; [lia|intros _; lia]].
Qed.

Lemma digits_bound (v : N) (k : nat) :
  v < 10 ^ N.of_nat k → (1 ≤ k)%nat →
  (length (digits_of_uint (N.to_uint v)) ≤ k)%nat.
Proof.
  intros Hv Hk. rewrite digits_length.
  destruct (to_uint_bounds v) as (Hn & _ & Hlo).
  destruct (decide (v = 0)) as [->|Hne]; [simpl; lia|].
  specialize (Hlo Hne).
  assert (10 ^ N.of_nat (Nat.pred (Decimal.nb_digits (N.to_uint v)))
          < 10 ^ N.of_nat k) as Hlt by lia.
  apply N.pow_lt_mono_r_iff in Hlt; lia.
Qed.

Lemma exceeds_digit_limit_mono (ip : interpreter) (d d' : nat) :
  (d' ≤ d)%nat → exceeds_digit_limit ip d = false →
  exceeds_digit_limit ip d' = false.
Proof.
  unfold exceeds_digit_limit. intros Hd H.
  destruct (N.ltb_spec 640 (N.of_nat d')) as [H1|H1]; [|done].
  destruct (N.ltb_spec 0 (max_str_digits ip)) as [H2|H2]; [|done].
  destruct (N.ltb_spec (max_str_digits ip) (N.of_nat d')) as [H3|H3]; [|done].
  rewrite (proj2 (N.ltb_lt 640 (N.of_nat d))) in H by lia.
  rewrite (proj2 (N.ltb_lt (max_str_digits ip) (N.of_nat d))) in H by lia.
  done.
Qed.

Lemma str_of_int_digits (ip : interpreter) (z : Z) (k : nat) :
  Z.abs_N z < 10 ^ N.of_nat k → (1 ≤ k)%nat → exceeds_digit_limit ip k = false →
  is_Some (str_of_int ip z).
Proof.
  intros Hz Hk Hlim. unfold str_of_int.
  rewrite (exceeds_digit_limit_mono ip k _ (digits_bound _ _ Hz Hk) Hlim).
  by eexists.
Qed.

Lemma str_of_int_small (ip : interpreter) (z : Z) :
  (Z.abs z < 10 ^ 640)%Z → is_Some (str_of_int ip z).
Proof.
  intros Hz. apply (str_of_int_digits ip z 640); [|lia|].
  - change (10 ^ N.of_nat 640) with (Z.to_N (10 ^ 640)). lia.
  - unfold exceeds_digit_limit. by rewrite N.ltb_irrefl.
Qed.

Lemma scan_digits_bound (s : str) (b : bool) (acc : N) (d0 : nat) v d rest :
  scan_digits b acc d0 s = Some (v, d, rest) →
  (d0 ≤ d)%nat ∧ v < (acc + 1) * 10 ^ N.of_nat (d - d0).
Proof.
  revert b acc d0. induction s as [|c s IH]; intros b acc d0; simpl.
  { destruct b; [done|]. intros [= <- <- <-]. rewrite Nat.sub_diag. simpl. lia. }
  destruct (is_digit c) eqn:Hc.
  - intros H. apply IH in H as [Hd Hv]. split; [lia|].
    assert (c - 48 ≤ 9) as Hdig.
    { unfold is_digit, in_range in Hc. apply andb_true_iff in Hc as [H1 H2].
      apply N.leb_le in H1, H2. lia. }
    replace (d - d0)%nat with (S (d - S d0)) by lia.
    rewrite Nat2N.inj_succ, N.pow_succ_r'.
    set (P := 10 ^ N.of_nat (d - S d0)) in *. nia.
  - destruct (N.eqb c 95).
    + destruct b; [done|]. apply IH.
    + destruct b; [done|]. intros [= <- <- <-]. rewrite Nat.sub_diag. simpl. lia.
Qed.

Lemma str_of_int_of_str (ip : interpreter) (s : str) (z : Z) :
  int_of_str ip s = Some z → is_Some (str_of_int ip z).
Proof.
  unfold int_of_str.
  destruct (match skip_spaces (to_ascii_decimal ip s) with
            | 0x2B :: s' => (false, s')
            | 0x2D :: s' => (true, s')
            | _ => (false, skip_spaces (to_ascii_decimal ip s))
            end) as [negative t].
  assert (∀ o : option Z,
            match scan_digits false 0 0 t with
            | Some (value, digits, rest) =>
                if exceeds_digit_limit ip digits then None
                else match digits, skip_spaces rest with
                     | S _, [] => Some (if negative then (- Z.of_N value)%Z
                                        else Z.of_N value)
                     | _, _ => None
                     end
            | None => None
            end = Some z → is_Some (str_of_int ip z)) as Hmain.
  { intros _. destruct (scan_digits false 0 0 t) as [[[v d] rest]|] eqn:Hscan; [|done].
    apply scan_digits_bound in Hscan as [_ Hv]. rewrite Nat.sub_0_r in Hv.
    destruct (exceeds_digit_limit ip d) eqn:Hlim; [done|].
    destruct d as [|d]; [done|]. destruct (skip_spaces rest); [|done].
    intros [= <-]. apply (str_of_int_digits ip _ (S d)); [|lia|done].
    destruct negative; lia. }
  destruct t as [|c t]; [by apply (Hmain None)|].
  destruct c as [|p]; [by apply (Hmain None)|].
  repeat (destruct p as [p|p|]; try (by apply (Hmain None)); try done).
Qed.

Lemma printable_le (ip : interpreter) (z z' : Z) :
  (Z.abs z' ≤ Z.abs z)%Z → printable ip z → printable ip z'.
Proof.
  unfold printable, str_of_int. intros Hle [t Ht].
  destruct (exceeds_digit_limit ip (length (digits_of_uint (N.to_uint (Z.abs_N z)))))
    eqn:Hlim; [done|].
  assert (length (digits_of_uint (N.to_uint (Z.abs_N z')))
          ≤ length (digits_of_uint (N.to_uint (Z.abs_N z))))%nat as Hlen.
  { rewrite (digits_length (N.to_uint (Z.abs_N z))).
    destruct (to_uint_bounds (Z.abs_N z)) as (Hn & Hhi & _).
    apply digits_bound; [lia|done]. }
  rewrite (exceeds_digit_limit_mono ip _ _ Hlen Hlim). by eexists.
Qed.

Lemma printable_small (ip : interpreter) (z : Z) :
  (Z.abs z < 10 ^ 640)%Z → printable ip z.
Proof. apply str_of_int_small. Qed.

Lemma printable_read (ip : interpreter) (s : str) (z : Z) :
  int_of_str ip s = Some z → printable ip z.
Proof. apply str_of_int_of_str. Qed.

Lemma printable_days (ip : interpreter) (uptime : Z) :
  printable ip uptime → printable ip (uptime / 86400).
Proof.
  apply printable_le.
  pose proof (Z.div_mod uptime 86400 ltac:(lia)).
  pose proof (Z.mod_pos_bound uptime 86400 ltac:(lia)). lia.
Qed.

Lemma printable_hours (ip : interpreter) (uptime : Z) :
  printable ip ((uptime mod 86400) / 3600).
Proof.
  apply printable_small.
  pose proof (Z.mod_pos_bound uptime 86400 ltac:(lia)).
  pose proof (Z.div_mod (uptime mod 86400) 3600 ltac:(lia)).
  pose proof (Z.mod_pos_bound (uptime mod 86400) 3600 ltac:(lia)).
  assert (0 ≤ uptime `mod` 86400 / 3600 < 24)%Z by lia.
  assert (24 < 10 ^ 640)%Z by (by apply Z.ltb_lt). lia.
Qed.

Lemma py_int_printable s (w : world) z w' :
  py_int s w = (Returns z, w') → w' = w ∧ printable (interp w) z.
Proof.
  rewrite py_int_run. destruct (int_of_str (interp w) s) as [z'|] eqn:H; [|done].
  intros [= <- <-]. split; [done|]. by eapply printable_read.
Qed.

Lemma max_clients_of_result (b : bool) users r0 :
  max_clients (if b then with_user_list users r0 else r0) = max_clients r0.
Proof. by destruct b. Qed.

(** *** What a query that succeeds has fetched *)

(** What a successful run of the package path has called. *)
Lemma ts3_query_inv cfg exclude query_type show_user_list w r w' :
  ts3_query cfg exclude query_type show_user_list w = (Returns (Success r), w') →
  ∃ pkg infos info clients channels,
    ts3 w = Some pkg
    ∧ ts3_serverinfo pkg = Returns infos ∧ head infos = Some info
    ∧ int_of_str (interp w) (maxclients_text info) = Some (max_clients r)
    ∧ ts3_clientlist pkg = Returns clients
    ∧ ts3_channellist pkg = Returns channels
    ∧ shaped cfg show_user_list
        (online_users_of clients (excluded_cids_of exclude channels)) r.
Proof.
  intros H. unfold ts3_query, ts3_connect in H.
  repeat run_step H.
  apply try_finally_inv in H as (wb & rc & H & Hc). unfold ts3_session in H.
  do 3 run_step H.
  match goal with Hi : ts3_conn_serverinfo _ = (Returns ?l, _) |- _ =>
    destruct l as [|info infos] end.
  { rewrite bind_run in H. discriminate H. }
  rewrite bind_run in H. simpl in H.
  rewrite bind_run, py_int_run in H.
  destruct (int_of_str _ _) as [max|] eqn:Hint; [|discriminate H].
  do 2 run_step H.
  run_step H; repeat run_step H; run_done.
  all: repeat match goal with
       | Hr : (match ?o with Some _ => _ | None => _ end) _ = _ |- _ => destruct o
       | Hr : mret _ _ = _ |- _ => apply ret_inv in Hr as [-> ->]
       end.
  all: ts3_facts.
  all: repeat match goal with
       | Hs : same_socket _ _ |- _ => destruct Hs as (? & _)
       end.
  all: repeat match goal with
       | H : match ts3 ?w with _ => _ end |- _ =>
           let E := fresh "Hpkg" in destruct (ts3 w) eqn:E
       | H : _ = _ ∧ trace _ = _ |- _ => destruct H as [? _]
       end.
  all: try discriminate.
  all: subst.
  all: match goal with
       | Hs : Returns (?i :: ?l) = ts3_serverinfo ?p,
         Hc : Returns ?c = ts3_clientlist _,
         Hch : Returns ?ch = ts3_channellist _ |- _ =>
           exists p, (i :: l), i, c, ch
       end.
  all: split; [congruence|]. all: split; [congruence|]. all: split; [done|].
  all: split; [rewrite max_clients_of_result; simpl;
               match goal with
               | Hi : int_of_str (interp ?x) _ = Some _ |- int_of_str (interp ?y) _ = _ =>
                   replace (interp y) with (interp x) by congruence; exact Hi
               end|].
  all: split; [congruence|]. all: split; [congruence|].
  all: eexists; repeat split; reflexivity.
Qed.

Lemma ts3_query_returns_success cfg exclude query_type show_user_list w a w' :
  ts3_query cfg exclude query_type show_user_list w = (Returns a, w') →
  ∃ r, a = Success r.
Proof.
  intros H. unfold ts3_query, ts3_connect in H.
  repeat run_step H.
  apply try_finally_inv in H as (wb & rc & H & Hc). unfold ts3_session in H.
  repeat run_step H; run_done.
  all: by eexists.
Qed.

(** The path through the package raises when [int] refuses the text of
    [virtualserver_maxclients]. *)
Lemma ts3_query_unreadable cfg exclude query_type show_user_list w pkg info infos :
  ts3 w = Some pkg → ts3_serverinfo pkg = Returns (info :: infos) →
  int_of_str (interp w) (maxclients_text info) = None →
  ∃ e w1, ts3_query cfg exclude query_type show_user_list w = (Raises e, w1).
Proof.
  intros Hpkg Hinfo Hint.
  destruct (ts3_query cfg exclude query_type show_user_list w) as [[a|e] w1] eqn:H;
    [|by eexists _, _].
  destruct (ts3_query_returns_success _ _ _ _ _ _ _ H) as [r ->].
  apply ts3_query_inv
    in H as (pkg' & infos' & info' & _ & _ & Hp & Hi & Hh & Hm & _).
  rewrite Hpkg in Hp. injection Hp as <-.
  rewrite Hinfo in Hi. injection Hi as <-. injection Hh as <-.
  by rewrite Hint in Hm.
Qed.

(** The answer of the path through the package, when it returns, is the
    answer of the query. *)
Lemma query_through_package cfg query_type show_user_list w exclude a w1 r w' :
  normalized_tokens (exclude_channels cfg) w = (Returns exclude, w) →
  ts3_query cfg exclude query_type show_user_list w = (Returns a, w1) →
  _perform_teamspeak_query cfg query_type show_user_list w
    = (Returns (Success r), w') →
  a = Success r ∧ w1 = w'.
Proof.
  intros Hex Hts3. unfold _perform_teamspeak_query. rewrite bind_run, Hex.
  destruct (negb _ && negb _); [done|].
  rewrite try_except_run, Hts3. by intros [= -> ->].
Qed.

Lemma tcp_session_inv cfg exclude query_type show_user_list w r w' :
  tcp_session cfg exclude query_type show_user_list w = (Returns (Success r), w') →
  connecting w = None
  ∧ tcp_login cfg exclude query_type show_user_list (greeted cfg w)
    = (Returns (Success r), w').
Proof.
  intros H. destruct (connecting w) as [e|] eqn:Hc.
  - unfold tcp_session in H. rewrite bind_run in H. unfold sock_connect at 1 in H.
    cbv zeta in H.
    change (connecting (record_event ?ev w)) with (connecting w) in H.
    rewrite Hc in H. discriminate H.
  - split; [done|]. by rewrite <- tcp_session_greeted.
Qed.

Lemma tcp_login_inv cfg exclude query_type show_user_list w r w' :
  tcp_login cfg exclude query_type show_user_list w = (Returns (Success r), w') →
  ∃ parsed err w2,
    _send_and_recv (login_line cfg) w = (Returns (parsed, err), w2)
    ∧ failed err = false
    ∧ tcp_use cfg exclude query_type show_user_list w2 = (Returns (Success r), w').
Proof.
  intros H. unfold tcp_login in H. rewrite bind_run in H.
  destruct (_send_and_recv (login_line cfg) w) as [[[parsed err]|e] w2] eqn:Hrun;
    [|discriminate H].
  cbv beta iota in H. destruct (failed err) eqn:Hf.
  - rewrite close_and_fail_run in H. discriminate H.
  - by exists parsed, err, w2.
Qed.

Lemma tcp_use_inv cfg exclude query_type show_user_list w r w' :
  tcp_use cfg exclude query_type show_user_list w = (Returns (Success r), w') →
  ∃ sid parsed err w3,
    str_of_int (interp w) (ts_server_id cfg) = Some sid
    ∧ _send_and_recv (lit "use sid=" ++ sid) w = (Returns (parsed, err), w3)
    ∧ failed err = false
    ∧ tcp_serverinfo cfg exclude query_type show_user_list w3
      = (Returns (Success r), w').
Proof.
  intros H. unfold tcp_use in H. rewrite bind_run, py_str_run in H.
  destruct (str_of_int (interp w) (ts_server_id cfg)) as [sid|]; [|discriminate H].
  rewrite bind_run in H.
  destruct (_send_and_recv (lit "use sid=" ++ sid) w) as [[[parsed err]|e] w3] eqn:Hrun;
    [|discriminate H].
  cbv beta iota in H. destruct (failed err) eqn:Hf.
  - rewrite close_and_fail_run in H. discriminate H.
  - by exists sid, parsed, err, w3.
Qed.

Lemma tcp_serverinfo_inv cfg exclude query_type show_user_list w r w' :
  tcp_serverinfo cfg exclude query_type show_user_list w
    = (Returns (Success r), w') →
  ∃ parsed err w4 clients e1 w5 channels e2 w6,
    _send_and_recv (lit "serverinfo") w = (Returns (parsed, err), w4)
    ∧ failed err = false
    ∧ _send_and_recv (lit "clientlist") w4 = (Returns (clients, e1), w5)
    ∧ _send_and_recv (lit "channellist") w5 = (Returns (channels, e2), w6)
    ∧ shaped cfg show_user_list
        (online_users_of clients (excluded_cids_of exclude channels)) r.
Proof.
  intros H. unfold tcp_serverinfo in H. rewrite bind_run in H.
  destruct (_send_and_recv (lit "serverinfo") w) as [[[parsed err]|e] w4] eqn:Hrun;
    [|discriminate H].
  cbv beta iota in H. destruct (failed err) eqn:Hf.
  { rewrite close_and_fail_run in H. discriminate H. }
  cbv zeta in H. rewrite bind_run, py_int_run in H.
  destruct (int_of_str _ _) as [max|]; [|discriminate H].
  apply tcp_lists_success
    in H as (clients & channels & e1 & e2 & w5 & w6 & H1 & H2 & _ & _ & Hs).
  by exists parsed, err, w4, clients, e1, w5, channels, e2, w6.
Qed.

(** A successful query returns what the lists it fetched decide. *)
Lemma query_success cfg query_type show_user_list w r w' :
  _perform_teamspeak_query cfg query_type show_user_list w
    = (Returns (Success r), w') →
  ∃ exclude clients channels,
    normalized_tokens (exclude_channels cfg) w = (Returns exclude, w)
    ∧ fetched cfg exclude query_type show_user_list w clients channels
    ∧ shaped cfg show_user_list
        (online_users_of clients (excluded_cids_of exclude channels)) r.
Proof.
  destruct (normalized_tokens_run (exclude_channels cfg) w) as [exclude Hex].
  unfold _perform_teamspeak_query. rewrite bind_run, Hex.
  destruct (negb _ && negb _) eqn:Hcred; [done|].
  rewrite try_except_run.
  destruct (ts3_query _ _ _ _ w) as [[a|e] w1] eqn:Hts3.
  - intros [= -> ->]. pose proof Hts3 as Hq.
    apply ts3_query_inv
      in Hts3 as (pkg & infos & info & clients & channels & Hp & _ & _ & _ & Hc & Hch & Hs).
    exists exclude, clients, channels. split; [done|]. split; [|done].
    left. by exists pkg, (Success r), w'.
  - intros H%try_except_success.
    apply tcp_session_inv in H as [Hconn H].
    apply tcp_login_inv in H as (p1 & err1 & w2 & Hlogin & Hok1 & H).
    apply tcp_use_inv in H as (sid & p2 & err2 & w3 & Hsid & Huse & Hok2 & H).
    apply tcp_serverinfo_inv
      in H as (parsed & err & w4 & clients & e1 & w5 & channels & e2 & w6
               & Hinfo & Hok & Hcl & Hch & Hs).
    exists exclude, clients, channels. split; [done|]. split; [|done].
    right. exists w3, parsed, err, w4, e1, w5, e2, w6.
    split; [|done].
    exists w2, sid, p2, err2. split; [|done].
    exists (greeted cfg w1), p1, err1. split; [|done].
    split.
    { destruct (truthy (ts_api_key cfg)), (truthy (ts_password cfg)); done. }
    split; [done|]. by exists e, w1.
Qed.

Lemma reaches_login_functional cfg exclude query_type show_user_list w0 w1 w1' :
  reaches_login cfg exclude query_type show_user_list w0 w1 →
  reaches_login cfg exclude query_type show_user_list w0 w1' → w1 = w1'.
Proof.
  intros (_ & _ & e & w & H & _ & ->) (_ & _ & e' & w' & H' & _ & ->). congruence.
Qed.

Lemma reaches_use_functional cfg exclude query_type show_user_list w0 w2 w2' :
  reaches_use cfg exclude query_type show_user_list w0 w2 →
  reaches_use cfg exclude query_type show_user_list w0 w2' → w2 = w2'.
Proof.
  intros (w1 & p & e & H1 & H & _) (w1' & p' & e' & H1' & H' & _).
  rewrite (reaches_login_functional _ _ _ _ _ _ _ H1 H1') in H. congruence.
Qed.

Lemma reaches_serverinfo_functional cfg exclude query_type show_user_list w0 w3 w3' :
  reaches_serverinfo cfg exclude query_type show_user_list w0 w3 →
  reaches_serverinfo cfg exclude query_type show_user_list w0 w3' → w3 = w3'.
Proof.
  intros (w2 & sid & p & e & H2 & Hs & H & _) (w2' & sid' & p' & e' & H2' & Hs' & H' & _).
  rewrite (reaches_use_functional _ _ _ _ _ _ _ H2 H2') in H, Hs.
  rewrite Hs in Hs'. injection Hs' as <-. congruence.
Qed.

(** The lists fetched are those of the run: the world decides them. *)
Lemma fetched_functional cfg exclude query_type show_user_list w0
    clients channels clients' channels' :
  fetched cfg exclude query_type show_user_list w0 clients channels →
  fetched cfg exclude query_type show_user_list w0 clients' channels' →
  clients = clients' ∧ channels = channels'.
Proof.
  intros [(pkg & a & w1 & Hp & Hq & Hc & Hch)
         |(w3 & p & e & w4 & e1 & w5 & e2 & w6 & Hr & Hi & _ & Hc & Hch)]
         [(pkg' & a' & w1' & Hp' & Hq' & Hc' & Hch')
         |(w3' & p' & e' & w4' & e1' & w5' & e2' & w6' & Hr' & Hi' & _ & Hc' & Hch')].
  - split; congruence.
  - destruct Hr' as (? & ? & ? & ? & (? & ? & ? & (_ & _ & ? & ? & Hraise & _) & _) & _).
    congruence.
  - destruct Hr as (? & ? & ? & ? & (? & ? & ? & (_ & _ & ? & ? & Hraise & _) & _) & _).
    congruence.
  - rewrite (reaches_serverinfo_functional _ _ _ _ _ _ _ Hr Hr') in Hi.
    rewrite Hi in Hi'. injection Hi' as <- <- <-.
    rewrite Hc in Hc'. injection Hc' as <- <- <-.
    rewrite Hch in Hch'. injection Hch' as <- <- <-. done.
Qed.

Lemma read_numbers_basic ip name users max :
  printable ip max → read_numbers ip (basic_result name users max).
Proof. intros H. split; [done|]. intros st [= ]. Qed.

Lemma read_numbers_status ip uptime info channels name users max :
  printable ip max → printable ip uptime →
  read_numbers ip (with_status uptime info channels (basic_result name users max)).
Proof.
  intros Hm Hu. split; [done|]. intros st [= <-]. simpl.
  split; [by apply printable_days|apply printable_hours].
Qed.

Lemma read_numbers_list ip (b : bool) users r0 :
  read_numbers ip r0 → read_numbers ip (if b then with_user_list users r0 else r0).
Proof. by destruct b. Qed.

Lemma printable_zero ip : printable ip 0.
Proof. by apply printable_small. Qed.

Lemma tcp_session_numbers cfg exclude query_type show_user_list w r w' :
  tcp_session cfg exclude query_type show_user_list w = (Returns (Success r), w') →
  interp w' = interp w ∧ read_numbers (interp w) r.
Proof.
  intros H.
  unfold tcp_session, tcp_login, tcp_use, tcp_serverinfo, tcp_lists, tcp_result,
    close_and_fail in H.
  repeat run_step H; run_done.
  all: repeat match goal with
       | Hi : py_int _ _ = (Returns _, _) |- _ =>
           apply py_int_printable in Hi as [-> ?]
       end.
  all: world_facts.
  all: split; [congruence|].
  all: apply read_numbers_list.
  all: first [ apply read_numbers_status | apply read_numbers_basic ].
  all: first [ apply printable_zero
             | match goal with
               | Hp : printable (interp ?x) ?z |- printable (interp ?y) ?z =>
                   replace (interp y) with (interp x) by congruence; exact Hp
               end ].
Qed.

Lemma ts3_query_numbers cfg exclude query_type show_user_list w r w' :
  ts3_query cfg exclude query_type show_user_list w = (Returns (Success r), w') →
  interp w' = interp w ∧ read_numbers (interp w) r.
Proof.
  intros H. pose proof H as Hev.
  apply ts3_query_events in Hev as (_ & _ & _ & Hi & _). split; [done|].
  unfold ts3_query, ts3_connect in H.
  repeat run_step H.
  apply try_finally_inv in H as (wb & rc & H & Hc). unfold ts3_session in H.
  repeat run_step H; run_done.
  all: repeat match goal with
       | Hr : (match ?o with Some _ => _ | None => _ end) _ = _ |- _ => destruct o
       | Hr : mret _ _ = _ |- _ => apply ret_inv in Hr as [-> ->]
       | Hi : py_int _ _ = (Returns _, _) |- _ =>
           apply py_int_printable in Hi as [-> ?]
       end.
  all: ts3_facts.
  all: repeat match goal with
       | Hs : same_socket _ _ |- _ => destruct Hs as (? & _)
       end.
  all: subst.
  all: apply read_numbers_list.
  all: first [ apply read_numbers_status | apply read_numbers_basic ].
  all: first [ apply printable_zero
             | match goal with
               | Hp : printable (interp ?x) ?z |- printable (interp ?y) ?z =>
                   replace (interp y) with (interp x) by congruence; exact Hp
               end ].
Qed.

Lemma query_numbers cfg query_type show_user_list w r w' :
  _perform_teamspeak_query cfg query_type show_user_list w
    = (Returns (Success r), w') →
  interp w' = interp w ∧ read_numbers (interp w) r.
Proof.
  intros H. unfold _perform_teamspeak_query in H.
  destruct (normalized_tokens_run (exclude_channels cfg) w) as [exclude Hex].
  rewrite bind_run, Hex in H.
  destruct (negb _ && negb _); [discriminate H|].
  rewrite try_except_run in H.
  destruct (ts3_query _ _ _ _ w) as [[a|e] w1] eqn:Hts3.
  { injection H as -> ->. by eapply ts3_query_numbers. }
  apply ts3_query_events in Hts3 as (_ & _ & _ & Hi & _).
  apply try_except_success in H. apply tcp_session_numbers in H as [H1 H2].
  rewrite <- Hi. split; [congruence|done].
Qed.

Lemma py_str_printable (z : Z) (w : world) :
  printable (interp w) z → ∃ t, py_str z w = (Returns t, w).
Proof. intros [t Ht]. exists t. by rewrite py_str_run, Ht. Qed.

Lemma user_lines_returns (users : list str) (i : Z) (w : world) :
  (0 ≤ i)%Z → (i + len users < 10 ^ 640)%Z →
  ∃ t, user_lines i users w = (Returns t, w).
Proof.
  revert i. induction users as [|u users IH]; intros i Hi Hlen; simpl.
  { by eexists. }
  unfold len in *. simpl length in Hlen.
  destruct (py_str_printable i w) as [n Hn].
  { apply printable_small. lia. }
  destruct (IH (i + 1)%Z) as [t Ht]; [lia|lia|].
  rewrite bind_run, Hn, bind_run, Ht. by eexists.
Qed.

Lemma online_message_returns (r : query_result) (w : world) :
  printable (interp w) (online_count r) → printable (interp w) (max_clients r) →
  (∀ users, online_users r = Some users → (length users ≤ 10)%nat) →
  (∀ n, more_users r = Some n → printable (interp w) n) →
  ∃ message, online_message r w = (Returns message, w).
Proof.
  intros Hc Hm Hu Hn. unfold online_message.
  destruct (py_str_printable _ w Hc) as [c Hc'].
  destruct (py_str_printable _ w Hm) as [m Hm'].
  rewrite bind_run, Hc', bind_run, Hm'.
  destruct (online_users r) as [users|]; [|by eexists].
  destruct (user_lines_returns users 1 w) as [t Ht]; [lia| |].
  { specialize (Hu users eq_refl). unfold len.
    assert (11 < 10 ^ 640)%Z by (by apply Z.ltb_lt). lia. }
  rewrite bind_run, Ht.
  destruct (more_users r) as [n|]; [|by eexists].
  destruct (py_str_printable _ w (Hn n eq_refl)) as [k Hk].
  rewrite bind_run, Hk. by eexists.
Qed.

Lemma status_message_returns (r : query_result) (w : world) :
  printable (interp w) (online_count r) → read_numbers (interp w) r →
  (∀ st, status r = Some st → printable (interp w) (channel_count st)) →
  ∃ message, status_message r w = (Returns message, w).
Proof.
  intros Hc [Hm Hst] Hch. unfold status_message.
  assert (printable (interp w) (from_option uptime_days 0%Z (status r))
          ∧ printable (interp w) (from_option uptime_hours 0%Z (status r))
          ∧ printable (interp w) (from_option channel_count 0%Z (status r)))
    as (Hd & Hh & Hk).
  { destruct (status r) as [st|]; simpl.
    - destruct (Hst st eq_refl). by auto.
    - by repeat split; apply printable_zero. }
  destruct (py_str_printable _ w Hd) as [d Hd'].
  destruct (py_str_printable _ w Hh) as [h Hh'].
  destruct (py_str_printable _ w Hk) as [k Hk'].
  destruct (py_str_printable _ w Hc) as [c Hc'].
  destruct (py_str_printable _ w Hm) as [m Hm'].
  rewrite bind_run, Hd', bind_run, Hh', bind_run, Hk', bind_run, Hc', bind_run, Hm'.
  by eexists.
Qed.

Lemma query_list_sizes cfg query_type show_user_list w r w' :
  _perform_teamspeak_query cfg query_type show_user_list w
    = (Returns (Success r), w') →
  (0 ≤ online_count r)%Z
  ∧ (∀ users, online_users r = Some users → (length users ≤ 10)%nat)
  ∧ (∀ n, more_users r = Some n → (0 ≤ n ≤ online_count r)%Z).
Proof.
  intros H. apply query_success in H as (exclude & clients & channels & _ & _ & Hs).
  destruct Hs as (r0 & Hc & Hu & Hm & ->).
  destruct (show_user_list || show_details cfg); simpl.
  - rewrite Hc. split; [unfold len; lia|]. split.
    + intros users [= <-]. rewrite length_map, length_take. lia.
    + intros n. destruct (Z.ltb_spec 10 (len (online_users_of clients
        (excluded_cids_of exclude channels)))); [|by rewrite Hm].
      intros [= <-]. lia.
  - rewrite Hc, Hu, Hm. split; [unfold len; lia|]. done.
Qed.

Lemma online_command_returns cfg w r w1 :
  _perform_teamspeak_query cfg (lit "online_count") true w
    = (Returns (Success r), w1) →
  (online_count r < 10 ^ 640)%Z →
  ∃ message, online_message r w1 = (Returns message, w1).
Proof.
  intros H Hsmall.
  destruct (query_numbers _ _ _ _ _ _ H) as [Hi [Hmax _]].
  destruct (query_list_sizes _ _ _ _ _ _ H) as (Hc & Hu & Hn).
  apply online_message_returns; rewrite ?Hi; [|done|done|].
  - apply printable_small. lia.
  - intros n Hmore. apply printable_small. specialize (Hn n Hmore). lia.
Qed.

Lemma status_command_returns cfg w r w1 :
  _perform_teamspeak_query cfg (lit "server_status") false w
    = (Returns (Success r), w1) →
  (online_count r < 10 ^ 640)%Z →
  (∀ st, status r = Some st → (Z.abs (channel_count st) < 10 ^ 640)%Z) →
  ∃ message, status_message r w1 = (Returns message, w1).
Proof.
  intros H Hsmall Hch.
  destruct (query_numbers _ _ _ _ _ _ H) as [Hi Hnum].
  destruct (query_list_sizes _ _ _ _ _ _ H) as (Hc & _ & _).
  apply status_message_returns; rewrite ?Hi; [|done|].
  - apply printable_small. lia.
  - intros st Hst. apply printable_small. by apply Hch.
Qed.

Lemma command_reply exn_text (message_of : query_result → M str) (a : answer)
    (w : world) :
  (∀ r, a = Success r → ∃ message, message_of r w = (Returns message, w)) →
  ∃ rep,
    match a with
    | Failure error => mret (report_failure exn_text error)
    | Success result =>
        message ← message_of result; mret (report_success message)
    end w = (Returns rep, w)
    ∧ length (sent rep) = 1%nat
    ∧ ((returned rep).1.1 = true ↔ ∃ r, a = Success r).
Proof.
  intros H. destruct a as [r|e].
  - destruct (H r eq_refl) as [message Hm]. rewrite bind_run, Hm.
    eexists. split; [reflexivity|]. split; [done|]. simpl. split; [by eexists|done].
  - eexists. split; [reflexivity|]. split; [done|]. simpl.
    split; [done|by intros [? ?]].
Qed.

(** * The claims of the specification *)

(** ** The raw codec *)

(** C2: [_unescape] is the four substitutions applied in the order backslash-s
    to space, backslash-slash to slash, backslash-p to the bar and, last, two
    backslashes to one; each works alone on its own two characters; the order
    is observable (on backslash, backslash, s the code gives backslash and a
    space, the backslash rule first would give a space); and the escaped
    text of "a b/c|d\e" is turned into it exactly. *)
Theorem unescape_order :
  (∀ val : str,
     _unescape val
     = replace [0x5C; 0x5C] [0x5C]
         (replace [0x5C; 0x70] [0x7C]
            (replace [0x5C; 0x2F] [0x2F]
               (replace [0x5C; 0x73] [0x20] val))))
  ∧ _unescape (lit "\s") = lit " "
  ∧ _unescape (lit "\/") = lit "/"
  ∧ _unescape (lit "\p") = lit "|"
  ∧ _unescape (lit "\\") = lit "\"
  ∧ _unescape (lit "\\s") = lit "\ "
  ∧ replace (lit "\p") (lit "|")
      (replace (lit "\/") (lit "/")
         (replace (lit "\s") (lit " ")
            (replace (lit "\\") (lit "\") (lit "\\s")))) = lit " "
  ∧ _unescape (lit "a\sb\/c\pd\\e") = lit "a b/c|d\e".
Proof.
  split; [intros val; reflexivity|].
  repeat split; vm_compute; reflexivity.
Qed.

(** C10: [_parse_entry] and the parsing around it are functions of every
    text (nothing in them raises): the record of a line is built from the
    parts between the spaces of the stripped line; a part without "=" changes
    nothing; a part is cut at its first "=" only, so that the value keeps the
    "=" after it; the value of a key is that of the last part with this key;
    an empty segment between two "|" gives no record; and a byte that starts
    no UTF-8 sequence is dropped from the response. *)
Theorem parse_entry_total :
  (∀ line : str,
     _parse_entry line = foldl parse_token ∅ (split 0x20 (strip line)))
  ∧ (∀ (d : entry) (p : str), 0x3D ∉ p → parse_token d p = d)
  ∧ (∀ (d : entry) (k v : str),
       0x3D ∉ k → parse_token d (k ++ 0x3D :: v) = <[k := _unescape v]> d)
  ∧ (∀ (d : entry) (before after : list str) (k v : str),
       0x3D ∉ k →
       (∀ p, p ∈ after → 0x3D ∈ p → key_of p ≠ k) →
       foldl parse_token d (before ++ (k ++ 0x3D :: v) :: after) !! k
       = Some (_unescape v))
  ∧ (∀ a b : str, records_of [a ++ 0x7C :: 0x7C :: b] = records_of [a ++ 0x7C :: b])
  ∧ (∀ (a : bytes) (b : N) (d : bytes),
       ascii_bytes a → in_range 0x80 0xC1 b || (0xF5 <=? b) = true →
       decode_ignore (a ++ b :: d) = a ++ decode_ignore d)
  ∧ _parse_entry (lit "  junk k=a=b = k=c\sd  ")
    = <[lit "k" := lit "c d"]> (<[[] := []]> ∅)
  ∧ (parse_response (blit "cid=1 channel_name=A||cid=2 channel_name=B\pC"
                     ++ [0xFF; LF] ++ blit "error id=0 msg=ok")).1
    = [_parse_entry (lit "cid=1 channel_name=A");
       <[lit "channel_name" := lit "B|C"]> (<[lit "cid" := lit "2"]> ∅)].
Proof.
  split; [apply parse_entry_parts|].
  split; [apply parse_token_skip|].
  split; [apply parse_token_first_equals|].
  split; [apply parse_parts_last_wins|].
  split; [apply records_of_empty_segment|].
  split; [apply decode_ignore_drops|].
  split; vm_compute; reflexivity.
Qed.

(** C4: a token that is the name recorded for some channel id puts that id
    (every such id), as a text, in the exclusion set; a token that is no
    channel's name is put there itself; and nothing else is in the set. The
    name recorded for an id is the name of the last record of the channel
    list with this id: when no two records have the same id, a token that is
    the name of a record excludes the id of this record, and a token that is
    the name of no record excludes itself and nothing else. With the one
    channel of id 5 named Lobby, the token "Lobby" excludes "5" and the
    token "7" excludes "7". *)
Theorem exclusion_resolves_names_first :
  (∀ (tokens : list str) (channels : list entry) (x : str),
     x ∈ excluded_cids_of tokens channels
     ↔ ∃ ex, ex ∈ tokens
         ∧ ((∃ k, cid_to_name_of channels !! k = Some ex ∧ x = str_of_get k)
            ∨ ((∀ k, cid_to_name_of channels !! k ≠ Some ex) ∧ x = ex)))
  ∧ (∀ (channels : list entry) (k : option str) (n : str),
       cid_to_name_of channels !! k = Some n
       ↔ ∃ before ch after,
           channels = before ++ ch :: after
           ∧ ch !! lit "cid" = k ∧ name_of_channel ch = n
           ∧ ∀ ch', ch' ∈ after → ch' !! lit "cid" ≠ k)
  ∧ (∀ (tokens : list str) (channels : list entry) (ch : entry),
       NoDup (map (λ c : entry, c !! lit "cid") channels) →
       ch ∈ channels → name_of_channel ch ∈ tokens →
       str_of_get (ch !! lit "cid") ∈ excluded_cids_of tokens channels)
  ∧ (∀ (channels : list entry) (ex x : str),
       (∀ ch, ch ∈ channels → name_of_channel ch ≠ ex) →
       x ∈ excluded_cids_of [ex] channels ↔ x = ex)
  ∧ excluded_cids_of [lit "Lobby"] [lobby] = {[lit "5"]}
  ∧ excluded_cids_of [lit "7"] [lobby] = {[lit "7"]}
  ∧ excluded_cids_of [lit "Lobby"; lit "7"] [lobby] = {[lit "5"; lit "7"]}.
Proof.
  split; [apply excluded_cids_of_elem|].
  split; [apply cid_to_name_of_lookup|].
  split; [apply named_channel_excluded|].
  split; [apply unnamed_token_excluded|].
  repeat split; vm_compute; reflexivity.
Qed.

Lemma ok_status_line :
  ascii_bytes (blit "error id=0 msg=ok") ∧ one_line (blit "error id=0 msg=ok")
  ∧ nonblank (blit "error id=0 msg=ok") = true.
Proof.
  split; [|split; [|reflexivity]].
  - unfold ascii_bytes. vm_compute. repeat constructor.
  - unfold one_line. vm_compute. repeat constructor.
Qed.

(** C3, as the code has it: of the lines of a response that are not
    blank, the last one is the status when, and only when, it starts with
    "error id="; it is then left out of the data lines. Otherwise, and when
    there is no such line at all, the status is made up with the id "-1". A
    status has failed unless its id is the text "0": the made-up ones have,
    and a response whose last line is "error id=0 msg=ok" has not, whatever
    comes before that line. For [login], [use] and [serverinfo] a status that
    has failed makes the fallback close the socket and return the failure of
    this command with the status message, and one that has not lets it go on
    with the next command. The statuses of [clientlist], [channellist] and
    [quit] are not looked at: the fallback goes on whatever they are. *)
Theorem status_line_decides :
  (∀ data : bytes,
     let lines := List.filter nonblank (splitlines (decode_ignore data)) in
     (lines = [] → parse_response data = ([], no_response))
     ∧ (∀ entries l, lines = entries ++ [l] →
          parse_response data
          = if startswith (lit "error id=") l
            then (records_of entries, _parse_entry l)
            else (records_of (entries ++ [l]), no_error_line)))
  ∧ no_response !! lit "id" = Some (lit "-1")
  ∧ no_error_line !! lit "id" = Some (lit "-1")
  ∧ (∀ err : entry, failed err = false ↔ err !! lit "id" = Some (lit "0"))
  ∧ failed no_response = true
  ∧ failed no_error_line = true
  ∧ (∀ data : bytes,
       failed (parse_response (data ++ LF :: blit "error id=0 msg=ok")).2 = false)
  ∧ (∀ cfg exclude query_type show_user_list w parsed err w',
       _send_and_recv (login_line cfg) w = (Returns (parsed, err), w') →
       tcp_login cfg exclude query_type show_user_list w
       = if failed err
         then (Returns (Failure (LoginFailed (message_of err))), closed w')
         else tcp_use cfg exclude query_type show_user_list w')
  ∧ (∀ cfg exclude query_type show_user_list w sid parsed err w',
       str_of_int (interp w) (ts_server_id cfg) = Some sid →
       _send_and_recv (lit "use sid=" ++ sid) w = (Returns (parsed, err), w') →
       tcp_use cfg exclude query_type show_user_list w
       = if failed err
         then (Returns (Failure (UseFailed (message_of err))), closed w')
         else tcp_serverinfo cfg exclude query_type show_user_list w')
  ∧ (∀ cfg exclude query_type show_user_list w parsed err w',
       _send_and_recv (lit "serverinfo") w = (Returns (parsed, err), w') →
       tcp_serverinfo cfg exclude query_type show_user_list w
       = if failed err
         then (Returns (Failure (ServerinfoFailed (message_of err))), closed w')
         else
           let info := match parsed with e :: _ => e | [] => ∅ end in
           match int_of_str (interp w') (maxclients_text info) with
           | Some max =>
               tcp_lists cfg exclude query_type show_user_list info
                 (server_name_of info) max w'
           | None => (Raises (ValueError (maxclients_text info)), w')
           end)
  ∧ (∀ cfg exclude query_type show_user_list info name max w clients e1 w1
       channels e2 w2,
       _send_and_recv (lit "clientlist") w = (Returns (clients, e1), w1) →
       _send_and_recv (lit "channellist") w1 = (Returns (channels, e2), w2) →
       tcp_lists cfg exclude query_type show_user_list info name max w
       = tcp_result cfg exclude query_type show_user_list info name max
           clients channels w2)
  ∧ (∀ w r w',
       ignoring_errors (_ ← _send_and_recv (lit "quit"); mret tt) w = (r, w') →
       r = Returns tt).
Proof.
  split; [apply parse_response_cases|].
  split; [reflexivity|]. split; [reflexivity|].
  split; [apply failed_iff|].
  split; [reflexivity|]. split; [reflexivity|].
  split.
  { intros data. destruct ok_status_line as (Ha & Hl & Hn).
    rewrite (response_status data _ Ha Hl Hn). reflexivity. }
  split; [|split; [|split; [|split]]].
  - intros cfg exclude query_type show_user_list w parsed err w' Hrun.
    unfold tcp_login. rewrite bind_run, Hrun. cbv beta iota.
    by destruct (failed err).
  - intros cfg exclude query_type show_user_list w sid parsed err w' Hsid Hrun.
    unfold tcp_use. rewrite bind_run, py_str_run, Hsid, bind_run, Hrun.
    cbv beta iota. by destruct (failed err).
  - intros cfg exclude query_type show_user_list w parsed err w' Hrun.
    destruct (failed err) eqn:Hf.
    + by eapply tcp_serverinfo_failed.
    + exact (tcp_serverinfo_ok _ _ _ _ _ _ _ _ Hrun Hf).
  - intros cfg exclude query_type show_user_list. apply tcp_lists_statuses.
  - intros w r w' H. by apply quit_world in H as [-> _].
Qed.

(** C3, as the specification has it, fails at [clientlist]: the server
    answers it with the status 2568, which has failed, and the query goes on
    with [channellist] and [quit] and returns a result, with no user on
    line. *)
Lemma clientlist_failure_is_not_reported :
  failed (parse_response refused_clientlist).2 = true
  ∧ ∃ r w',
      _perform_teamspeak_query example_config (lit "online_count") false
        (scripted refusing_clientlist) = (Returns (Success r), w')
      ∧ online_count r = 0%Z
      ∧ trace w'
        = [SockClose; SockSend (blit "quit" ++ [LF]);
           SockSend (blit "channellist" ++ [LF]);
           SockSend (blit "clientlist" ++ [LF]);
           SockSend (blit "serverinfo" ++ [LF]);
           SockSend (blit "use sid=1" ++ [LF]);
           SockSend (blit "login serveradmin secret" ++ [LF]);
           SockConnect (lit "localhost") 10011].
Proof.
  split; [reflexivity|]. eexists _, _.
  split; [vm_compute; reflexivity|]. split; vm_compute; reflexivity.
Qed.

(** ** The query *)

(** C7: without a password and without an api-key the query returns the
    error of the missing credentials, and the world is as it was: no
    connection has been tried, through the package or on a socket. *)
Theorem no_credentials_no_network cfg query_type show_user_list w :
  ts_password cfg = [] → ts_api_key cfg = [] →
  _perform_teamspeak_query cfg query_type show_user_list w
  = (Returns (Failure NoCredentials), w).
Proof.
  intros Hp Hk.
  destruct (normalized_tokens_run (exclude_channels cfg) w) as [exclude Hex].
  unfold _perform_teamspeak_query. by rewrite bind_run, Hex, Hp, Hk.
Qed.

Lemma no_credentials_no_network_witness :
  (ts_password unconfigured = [] ∧ ts_api_key unconfigured = [])
  ∧ _perform_teamspeak_query unconfigured (lit "online_count") true (scripted [])
    = (Returns (Failure NoCredentials), scripted [])
  ∧ trace (scripted []) = [].
Proof.
  split; [split; reflexivity|]. split; [|reflexivity].
  exact (no_credentials_no_network unconfigured (lit "online_count") true
           (scripted []) eq_refl eq_refl).
Defined.

(** C1: the online users are the clients, in the order of the list, whose
    [client_type] is the text "0" and whose [cid], as a text, is not in the
    exclusion set; a client of another type is none of them. For a query that
    succeeds, with the tokens [exclude] that its configuration gives and the
    two lists that this run has fetched from the server, the [online_count]
    of the result is the number of these clients of the list fetched, and its
    [online_users], when the result has them, the nicknames of the first ten
    of them. The lists fetched are those of the run: the query's world
    decides them. *)
Theorem online_users_are_the_regular_clients :
  (∀ (clients : list entry) (excluded : gset str),
     online_users_of clients excluded
     = filter (λ c : entry, c !! lit "client_type" = Some (lit "0")
                            ∧ str_of_get (c !! lit "cid") ∉ excluded) clients)
  ∧ (∀ (clients : list entry) (excluded : gset str) (c : entry),
       c ∈ online_users_of clients excluded
       ↔ c ∈ clients ∧ c !! lit "client_type" = Some (lit "0")
         ∧ str_of_get (c !! lit "cid") ∉ excluded)
  ∧ (∀ cfg query_type show_user_list w r w',
       _perform_teamspeak_query cfg query_type show_user_list w
         = (Returns (Success r), w') →
       ∃ exclude clients channels,
         normalized_tokens (exclude_channels cfg) w = (Returns exclude, w)
         ∧ fetched cfg exclude query_type show_user_list w clients channels
         ∧ let users :=
             filter (λ c : entry,
                       c !! lit "client_type" = Some (lit "0")
                       ∧ str_of_get (c !! lit "cid")
                         ∉ excluded_cids_of exclude channels) clients in
           online_count r = len users
           ∧ ∀ names, online_users r = Some names →
               names = map (λ u : entry, default (lit "未知")
                                           (u !! lit "client_nickname"))
                         (take 10 users))
  ∧ (∀ cfg exclude query_type show_user_list w clients channels
       clients' channels',
       fetched cfg exclude query_type show_user_list w clients channels →
       fetched cfg exclude query_type show_user_list w clients' channels' →
       clients = clients' ∧ channels = channels').
Proof.
  split; [apply online_users_of_filter|]. split; [|split; [|apply fetched_functional]].
  - intros clients excluded c. rewrite online_users_of_filter, list_elem_of_filter.
    naive_solver.
  - intros cfg query_type show_user_list w r w' Hrun.
    apply query_success in Hrun as (exclude & clients & channels & Hex & Hf & Hs).
    exists exclude, clients, channels. split; [done|]. split; [done|].
    cbv zeta. rewrite <- online_users_of_filter.
    split; [by eapply shaped_count|].
    intros names Hnames. by eapply shaped_user_list.
Qed.

(** C8: when the result of a query holds the user list, the list is the
    nicknames of the first min(10, n) of the n online users, in the order of
    the server's list (the online users of the client list that this run has
    fetched, with the tokens of its configuration); [more_users] is n - 10,
    and is in the result exactly when n is more than 10. *)
Theorem user_list_capped cfg query_type show_user_list w r w' names :
  _perform_teamspeak_query cfg query_type show_user_list w
    = (Returns (Success r), w') →
  online_users r = Some names →
  ∃ exclude clients channels,
    normalized_tokens (exclude_channels cfg) w = (Returns exclude, w)
    ∧ fetched cfg exclude query_type show_user_list w clients channels
    ∧ let users := online_users_of clients (excluded_cids_of exclude channels) in
      online_count r = len users
      ∧ names = map (λ u : entry, default (lit "未知") (u !! lit "client_nickname"))
                  (take 10 users)
      ∧ length names = Nat.min 10 (length users)
      ∧ more_users r = (if (10 <? len users)%Z then Some (len users - 10)%Z
                        else None)
      ∧ (is_Some (more_users r) ↔ (10 < length users)%nat).
Proof.
  intros Hrun Hnames.
  apply query_success in Hrun as (exclude & clients & channels & Hex & Hf & Hs).
  exists exclude, clients, channels. split; [done|]. split; [done|]. cbv zeta.
  destruct (shaped_user_list _ _ _ _ _ Hs Hnames) as [Hn Hm].
  split; [by eapply shaped_count|]. split; [done|].
  split; [by rewrite Hn, length_map, length_take|].
  split; [done|]. rewrite Hm. unfold len.
  destruct (Z.ltb_spec 10 (Z.of_nat (length (online_users_of clients
    (excluded_cids_of exclude channels))))) as [Hlt|Hge].
  - split; [lia|by eexists].
  - split; [by intros [? ?]|lia].
Qed.

Lemma user_list_capped_witness :
  ∃ w',
    (_perform_teamspeak_query example_config (lit "online_count") true
       (scripted crowded) = (Returns (Success crowded_result), w')
     ∧ online_users crowded_result
       = Some [lit "u1"; lit "u2"; lit "u3"; lit "u4"; lit "u5";
               lit "u6"; lit "u7"; lit "u8"; lit "u9"; lit "u10"])
    ∧ ∃ exclude clients channels,
        normalized_tokens (exclude_channels example_config) (scripted crowded)
          = (Returns exclude, scripted crowded)
        ∧ fetched example_config exclude (lit "online_count") true
            (scripted crowded) clients channels
        ∧ let users := online_users_of clients (excluded_cids_of exclude channels) in
          online_count crowded_result = len users
          ∧ [lit "u1"; lit "u2"; lit "u3"; lit "u4"; lit "u5";
             lit "u6"; lit "u7"; lit "u8"; lit "u9"; lit "u10"]
            = map (λ u : entry, default (lit "未知") (u !! lit "client_nickname"))
                (take 10 users)
          ∧ 10%nat = Nat.min 10 (length users)
          ∧ more_users crowded_result
            = (if (10 <? len users)%Z then Some (len users - 10)%Z else None)
          ∧ (is_Some (more_users crowded_result) ↔ (10 < length users)%nat).
Proof.
  eexists. split; [split; [vm_compute; reflexivity|reflexivity]|].
  eapply (user_list_capped example_config (lit "online_count") true
            (scripted crowded) crowded_result);
    [vm_compute; reflexivity|reflexivity].
Defined.

(** C6, as the code has it: a status whose id is not "0" in the answer to
    [login], to [use] or to [serverinfo] makes the query close the socket
    and return the error of this step, with the status message; the trace
    ends with the closing of the socket, so that nothing is sent after the
    answer. The status of [channellist] is not looked at: the query goes on
    with the records of the answer. *)
Theorem failed_step_stops cfg exclude query_type show_user_list w0 :
  (∀ w1 parsed err w2,
     reaches_login cfg exclude query_type show_user_list w0 w1 →
     _send_and_recv (login_line cfg) w1 = (Returns (parsed, err), w2) →
     failed err = true →
     _perform_teamspeak_query cfg query_type show_user_list w0
     = (Returns (Failure (LoginFailed (message_of err))), closed w2))
  ∧ (∀ w2 sid parsed err w3,
       reaches_use cfg exclude query_type show_user_list w0 w2 →
       str_of_int (interp w2) (ts_server_id cfg) = Some sid →
       _send_and_recv (lit "use sid=" ++ sid) w2 = (Returns (parsed, err), w3) →
       failed err = true →
       _perform_teamspeak_query cfg query_type show_user_list w0
       = (Returns (Failure (UseFailed (message_of err))), closed w3))
  ∧ (∀ w3 parsed err w4,
       reaches_serverinfo cfg exclude query_type show_user_list w0 w3 →
       _send_and_recv (lit "serverinfo") w3 = (Returns (parsed, err), w4) →
       failed err = true →
       _perform_teamspeak_query cfg query_type show_user_list w0
       = (Returns (Failure (ServerinfoFailed (message_of err))), closed w4))
  ∧ (∀ w, trace (closed w) = SockClose :: trace w ∧ sock_open (closed w) = false)
  ∧ (∀ info name max w clients e1 w1 channels e2 w2,
       _send_and_recv (lit "clientlist") w = (Returns (clients, e1), w1) →
       _send_and_recv (lit "channellist") w1 = (Returns (channels, e2), w2) →
       tcp_lists cfg exclude query_type show_user_list info name max w
       = tcp_result cfg exclude query_type show_user_list info name max
           clients channels w2).
Proof.
  split; [|split; [|split; [|split]]].
  - intros w1 parsed err w2 Hreach Hrun Hf.
    rewrite (query_reaches_login _ _ _ _ _ _ Hreach).
    apply try_except_returns. by eapply tcp_login_failed.
  - intros w2 sid parsed err w3 Hreach Hsid Hrun Hf.
    rewrite (query_reaches_use _ _ _ _ _ _ Hreach).
    apply try_except_returns. by eapply tcp_use_failed.
  - intros w3 parsed err w4 Hreach Hrun Hf.
    rewrite (query_reaches_serverinfo _ _ _ _ _ _ Hreach).
    apply try_except_returns. by eapply tcp_serverinfo_failed.
  - done.
  - apply tcp_lists_statuses.
Qed.

Lemma scripted_reaches_login (script : list (outcome bytes)) :
  reaches_login example_config [] (lit "online_count") true
    (scripted script) (greeted example_config (scripted script)).
Proof.
  split; [reflexivity|]. split; [reflexivity|].
  exists ImportError, (scripted script). by repeat split.
Qed.

Lemma failed_step_stops_witness :
  ∃ w2,
    _perform_teamspeak_query example_config (lit "online_count") true
      (scripted refusing_login)
    = (Returns (Failure (LoginFailed (lit "invalid loginname or password"))),
       closed w2)
    ∧ trace (closed w2)
      = [SockClose; SockSend (blit "login serveradmin secret" ++ [LF]);
         SockConnect (lit "localhost") 10011].
Proof.
  eexists. split.
  - eapply (proj1 (failed_step_stops example_config [] (lit "online_count") true
                     (scripted refusing_login)) _ []
              (_parse_entry (lit "error id=520 msg=invalid\sloginname\sor\spassword")));
      [apply scripted_reaches_login|vm_compute; reflexivity|reflexivity].
  - vm_compute. reflexivity.
Defined.

(** C6, as the specification has it, fails at [channellist]: the server
    answers it with the status 2568, and the query sends [quit] after it and
    returns a result. *)
Lemma channellist_failure_is_not_reported :
  failed (parse_response refused_channellist).2 = true
  ∧ ∃ r w',
      _perform_teamspeak_query example_config (lit "online_count") false
        (scripted refusing_channellist) = (Returns (Success r), w')
      ∧ online_count r = 2%Z
      ∧ trace w'
        = [SockClose; SockSend (blit "quit" ++ [LF]);
           SockSend (blit "channellist" ++ [LF]);
           SockSend (blit "clientlist" ++ [LF]);
           SockSend (blit "serverinfo" ++ [LF]);
           SockSend (blit "use sid=1" ++ [LF]);
           SockSend (blit "login serveradmin secret" ++ [LF]);
           SockConnect (lit "localhost") 10011].
Proof.
  split; [reflexivity|]. eexists _, _.
  split; [vm_compute; reflexivity|]. split; vm_compute; reflexivity.
Qed.

(** C9, as the code has it: [max_clients] is what [int] reads from the text
    of [virtualserver_maxclients], and 0 when the first record of the answer
    has no such field; it is negative when the text is a negative number;
    when [int] refuses the text, the fallback returns the failure of the
    fallback with this [ValueError], and no default is put in its place. On
    the path through the package the record is the first of those that the
    package of the world answers to [serverinfo]: the [max_clients] of a result
    that comes from this path is what [int] reads from its text, and when
    [int] refuses the text the path raises (and the query falls back on the
    socket). *)
Theorem max_clients_is_what_int_reads :
  (∀ (ip : interpreter) (info : entry),
     info !! lit "virtualserver_maxclients" = None →
     int_of_str ip (maxclients_text info) = Some 0%Z)
  ∧ (∀ (info : entry) (s : str),
       info !! lit "virtualserver_maxclients" = Some s → maxclients_text info = s)
  ∧ (∀ cfg exclude query_type show_user_list w0 w3 parsed err w4,
       reaches_serverinfo cfg exclude query_type show_user_list w0 w3 →
       _send_and_recv (lit "serverinfo") w3 = (Returns (parsed, err), w4) →
       failed err = false →
       let info := match parsed with e :: _ => e | [] => ∅ end in
       match int_of_str (interp w4) (maxclients_text info) with
       | Some max =>
           ∀ r w', _perform_teamspeak_query cfg query_type show_user_list w0
                     = (Returns (Success r), w') →
                   max_clients r = max
       | None =>
           _perform_teamspeak_query cfg query_type show_user_list w0
           = (Returns (Failure (FallbackFailed (ValueError (maxclients_text info)))),
              w4)
       end)
  ∧ (∀ cfg exclude query_type show_user_list w a w1 r w',
       normalized_tokens (exclude_channels cfg) w = (Returns exclude, w) →
       ts3_query cfg exclude query_type show_user_list w = (Returns a, w1) →
       _perform_teamspeak_query cfg query_type show_user_list w
         = (Returns (Success r), w') →
       ∃ pkg infos info,
         ts3 w = Some pkg ∧ ts3_serverinfo pkg = Returns infos
         ∧ head infos = Some info
         ∧ int_of_str (interp w) (maxclients_text info) = Some (max_clients r))
  ∧ (∀ cfg exclude query_type show_user_list w pkg info infos,
       ts3 w = Some pkg → ts3_serverinfo pkg = Returns (info :: infos) →
       int_of_str (interp w) (maxclients_text info) = None →
       ∃ e w1, ts3_query cfg exclude query_type show_user_list w = (Raises e, w1))
  ∧ int_of_str example_interpreter (lit "-5") = Some (-5)%Z
  ∧ int_of_str example_interpreter (lit "abc") = None.
Proof.
  split; [|split; [|split; [|split; [|split; [|split; reflexivity]]]]].
  - intros ip info Hinfo. unfold maxclients_text. rewrite Hinfo. apply int_of_zero.
  - intros info s Hinfo. unfold maxclients_text. by rewrite Hinfo.
  - intros cfg exclude query_type show_user_list w0 w3 parsed err w4 Hreach Hrun Hok.
    cbv zeta. rewrite (query_reaches_serverinfo _ _ _ _ _ _ Hreach).
    rewrite try_except_run.
    rewrite (tcp_serverinfo_ok _ _ _ _ _ _ _ _ Hrun Hok). cbv zeta.
    destruct (int_of_str _ _) as [max|]; [|done].
    intros r w' Hq.
    destruct (tcp_lists _ _ _ _ _ _ _ w4) as [[a|e] w5] eqn:Hlists;
      [|discriminate Hq].
    injection Hq as -> ->.
    by apply tcp_lists_success in Hlists as (? & ? & ? & ? & ? & ? & _ & _ & _ & ? & _).
  - intros cfg exclude query_type show_user_list w a w1 r w' Hex Hts3 Hq.
    apply (query_through_package _ _ _ _ _ _ _ _ _ Hex Hts3) in Hq as [-> ->].
    apply ts3_query_inv
      in Hts3 as (pkg & infos & info & _ & _ & Hp & Hi & Hh & Hm & _).
    by exists pkg, infos, info.
  - apply ts3_query_unreadable.
Qed.

Lemma scripted_reaches_serverinfo (rest : list (outcome bytes)) :
  reaches_serverinfo example_config [] (lit "online_count") false
    (scripted (after_use rest)) (at_serverinfo rest).
Proof.
  eexists _, (lit "1"), [], (_parse_entry (lit "error id=0 msg=ok")).
  split; [|split; [reflexivity|split; [|reflexivity]]].
  - eexists _, [], (_parse_entry (lit "error id=0 msg=ok")).
    split; [|split; [|reflexivity]].
    + split; [reflexivity|]. split; [reflexivity|].
      exists ImportError, (scripted (after_use rest)). by repeat split.
    + reflexivity.
  - reflexivity.
Qed.

Lemma max_clients_is_what_int_reads_witness :
  (∃ w4,
     _perform_teamspeak_query example_config (lit "online_count") false
       (scripted unreadable_maxclients)
     = (Returns (Failure (FallbackFailed (ValueError (lit "abc")))), w4))
  ∧ (∀ r w',
       _perform_teamspeak_query example_config (lit "online_count") false
         (scripted negative_maxclients) = (Returns (Success r), w') →
       max_clients r = (-5)%Z).
Proof.
  split.
  - eexists.
    pose proof (proj1 (proj2 (proj2 max_clients_is_what_int_reads))
                  example_config [] (lit "online_count") false
                  (scripted unreadable_maxclients) _
                  [_parse_entry (lit "virtualserver_name=Test virtualserver_maxclients=abc virtualserver_uptime=90000")]
                  (_parse_entry (lit "error id=0 msg=ok")) _
                  (scripted_reaches_serverinfo _) eq_refl eq_refl) as H.
    cbv zeta in H.
    match type of H with match ?x with _ => _ end =>
      change x with (@None Z) in H end.
    exact H.
  - pose proof (proj1 (proj2 (proj2 max_clients_is_what_int_reads))
                  example_config [] (lit "online_count") false
                  (scripted negative_maxclients) _
                  [_parse_entry (lit "virtualserver_name=Test virtualserver_maxclients=-5 virtualserver_uptime=90000")]
                  (_parse_entry (lit "error id=0 msg=ok")) _
                  (scripted_reaches_serverinfo _) eq_refl eq_refl) as H.
    cbv zeta in H.
    match type of H with match ?x with _ => _ end =>
      change x with (Some (-5)%Z) in H end.
    exact H.
Defined.

(** C9, as the specification has it, fails twice: a server whose
    [virtualserver_maxclients] is -5 gets a result whose [max_clients] is -5,
    and one whose [virtualserver_maxclients] is "abc" makes the query fail,
    where the claim wants 0. *)
Lemma max_clients_negative_or_failure :
  (∃ r w',
     _perform_teamspeak_query example_config (lit "online_count") false
       (scripted negative_maxclients) = (Returns (Success r), w')
     ∧ max_clients r = (-5)%Z)
  ∧ (∃ w',
       _perform_teamspeak_query example_config (lit "online_count") false
         (scripted unreadable_maxclients)
       = (Returns (Failure (FallbackFailed (ValueError (lit "abc")))), w')).
Proof.
  split.
  - eexists _, _. split; [vm_compute; reflexivity|reflexivity].
  - eexists. vm_compute. reflexivity.
Qed.

(** C5: the path through the package leaves no connection open, whatever
    happens in it, and the fallback has closed its socket whenever it comes
    to one of its returns; but an exception in the fallback goes to the
    handler, which closes nothing: when [int] refuses the text "abc" of
    [virtualserver_maxclients], the query returns the failure of the fallback
    and the socket is still open; the trace has no closing. *)
Theorem socket_left_open_by_an_exception :
  (∀ cfg exclude query_type show_user_list w r w',
     ts3_query cfg exclude query_type show_user_list w = (r, w') →
     ts3_open w = false → ts3_open w' = false)
  ∧ (∀ cfg exclude query_type show_user_list w a w',
       tcp_session cfg exclude query_type show_user_list w = (Returns a, w') →
       sock_open w' = false)
  ∧ ∃ w',
      _perform_teamspeak_query example_config (lit "online_count") false
        (scripted unreadable_maxclients)
      = (Returns (Failure (FallbackFailed (ValueError (lit "abc")))), w')
      ∧ sock_open w' = true
      ∧ trace w'
        = [SockSend (blit "serverinfo" ++ [LF]);
           SockSend (blit "use sid=1" ++ [LF]);
           SockSend (blit "login serveradmin secret" ++ [LF]);
           SockConnect (lit "localhost") 10011].
Proof.
  split; [apply ts3_query_closes|]. split; [apply tcp_session_returns_closed|].
  eexists. split; [vm_compute; reflexivity|]. split; reflexivity.
Qed.

(** ** Further properties *)

(** X1: no exception leaves the query: in every world, with every
    configuration, it returns its pair. *)
Theorem query_never_raises cfg query_type show_user_list w :
  ∃ a w', _perform_teamspeak_query cfg query_type show_user_list w = (Returns a, w').
Proof. apply query_returns. Qed.

(** X2: a text without a backslash is its own unescaped text. *)
Theorem unescape_without_backslash (s : str) : 0x5C ∉ s → _unescape s = s.
Proof. apply unescape_plain. Qed.

Lemma unescape_without_backslash_witness :
  (0x5C ∉ lit "Music Room") ∧ _unescape (lit "Music Room") = lit "Music Room".
Proof.
  assert (0x5C ∉ lit "Music Room") as H.
  { intros Hin. vm_compute in Hin.
    repeat (apply elem_of_cons in Hin as [Hin|Hin]; [discriminate Hin|]).
    by apply elem_of_nil in Hin. }
  split; [exact H|]. exact (unescape_without_backslash _ H).
Defined.

(** X3: the days and hours of a status query are those of the uptime: the
    hours are between 0 and 23, and days and hours together are the uptime
    but for less than an hour. *)
Theorem uptime_days_and_hours (uptime : Z) (server_info : entry) (channels : Z)
    (r : query_result) :
  ∃ s, status (with_status uptime server_info channels r) = Some s
       ∧ (0 ≤ uptime_hours s < 24)%Z
       ∧ (uptime_days s * 86400 + uptime_hours s * 3600 ≤ uptime
          < uptime_days s * 86400 + uptime_hours s * 3600 + 3600)%Z.
Proof.
  eexists. split; [reflexivity|]. simpl.
  pose proof (Z.div_mod uptime 86400 ltac:(lia)) as Hd.
  pose proof (Z.mod_pos_bound uptime 86400 ltac:(lia)) as Hm.
  pose proof (Z.div_mod (uptime mod 86400) 3600 ltac:(lia)) as Hd2.
  pose proof (Z.mod_pos_bound (uptime mod 86400) 3600 ltac:(lia)) as Hm2.
  split; [split; [apply Z.div_pos; lia|apply Z.div_lt_upper_bound; lia]|].
  lia.
Qed.

(** X4: the events of a query that succeeds. Through the package: the
    connection, the login, the choice of the server, the three queries and
    two calls of [conn.close()]. On the socket, after the calls of the
    package that failed: the lines [login], [use], [serverinfo],
    [clientlist], [channellist] ([channellist] twice for a status query) and
    [quit], in this order, then the close. *)
Theorem successful_query_conversation cfg query_type show_user_list w r w' :
  _perform_teamspeak_query cfg query_type show_user_list w
    = (Returns (Success r), w') →
  trace w' = package_conversation cfg ++ trace w
  ∨ ∃ package login sid use,
      Forall (λ e, is_ts3_event e = true) package
      ∧ encode (login_line cfg ++ [LF]) = Some login
      ∧ str_of_int (interp w) (ts_server_id cfg) = Some sid
      ∧ encode (lit "use sid=" ++ sid ++ [LF]) = Some use
      ∧ trace w' = conversation cfg login use query_type ++ package ++ trace w.
Proof.
  intros H. unfold _perform_teamspeak_query in H.
  destruct (normalized_tokens_run (exclude_channels cfg) w) as [exclude Hex].
  rewrite bind_run, Hex in H.
  destruct (negb _ && negb _); [discriminate H|].
  rewrite try_except_run in H.
  destruct (ts3_query _ _ _ _ w) as [[a|e] w1] eqn:Hts3.
  { injection H as -> ->. left. by eapply ts3_query_conversation. }
  right. apply ts3_query_events in Hts3 as (package & Ht & Hp & Hi & _).
  apply try_except_success in H.
  apply tcp_session_conversation in H as (login & sid & use & Hl & Hs & Hu & Hc).
  exists package, login, sid, use. rewrite <- Hi, <- Ht. done.
Qed.

Lemma successful_query_conversation_witness :
  ∃ w',
    _perform_teamspeak_query example_config (lit "online_count") true
      (scripted crowded) = (Returns (Success crowded_result), w')
    ∧ (trace w' = package_conversation example_config ++ trace (scripted crowded)
       ∨ ∃ package login sid use,
           Forall (λ e, is_ts3_event e = true) package
           ∧ encode (login_line example_config ++ [LF]) = Some login
           ∧ str_of_int (interp (scripted crowded)) (ts_server_id example_config)
             = Some sid
           ∧ encode (lit "use sid=" ++ sid ++ [LF]) = Some use
           ∧ trace w' = conversation example_config login use (lit "online_count")
                        ++ package ++ trace (scripted crowded)).
Proof.
  eexists. split; [vm_compute; reflexivity|].
  eapply (successful_query_conversation example_config (lit "online_count") true
            (scripted crowded) crowded_result).
  vm_compute; reflexivity.
Defined.

(** X5: the events of a query, whatever it answers: first calls of the
    package, then at most one use of the socket: the connection, at most
    seven lines, and the close, if there is one, last. *)
Theorem query_protocol_order cfg query_type show_user_list w :
  ∃ package socket,
    trace (_perform_teamspeak_query cfg query_type show_user_list w).2
    = socket ++ package ++ trace w
    ∧ Forall (λ e, is_ts3_event e = true) package
    ∧ (socket = [] ∨ socket_session cfg socket).
Proof.
  destruct (_perform_teamspeak_query cfg query_type show_user_list w)
    as [res w'] eqn:H.
  by eapply query_events.
Qed.

(** X6: the keys of the result of a query that succeeds. The five keys of
    a status are in it exactly for the query type "server_status"; the user
    list exactly when the caller asks for it or [show_details] is configured
    (whatever the query type); [more_users] exactly when the list is in it
    and there are more than ten users on line. *)
Theorem result_keys cfg query_type show_user_list w r w' :
  _perform_teamspeak_query cfg query_type show_user_list w
    = (Returns (Success r), w') →
  (is_Some (status r) ↔ query_type = lit "server_status")
  ∧ (is_Some (online_users r) ↔ show_user_list || show_details cfg = true)
  ∧ (is_Some (more_users r)
     ↔ show_user_list || show_details cfg = true ∧ (10 < online_count r)%Z).
Proof.
  intros H. split; [by eapply query_status|].
  apply query_success in H as (exclude & clients & channels & _ & _ & Hs).
  destruct Hs as (r0 & Hc & Hu & Hm & ->).
  destruct (show_user_list || show_details cfg); simpl.
  - split; [split; [done|by eexists]|]. rewrite Hc.
    destruct (Z.ltb_spec 10 (len (online_users_of clients
      (excluded_cids_of exclude channels)))) as [Hlt|Hge].
    + split; [done|by eexists].
    + rewrite Hm. split; [by intros [? ?]|lia].
  - rewrite Hu, Hm. split; (split; [by intros [? ?]|]); [done|by intros [? _]].
Qed.

Lemma result_keys_witness :
  ∃ w',
    _perform_teamspeak_query example_config (lit "online_count") true
      (scripted crowded) = (Returns (Success crowded_result), w')
    ∧ (is_Some (status crowded_result) ↔ lit "online_count" = lit "server_status")
    ∧ (is_Some (online_users crowded_result)
       ↔ true || show_details example_config = true)
    ∧ (is_Some (more_users crowded_result)
       ↔ true || show_details example_config = true
         ∧ (10 < online_count crowded_result)%Z).
Proof.
  eexists. split; [vm_compute; reflexivity|].
  eapply (result_keys example_config (lit "online_count") true
            (scripted crowded) crowded_result).
  vm_compute; reflexivity.
Defined.

(** X7: what [_send_and_recv] parses is what it received: the calls of
    [recv] it made are the first of those the socket had to answer, the
    others are left for the next command, and the records and the status it
    returns are those of the bytes of the chunks received, in their
    order. *)
Theorem response_is_what_was_received (cmd : str) (w : world) res w' :
  _send_and_recv cmd w = (Returns res, w') →
  ∃ used, recvs w = used ++ recvs w' ∧ res = parse_response (received used).
Proof. apply send_and_recv_received. Qed.

Lemma response_is_what_was_received_witness :
  ∃ res w',
    _send_and_recv (lit "clientlist")
      (scripted [Returns three_clients; Returns two_channels]) = (Returns res, w')
    ∧ ∃ used, recvs (scripted [Returns three_clients; Returns two_channels])
              = used ++ recvs w'
              ∧ res = parse_response (received used).
Proof.
  eexists _, _. split; [vm_compute; reflexivity|].
  eapply (response_is_what_was_received (lit "clientlist")
            (scripted [Returns three_clients; Returns two_channels])).
  vm_compute; reflexivity.
Defined.

(** X8: the condition that ends the receiving loop holds exactly when the
    data, its carriage returns taken out, holds a line feed followed by
    "error id=": the first test of the condition is implied by the second,
    and a status line that nothing precedes is not seen. *)
Theorem status_seen_after_a_line_feed (data : bytes) :
  status_seen data = true
  ↔ ∃ a b, replace [CR] [] data = a ++ (LF :: blit "error id=") ++ b.
Proof. apply status_seen_infix. Qed.

(** X9: an answer that is one line (as the answers to [login], [use] and
    [quit] are: a status line alone) does not end the receiving loop: the
    loop calls [recv] again, and ends with the time-out or with what
    follows. *)
Theorem lone_status_line_waits (text : bytes) (rest : list (outcome bytes)) :
  LF ∉ text →
  recv_loop [] (Returns (text ++ [LF; CR]) :: rest)
  = recv_loop (text ++ [LF; CR]) rest.
Proof.
  intros H. apply lone_line_not_seen in H. simpl.
  destruct (text ++ [LF; CR]) as [|c t] eqn:E.
  { by destruct text. }
  simpl. by rewrite H.
Qed.

Lemma lone_status_line_waits_witness :
  (LF ∉ blit "error id=0 msg=ok")
  ∧ recv_loop [] (Returns (blit "error id=0 msg=ok" ++ [LF; CR])
                  :: [Raises SocketTimeout; Returns three_clients])
    = recv_loop (blit "error id=0 msg=ok" ++ [LF; CR])
        [Raises SocketTimeout; Returns three_clients].
Proof.
  assert (LF ∉ blit "error id=0 msg=ok") as H.
  { intros Hin. vm_compute in Hin.
    repeat (apply elem_of_cons in Hin as [Hin|Hin]; [discriminate Hin|]).
    by apply elem_of_nil in Hin. }
  split; [exact H|]. exact (lone_status_line_waits _ _ H).
Defined.

(** X10: the receiving loop reads no further than it has to: when the
    chunks received, none of them empty, show the status marker for the first
    time after the last of them, the loop returns their bytes and leaves
    every later answer of the socket unread. *)
Theorem recv_stops_at_the_marker (chunks : list bytes)
    (rest : list (outcome bytes)) (data : bytes) :
  Forall (λ c, c ≠ []) chunks → chunks ≠ [] →
  (∀ k, (0 < k < length chunks)%nat →
        status_seen (data ++ concat (take k chunks)) = false) →
  status_seen (data ++ concat chunks) = true →
  recv_loop data (map Returns chunks ++ rest)
  = (Returns (data ++ concat chunks), rest).
Proof. apply recv_loop_first_marker. Qed.

Lemma recv_stops_at_the_marker_witness :
  recv_loop [] (map Returns [blit "clid=1 cid=5"; LF :: CR :: blit "error id=0 msg=ok"]
                ++ [Returns two_channels])
  = (Returns ([] ++ concat [blit "clid=1 cid=5"; LF :: CR :: blit "error id=0 msg=ok"]),
     [Returns two_channels]).
Proof.
  apply (recv_stops_at_the_marker
           [blit "clid=1 cid=5"; LF :: CR :: blit "error id=0 msg=ok"]
           [Returns two_channels] []).
  - by repeat constructor.
  - done.
  - intros k Hk. simpl in Hk. assert (k = 1%nat) as -> by lia. reflexivity.
  - reflexivity.
Defined.

(** X11: where the fields of a record come from. A key of the record
    [_parse_entry] returns holds no "=" and no space, and its value is the
    unescaped text that follows the first "=" of one of the parts of the
    line, the parts being what the spaces separate. *)
Theorem parse_entry_fields (line k v : str) :
  _parse_entry line !! k = Some v →
  (0x3D ∉ k) ∧ (0x20 ∉ k)
  ∧ ∃ raw, k ++ 0x3D :: raw ∈ split 0x20 (strip line)
           ∧ (0x20 ∉ raw) ∧ v = _unescape raw.
Proof. apply parse_entry_lookup. Qed.

Lemma parse_entry_fields_witness :
  _parse_entry (lit "cid=6 channel_name=Music\sRoom") !! lit "channel_name"
    = Some (lit "Music Room")
  ∧ (0x3D ∉ lit "channel_name") ∧ (0x20 ∉ lit "channel_name")
  ∧ ∃ raw, lit "channel_name" ++ 0x3D :: raw
             ∈ split 0x20 (strip (lit "cid=6 channel_name=Music\sRoom"))
           ∧ (0x20 ∉ raw) ∧ lit "Music Room" = _unescape raw.
Proof.
  split; [vm_compute; reflexivity|].
  apply (parse_entry_fields (lit "cid=6 channel_name=Music\sRoom")).
  vm_compute; reflexivity.
Defined.

(** X12: a line without "=" (an empty line, a blank one, the server's
    greeting) gives the empty record. *)
Theorem parse_entry_without_equals (line : str) :
  0x3D ∉ line → _parse_entry line = ∅.
Proof. apply parse_entry_no_equals. Qed.

Lemma parse_entry_without_equals_witness :
  (0x3D ∉ lit "TS3") ∧ _parse_entry (lit "TS3") = ∅.
Proof.
  assert (0x3D ∉ lit "TS3") as H.
  { intros Hin. vm_compute in Hin.
    repeat (apply elem_of_cons in Hin as [Hin|Hin]; [discriminate Hin|]).
    by apply elem_of_nil in Hin. }
  split; [exact H|]. exact (parse_entry_without_equals _ H).
Defined.

(** X13: unescaping never makes a text longer: each of the four
    replacements puts one character for two. *)
Theorem unescape_never_longer (s : str) : (length (_unescape s) ≤ length s)%nat.
Proof. apply unescape_length. Qed.

(** X14: what [_send_and_recv] sends. Either the command has no UTF-8
    encoding: nothing is sent and [UnicodeEncodeError] is raised; or one
    line is sent, and its bytes, decoded, are the command followed by a line
    feed. *)
Theorem sent_line_is_the_command (cmd : str) (w : world) r w' :
  _send_and_recv cmd w = (r, w') →
  (r = Raises UnicodeEncodeError ∧ trace w' = trace w)
  ∨ ∃ payload, trace w' = SockSend payload :: trace w
               ∧ decode_ignore payload = cmd ++ [LF].
Proof.
  intros H. apply send_and_recv_world in H as (_ & _ & H).
  destruct (encode (cmd ++ [LF])) as [payload|] eqn:Henc.
  - right. exists payload. split; [done|]. by apply decode_encode.
  - left. by destruct H.
Qed.

Lemma sent_line_is_the_command_witness :
  ∃ r w',
    _send_and_recv (lit "login serveradmin 密码") (scripted [Returns ok]) = (r, w')
    ∧ ((r = Raises UnicodeEncodeError ∧ trace w' = trace (scripted [Returns ok]))
       ∨ ∃ payload, trace w' = SockSend payload :: trace (scripted [Returns ok])
                    ∧ decode_ignore payload = lit "login serveradmin 密码" ++ [LF]).
Proof.
  eexists _, _. split; [vm_compute; reflexivity|].
  eapply (sent_line_is_the_command (lit "login serveradmin 密码")
            (scripted [Returns ok])).
  vm_compute; reflexivity.
Defined.

(** X15: the text [str] makes of an integer is a text [int] reads, and
    reads as this integer: the server id of the line [use sid=...] is the
    one configured. *)
Theorem int_reads_what_str_writes (n : Z) (w : world) s w' :
  py_str n w = (Returns s, w') → py_int s w' = (Returns n, w').
Proof.
  rewrite py_str_run, py_int_run.
  destruct (str_of_int (interp w) n) as [s'|] eqn:H; [|done].
  intros [= <- <-]. by rewrite (int_of_str_of_int _ _ _ H).
Qed.

Lemma int_reads_what_str_writes_witness :
  py_str (-10011) (scripted []) = (Returns (lit "-10011"), scripted [])
  ∧ py_int (lit "-10011") (scripted []) = (Returns (-10011)%Z, scripted []).
Proof.
  split; [vm_compute; reflexivity|].
  apply (int_reads_what_str_writes (-10011) (scripted []) (lit "-10011") (scripted [])).
  vm_compute; reflexivity.
Defined.

(** X16: the commands never raise. When the lists of a result are of a
    size that a machine holds (fewer than 10^640 users on line and
    channels), each of the three [execute] methods returns its triple, after
    exactly one call of [send_text], whatever the query answers and whatever
    the server sent: the numbers of the message are all numbers that [str] can
    write, [max_clients] and the uptime because [int] has read them. The first
    component of the triple tells whether the query succeeded. *)
Theorem commands_never_raise (exn_text : exn → str) (cfg : config) (w : world) :
  (∀ r w1, _perform_teamspeak_query cfg (lit "online_count") true w
             = (Returns (Success r), w1) →
           (online_count r < 10 ^ 640)%Z) →
  (∀ r w1, _perform_teamspeak_query cfg (lit "server_status") false w
             = (Returns (Success r), w1) →
           (online_count r < 10 ^ 640)%Z
           ∧ ∀ st, status r = Some st → (Z.abs (channel_count st) < 10 ^ 640)%Z) →
  (∃ rep w1, TeamSpeakQueryCommand_execute exn_text cfg w = (Returns rep, w1)
             ∧ length (sent rep) = 1%nat
             ∧ ((returned rep).1.1 = true
                ↔ ∃ r, _perform_teamspeak_query cfg (lit "online_count") true w
                       = (Returns (Success r), w1)))
  ∧ (∃ rep w1, TeamSpeakStatusCommand_execute exn_text cfg w = (Returns rep, w1)
               ∧ length (sent rep) = 1%nat
               ∧ ((returned rep).1.1 = true
                  ↔ ∃ r, _perform_teamspeak_query cfg (lit "server_status") false w
                         = (Returns (Success r), w1)))
  ∧ (∃ rep w1, TeamSpeakAction_execute exn_text cfg w = (Returns rep, w1)
               ∧ length (sent rep) = 1%nat
               ∧ ((returned rep).1.1 = true
                  ↔ ∃ r, _perform_teamspeak_query cfg (lit "online_count") true w
                         = (Returns (Success r), w1))).
Proof.
  intros Honline Hstatus.
  destruct (query_returns cfg (lit "online_count") true w) as (a1 & w1 & H1).
  destruct (query_returns cfg (lit "server_status") false w) as (a2 & w2 & H2).
  assert (∃ rep, match a1 with
                 | Failure error => mret (report_failure exn_text error)
                 | Success result =>
                     message ← online_message result; mret (report_success message)
                 end w1 = (Returns rep, w1)
                 ∧ length (sent rep) = 1%nat
                 ∧ ((returned rep).1.1 = true ↔ ∃ r, a1 = Success r))
    as (rep1 & Hrep1 & Hsent1 & Hret1).
  { apply command_reply. intros r ->.
    eapply online_command_returns; [exact H1|]. by eapply Honline. }
  assert (∃ rep, match a2 with
                 | Failure error => mret (report_failure exn_text error)
                 | Success result =>
                     message ← status_message result; mret (report_success message)
                 end w2 = (Returns rep, w2)
                 ∧ length (sent rep) = 1%nat
                 ∧ ((returned rep).1.1 = true ↔ ∃ r, a2 = Success r))
    as (rep2 & Hrep2 & Hsent2 & Hret2).
  { apply command_reply. intros r ->.
    destruct (Hstatus r w2 H2) as [Hc Hch].
    by eapply status_command_returns. }
  assert (∀ (a : answer) (w' : world),
            (∃ r, a = Success r)
            ↔ ∃ r, (Returns a, w') = (Returns (Success r), w')) as Hiff.
  { intros a w'. split; intros [r Hr]; exists r; congruence. }
  split; [|split].
  - exists rep1, w1. unfold TeamSpeakQueryCommand_execute.
    rewrite bind_run, H1. split; [done|]. split; [done|].
    rewrite Hret1. apply Hiff.
  - exists rep2, w2. unfold TeamSpeakStatusCommand_execute.
    rewrite bind_run, H2. split; [done|]. split; [done|].
    rewrite Hret2. apply Hiff.
  - exists rep1, w1. unfold TeamSpeakAction_execute.
    rewrite bind_run, H1. split; [done|]. split; [done|].
    rewrite Hret1. apply Hiff.
Qed.

Lemma commands_never_raise_witness :
  (∃ rep w1, TeamSpeakQueryCommand_execute (λ _, []) example_config
               (scripted crowded) = (Returns rep, w1)
             ∧ length (sent rep) = 1%nat
             ∧ ((returned rep).1.1 = true
                ↔ ∃ r, _perform_teamspeak_query example_config (lit "online_count")
                         true (scripted crowded) = (Returns (Success r), w1)))
  ∧ (∃ rep w1, TeamSpeakStatusCommand_execute (λ _, []) example_config
                 (scripted crowded) = (Returns rep, w1)
               ∧ length (sent rep) = 1%nat
               ∧ ((returned rep).1.1 = true
                  ↔ ∃ r, _perform_teamspeak_query example_config
                           (lit "server_status") false (scripted crowded)
                         = (Returns (Success r), w1)))
  ∧ (∃ rep w1, TeamSpeakAction_execute (λ _, []) example_config
                 (scripted crowded) = (Returns rep, w1)
               ∧ length (sent rep) = 1%nat
               ∧ ((returned rep).1.1 = true
                  ↔ ∃ r, _perform_teamspeak_query example_config (lit "online_count")
                           true (scripted crowded) = (Returns (Success r), w1))).
Proof.
  apply (commands_never_raise (λ _, []) example_config (scripted crowded)).
  - intros r w1 H. vm_compute in H. injection H as <- _. by apply Z.ltb_lt.
  - intros r w1 H. vm_compute in H. injection H as <- _.
    split; [by apply Z.ltb_lt|]. intros st [= <-]. by apply Z.ltb_lt.
Defined.
